(** * wooof-sound-architect: the audio analysis engine (audioAnalyzer.ts)

    A shallow embedding of the signal-analysis core: the YIN pitch detector,
    the fallback autocorrelation detector, the BPM detector, the chord
    recognizer, the volume helper, the option handling and the detection
    methods of [AudioAnalyzer], the note-name mapper, and the two functions
    of the garden generator (GardenGenerator.ts) that read a waveform and
    name a frequency.

    Number model.  A JavaScript number is modelled by [num]: an exact
    rational ([Q], kept in lowest terms by [Qred] after every operation so
    that computed values compare by [=]) or one of the three special values
    the code can produce or compare against ([Infinity], [-Infinity],
    [NaN]).  Special values follow
    the IEEE-754 rules the source relies on (a comparison with NaN is false,
    0/0 is NaN, x/0 is an infinity).  Rounding of finite values (binary64
    arithmetic, binary32 storage in a Float32Array), overflow and the sign
    of zero are not modelled.  The transcendental functions of [Math]
    ([sqrt], [log2]) are an interface, [JS.Math]; the note mapper, whose
    result is a power of two with a real exponent, is stated over [R].

    Where the outcome of the source depends on what the model leaves
    out, the statements carry a hypothesis that keeps such inputs away:
    positive frequency and tempo bounds where a quotient by a negative
    zero, or one that overflows, would start a loop at [-Infinity] or
    ask for an array of negative length; samples in [-1, 1] where larger
    ones would overflow a binary32 cell; a frequency away from the
    half-way point between two notes where the last bit of the logarithm
    would decide the note.  The limit an engine puts on the number of
    arguments of a call ([Math.max(...a)]) is not modelled either. *)

From Stdlib Require Import ZArith QArith Qabs Qround Qreduction Lia List Bool.
From Stdlib Require Import Sorted.
From Stdlib Require Import String Ascii DecimalString DecimalPos DecimalZ.
From Stdlib Require Import Reals Psatz.
Import ListNotations.

(* ====================================================================== *)
(** * Part I: the program                                                  *)
(* ====================================================================== *)

(** ** JavaScript numbers *)

Module JS.

Inductive num : Type :=
| Fin (q : Q)
| PInf
| NInf
| NaN.

Definition ofZ (z : Z) : num := Fin (inject_Z z).

Definition zero : num := Fin 0.
Definition one : num := Fin 1.

Definition Qltb (x y : Q) : bool := negb (Qle_bool y x).

Definition is_fin (a : num) : bool :=
  match a with Fin _ => true | _ => false end.

(** [a < b] *)
Definition lt (a b : num) : bool :=
  match a, b with
  | NaN, _ | _, NaN => false
  | Fin x, Fin y => Qltb x y
  | NInf, NInf => false
  | NInf, _ => true
  | _, NInf => false
  | PInf, _ => false
  | Fin _, PInf => true
  end.

(** [a > b] *)
Definition gt (a b : num) : bool := lt b a.

(** [a <= b] *)
Definition le (a b : num) : bool :=
  match a, b with
  | NaN, _ | _, NaN => false
  | Fin x, Fin y => Qle_bool x y
  | NInf, _ => true
  | _, PInf => true
  | _, _ => false
  end.

(** [a >= b] *)
Definition ge (a b : num) : bool := le b a.

(** [a === b] on numbers *)
Definition eq (a b : num) : bool :=
  match a, b with
  | Fin x, Fin y => Qeq_bool x y
  | PInf, PInf | NInf, NInf => true
  | _, _ => false
  end.

(** Finite results are kept in lowest terms ([Qred]), so that equal values
    computed in different ways are equal terms. *)
Definition add (a b : num) : num :=
  match a, b with
  | NaN, _ | _, NaN => NaN
  | Fin x, Fin y => Fin (Qred (x + y))
  | PInf, NInf | NInf, PInf => NaN
  | PInf, _ | _, PInf => PInf
  | NInf, _ | _, NInf => NInf
  end.

Definition neg (a : num) : num :=
  match a with
  | Fin x => Fin (Qred (- x))
  | PInf => NInf
  | NInf => PInf
  | NaN => NaN
  end.

Definition sub (a b : num) : num := add a (neg b).

(** Sign of a number: [Some true] positive, [Some false] negative, [None]
    zero or NaN. *)
Definition sign (a : num) : option bool :=
  match a with
  | Fin x => if Qltb 0 x then Some true
             else if Qltb x 0 then Some false else None
  | PInf => Some true
  | NInf => Some false
  | NaN => None
  end.

Definition signed_inf (positive : bool) : num :=
  if positive then PInf else NInf.

Definition mul (a b : num) : num :=
  match a, b with
  | NaN, _ | _, NaN => NaN
  | Fin x, Fin y => Fin (Qred (x * y))
  | _, _ =>
      match sign a, sign b with
      | Some s, Some t => signed_inf (Bool.eqb s t)
      | _, _ => NaN
      end
  end.

Definition div (a b : num) : num :=
  match a, b with
  | NaN, _ | _, NaN => NaN
  | Fin x, Fin y =>
      if Qeq_bool y 0
      then match sign a with
           | Some s => signed_inf s
           | None => NaN
           end
      else Fin (Qred (x / y))
  | Fin _, _ => zero
  | PInf, Fin y => signed_inf (negb (Qltb y 0))
  | NInf, Fin y => signed_inf (Qltb y 0)
  | _, _ => NaN
  end.

(** [Math.min(a, b)] and [Math.max(a, b)] *)
Definition min (a b : num) : num :=
  match a, b with
  | NaN, _ | _, NaN => NaN
  | _, _ => if lt b a then b else a
  end.

Definition max (a b : num) : num :=
  match a, b with
  | NaN, _ | _, NaN => NaN
  | _, _ => if lt a b then b else a
  end.

(** [Math.max(...xs)]: [-Infinity] for no argument. *)
Definition max_list (xs : list num) : num := fold_left max xs NInf.

(** [Math.floor], [Math.ceil], [Math.round] (half-way cases go up),
    [Math.abs] *)
Definition floor (a : num) : num :=
  match a with Fin x => ofZ (Qfloor x) | _ => a end.

Definition ceil (a : num) : num :=
  match a with Fin x => ofZ (Qceiling x) | _ => a end.

Definition round (a : num) : num :=
  match a with Fin x => ofZ (Qfloor (x + (1 # 2))) | _ => a end.

Definition abs (a : num) : num :=
  match a with
  | Fin x => if Qltb x 0 then Fin (Qred (- x)) else a
  | NInf => PInf
  | _ => a
  end.

(** Truthiness of a number: [0] and [NaN] are falsy. *)
Definition truthy (a : num) : bool :=
  match a with
  | Fin x => negb (Qeq_bool x 0)
  | NaN => false
  | _ => true
  end.

(** [a || b] on numbers *)
Definition or (a b : num) : num := if truthy a then a else b.

(** The integer a finite number truncates to ([ToIntegerOrInfinity]). *)
Definition trunc (x : Q) : Z :=
  if Qltb x 0 then Qceiling x else Qfloor x.

(** [a % b]: the remainder has the sign of the dividend. *)
Definition rem (a b : num) : num :=
  match a, b with
  | Fin x, Fin y =>
      if Qeq_bool y 0 then NaN
      else Fin (Qred (x - y * inject_Z (trunc (x / y))))
  | Fin _, PInf | Fin _, NInf => a
  | _, _ => NaN
  end.

(** The array index a number denotes, if it is an integer. *)
Definition toIndex (a : num) : option Z :=
  match a with
  | Fin x => if Qeq_bool x (inject_Z (Qfloor x)) then Some (Qfloor x) else None
  | _ => None
  end.

(** The functions of [Math] whose results are not rational. *)
Class Math : Type := {
  sqrt : num -> num;
  log2 : num -> num
}.

(** What the analysis needs of [Math.sqrt]. *)
Class MathLaws (M : Math) : Prop := {
  sqrt_zero : forall x : Q, x == 0 -> sqrt (Fin x) = zero;
  sqrt_nan : sqrt NaN = NaN;
  sqrt_fin : forall x : Q, 0 <= x ->
               exists y : Q, 0 <= y /\ sqrt (Fin x) = Fin y
}.

End JS.

Abbreviation num := JS.num.
Abbreviation Fin := JS.Fin.
Abbreviation PInf := JS.PInf.
Abbreviation NInf := JS.NInf.
Abbreviation NaN := JS.NaN.

(** ** Exceptions *)

Inductive error : Type :=
| RangeError                         (* invalid typed array length *)
| IndexSizeError                     (* thrown by the platform's AnalyserNode *)
| InvalidNoteFormat (note : string). (* [new Error(`Invalid note format: ...`)] *)

Inductive result (A : Type) : Type :=
| Ok (a : A)
| Throw (e : error).
Arguments Ok {A} a.
Arguments Throw {A} e.

Definition bind {A B : Type} (r : result A) (k : A -> result B) : result B :=
  match r with
  | Ok a => k a
  | Throw e => Throw e
  end.

Notation "x <- r ;; k" := (bind r (fun x => k))
  (at level 61, r at next level, right associativity).

(** ** Typed arrays *)

Module TypedArray.

(** A Float32Array (or Uint8Array): its cells in order. *)
Definition t : Type := list num.

(** [new Float32Array(n)]: the length is [ToIndex(n)]; a negative or
    infinite length throws a RangeError. *)
Definition create (n : num) : result t :=
  match n with
  | Fin x =>
      let k := JS.trunc x in
      if (k <? 0)%Z then Throw RangeError
      else Ok (repeat JS.zero (Z.to_nat k))
  | NaN => Ok []
  | _ => Throw RangeError
  end.

Definition length (a : t) : Z := Z.of_nat (List.length a).

(** [a[i]] in a numeric context: an index out of range reads [undefined],
    which behaves as [NaN] in arithmetic and comparisons and is falsy. *)
Definition get (a : t) (i : Z) : num :=
  if (i <? 0)%Z then NaN else nth (Z.to_nat i) a NaN.

Fixpoint set_nat (a : t) (i : nat) (v : num) : t :=
  match a, i with
  | [], _ => []
  | _ :: rest, O => v :: rest
  | x :: rest, S j => x :: set_nat rest j v
  end.

(** [a[i] = v]: a write out of range is ignored. *)
Definition set (a : t) (i : Z) (v : num) : t :=
  if (i <? 0)%Z then a else set_nat a (Z.to_nat i) v.

(** The same with a computed (number) index; a key that is not an integer
    reads [undefined] and is not written. *)
Definition get_num (a : t) (i : num) : num :=
  match JS.toIndex i with Some k => get a k | None => NaN end.

Definition set_num (a : t) (i : num) (v : num) : t :=
  match JS.toIndex i with Some k => set a k v | None => a end.

(** A Uint8Array cell as a number. *)
Definition u8 (b : Byte.byte) : num := JS.ofZ (Z.of_N (Byte.to_N b)).

End TypedArray.

(** [0, 1, ..., n-1], the values of a counting loop. *)
Definition upto (n : nat) : list Z := map Z.of_nat (seq 0 n).

(** The number of turns of [for (i = from; i < bound; i++)].  The bound is
    never [Infinity] where this is used: such a loop comes after
    [new Float32Array(bound)], which throws on an infinite length. *)
Definition turns (from : Z) (bound : num) : nat :=
  match bound with
  | Fin q => Z.to_nat (Qceiling q - from)
  | _ => O
  end.

(** [lo, lo+1, ..., hi] *)
Definition zrange (lo hi : Z) : list Z :=
  map (fun k => (lo + Z.of_nat k)%Z) (seq 0 (Z.to_nat (hi - lo + 1))).

(** [for (i = start; cond(i); i++) body], with a bound on the number of
    turns. *)
Fixpoint for_loop {S : Type} (cond : Z -> bool) (body : S -> Z -> S)
    (i : Z) (fuel : nat) (s : S) : S :=
  match fuel with
  | O => s
  | S fuel' =>
      if cond i then for_loop cond body (i + 1) fuel' (body s i) else s
  end.

(** ** Constants *)

Open Scope string_scope.
Open Scope list_scope.

Definition NOTE_NAMES : list string :=
  ["C"; "C#"; "D"; "D#"; "E"; "F"; "F#"; "G"; "G#"; "A"; "A#"; "B"].

(** [NOTE_NAMES[i]] inside a template string. *)
Definition noteName (i : Z) : string :=
  if (i <? 0)%Z then "undefined" else nth (Z.to_nat i) NOTE_NAMES "undefined".

(** The entries of [CHORD_TEMPLATES] in declaration order. *)
Definition CHORD_TEMPLATES : list (string * list Z) :=
  [ ("major", [0; 4; 7]%Z);
    ("minor", [0; 3; 7]%Z);
    ("diminished", [0; 3; 6]%Z);
    ("augmented", [0; 4; 8]%Z);
    ("suspended4", [0; 5; 7]%Z);
    ("suspended2", [0; 2; 7]%Z) ].

(** ** Chord recognition *)

Inductive ChordType : Type :=
| major | minor | diminished | augmented | suspended | unknown.

Definition ChordType_label (t : ChordType) : string :=
  match t with
  | major => "major"
  | minor => "minor"
  | diminished => "diminished"
  | augmented => "augmented"
  | suspended => "suspended"
  | unknown => "unknown"
  end.

Record ChordInfo : Type := {
  root : string;
  type : ChordType;
  name : string;
  notes : list string;
  confidence : num
}.

Module ChordRecognizer.

Import TypedArray.

Section WithMath.
Context {M : JS.Math}.

(** One turn of the loop over the spectral bins. *)
Definition accumulate (frequencyData : list Byte.byte) (nyquist : num)
    (chromagram : t) (i : Z) : t :=
  let binCount := JS.ofZ (Z.of_nat (List.length frequencyData)) in
  let frequency := JS.mul (JS.div (JS.ofZ i) binCount) nyquist in
  if JS.gt frequency JS.zero then
    let midiNote :=
      JS.add (JS.ofZ 69)
             (JS.mul (JS.ofZ 12) (JS.log2 (JS.div frequency (JS.ofZ 440)))) in
    let pitchClass := JS.rem (JS.round midiNote) (JS.ofZ 12) in
    if JS.ge pitchClass JS.zero && JS.lt pitchClass (JS.ofZ 12) then
      set_num chromagram pitchClass
        (JS.add (get_num chromagram pitchClass)
                (u8 (nth (Z.to_nat i) frequencyData Byte.x00)))
    else chromagram
  else chromagram.

(** The normalisation by the largest bin. *)
Definition normalize (chromagram : t) : t :=
  let max := JS.max_list chromagram in
  if JS.gt max JS.zero then
    fold_left (fun c i => set c i (JS.div (get c i) max)) (upto 12) chromagram
  else chromagram.

Definition calculateChromagram (frequencyData : list Byte.byte)
    (sampleRate : num) : t :=
  let nyquist := JS.div sampleRate (JS.ofZ 2) in
  normalize
    (fold_left (accumulate frequencyData nyquist)
               (upto (List.length frequencyData))
               (repeat JS.zero 12)).

End WithMath.

(** [intervals.includes(x)] *)
Definition includes (intervals : list Z) (x : Z) : bool :=
  existsb (Z.eqb x) intervals.

Definition matchTemplate (chromagram : t) (root : Z) (intervals : list Z)
  : num :=
  let score :=
    fold_left
      (fun score interval =>
         let noteIndex := Z.rem (root + interval) 12 in
         JS.add score (get chromagram noteIndex))
      intervals JS.zero in
  fold_left
    (fun score i =>
       if negb (includes intervals (Z.rem (i - root + 12) 12))
       then JS.sub score (JS.mul (get chromagram i) (Fin (3 # 10)))
       else score)
    (upto 12) score.

Definition formatChordType (type : string) : ChordType :=
  if String.eqb type "major" then major
  else if String.eqb type "minor" then minor
  else if String.eqb type "diminished" then diminished
  else if String.eqb type "augmented" then augmented
  else if String.eqb type "suspended4" then suspended
  else if String.eqb type "suspended2" then suspended
  else unknown.

(** The chord object built when a (root, template) pair takes the lead. *)
Definition makeChord (root : Z) (type : string) (intervals : list Z)
    (score : num) : ChordInfo :=
  let rootName := noteName root in
  let typeLabel := formatChordType type in
  {| root := rootName;
     type := typeLabel;
     name := String.append rootName
               (if String.eqb type "major" then ""
                else ChordType_label typeLabel);
     notes := map (fun interval => noteName (Z.rem (root + interval) 12))
                  intervals;
     confidence := JS.min (JS.div score (JS.ofZ 3)) JS.one |}.

(** One turn of the inner loop; the state is [(bestScore, bestChord)]. *)
Definition step (chromagram : t) (root : Z)
    (st : num * option ChordInfo) (entry : string * list Z)
  : num * option ChordInfo :=
  let '(type, intervals) := entry in
  let score := matchTemplate chromagram root intervals in
  if JS.gt score (fst st)
  then (score, Some (makeChord root type intervals score))
  else st.

Definition search (chromagram : t) : num * option ChordInfo :=
  fold_left
    (fun st root => fold_left (step chromagram root) CHORD_TEMPLATES st)
    (upto 12) (NInf, None).

(** The final value of the local [bestScore]. *)
Definition bestScore (chromagram : t) : num := fst (search chromagram).

Definition recognize (chromagram : t) : option ChordInfo :=
  snd (search chromagram).

End ChordRecognizer.



(** ** YIN pitch detection *)

Record Pitch : Type := {
  frequency : num;
  pitchConfidence : num
}.

Module YINDetector.

Import TypedArray.

Record t : Type := {
  sampleRate : num;
  threshold : num;
  minFrequency : num;
  maxFrequency : num
}.

(** [sum] after the inner loop over [j]. *)
Definition differenceAt (buffer : TypedArray.t) (bufferSize : Z) (maxLag : num)
    (tau : Z) : num :=
  fold_left
    (fun sum j =>
       let delta := JS.sub (get buffer j) (get buffer (j + tau)) in
       JS.add sum (JS.mul delta delta))
    (upto (turns 0 (JS.sub (JS.ofZ bufferSize) maxLag)))
    JS.zero.

Definition differenceFunction (buffer : TypedArray.t) (bufferSize : Z)
    (maxLag : num) : result TypedArray.t :=
  difference <- create maxLag ;;
  Ok (fold_left
        (fun difference tau =>
           set difference tau (differenceAt buffer bufferSize maxLag tau))
        (upto (turns 0 maxLag)) difference).

(** The loop state is [(cmndf, runningSum)]. *)
Definition cumulativeMeanNormalizedDifference (difference : TypedArray.t)
    (maxLag : num) : result TypedArray.t :=
  cmndf <- create maxLag ;;
  let cmndf := set cmndf 0 JS.one in
  Ok (fst
        (fold_left
           (fun (st : TypedArray.t * num) tau =>
              let runningSum := JS.add (snd st) (get difference tau) in
              (set (fst st) tau
                   (JS.div (get difference tau)
                           (JS.div runningSum (JS.ofZ tau))),
               runningSum))
           (map (fun k => (k + 1)%Z) (upto (turns 1 maxLag)))
           (cmndf, JS.zero))).

(** The inner [while]: walk down to the local minimum. [fuel] bounds the
    number of turns. *)
Fixpoint descend (cmndf : TypedArray.t) (maxLag : num) (tau : Z) (fuel : nat)
  : Z :=
  match fuel with
  | O => tau
  | S fuel' =>
      if JS.lt (JS.ofZ (tau + 1)) maxLag
         && JS.lt (get cmndf (tau + 1)) (get cmndf tau)
      then descend cmndf maxLag (tau + 1) fuel'
      else tau
  end.

(** The outer [while], from [tau]; [-1] when no lag is below the
    threshold. *)
Fixpoint scan (threshold : num) (cmndf : TypedArray.t) (maxLag : num)
    (tau : Z) (fuel : nat) : Z :=
  match fuel with
  | O => (-1)%Z
  | S fuel' =>
      if JS.lt (JS.ofZ tau) maxLag then
        if JS.lt (get cmndf tau) threshold
        then descend cmndf maxLag tau fuel'
        else scan threshold cmndf maxLag (tau + 1) fuel'
      else (-1)%Z
  end.

(** [minLag] is [Math.floor] of a quotient: an integer, or [NaN] or
    [Infinity], for which [tau < maxLag] is false at once.  From
    [-Infinity] the source loop never ends ([tau++] leaves it where it
    is); the value given here for that start is not a result of the
    source.  The source starts there when [sampleRate / maxFrequency] is
    [-Infinity]: a negative rate over a zero bound, or a positive rate
    over a negative zero or over a negative bound so small that the
    quotient overflows.  The statements about the search assume a
    positive [maxFrequency], or a start that is an integer. *)
Definition absoluteThreshold (d : t) (cmndf : TypedArray.t)
    (minLag maxLag : num) : Z :=
  match minLag with
  | Fin q =>
      scan (threshold d) cmndf maxLag (Qfloor q) (S (turns (Qfloor q) maxLag))
  | _ => (-1)%Z
  end.

Definition parabolicInterpolation (cmndf : TypedArray.t) (tau : Z) : num :=
  if ((tau <=? 0) || (tau >=? length cmndf - 1))%Z then JS.ofZ tau
  else
    let alpha := get cmndf (tau - 1) in
    let beta := get cmndf tau in
    let gamma := get cmndf (tau + 1) in
    let denom :=
      JS.mul (JS.ofZ 2)
             (JS.sub (JS.sub (JS.mul (JS.ofZ 2) beta) alpha) gamma) in
    if JS.lt (JS.abs denom) (Fin (1 # 10000000000)) then JS.ofZ tau
    else
      let offset := JS.div (JS.sub gamma alpha) denom in
      JS.add (JS.ofZ tau) offset.

Definition detect (d : t) (buffer : TypedArray.t) : result (option Pitch) :=
  let bufferSize := length buffer in
  let minLag := JS.floor (JS.div (sampleRate d) (maxFrequency d)) in
  let maxLag :=
    JS.min (JS.floor (JS.div (sampleRate d) (minFrequency d)))
           (JS.div (JS.ofZ bufferSize) (JS.ofZ 2)) in
  difference <- differenceFunction buffer bufferSize maxLag ;;
  cmndf <- cumulativeMeanNormalizedDifference difference maxLag ;;
  let tau := absoluteThreshold d cmndf minLag maxLag in
  if (tau =? -1)%Z then Ok None
  else
    let betterTau := parabolicInterpolation cmndf tau in
    let frequency := JS.div (sampleRate d) betterTau in
    let confidence := JS.sub JS.one (get cmndf tau) in
    if JS.lt frequency (minFrequency d) || JS.gt frequency (maxFrequency d)
    then Ok None
    else Ok (Some {| frequency := frequency; pitchConfidence := confidence |}).

End YINDetector.

(** ** The fallback pitch detector

    The free function [detectPitchAutocorrelation]. *)

Module Autocorrelation.

Import TypedArray.

(** [sum] after the inner loop over [i]. *)
Definition correlationAt (data : TypedArray.t) (bufferSize lag : Z) : num :=
  fold_left
    (fun sum i => JS.add sum (JS.mul (get data i) (get data (i + lag))))
    (upto (Z.to_nat (bufferSize - lag))) JS.zero.

Definition autocorrelation (data : TypedArray.t) (bufferSize : Z)
    (maxLag : num) : result TypedArray.t :=
  autocorr <- create maxLag ;;
  Ok (fold_left
        (fun autocorr lag => set autocorr lag (correlationAt data bufferSize lag))
        (upto (turns 0 maxLag)) autocorr).

(** The test of the search loop at [lag]. *)
Definition significantPeak (autocorr : TypedArray.t) (threshold maxVal : num)
    (lag : Z) : bool :=
  JS.gt (get autocorr lag) threshold
  && JS.gt (get autocorr lag) (get autocorr (lag - 1))
  && JS.gt (get autocorr lag) (get autocorr (lag + 1))
  && JS.gt (get autocorr lag) maxVal.

(** The search loop from [lag]: it is left ([break]) at the first lag that
    passes the test, so [maxVal] is still [-Infinity] at every test.
    [fuel] bounds the number of turns. *)
Fixpoint findPeak (autocorr : TypedArray.t) (threshold maxLag : num)
    (lag : Z) (fuel : nat) : option Z :=
  match fuel with
  | O => None
  | S fuel' =>
      if JS.lt (JS.ofZ lag) (JS.sub maxLag JS.one) then
        if significantPeak autocorr threshold NInf lag then Some lag
        else findPeak autocorr threshold maxLag (lag + 1) fuel'
      else None
  end.

(** [(maxVal, bestLag)] after the search.  [minLag] is [Math.floor] of a
    quotient: an integer, or [NaN] or [Infinity], for which the loop does
    not start.  From [-Infinity] the source loop never ends; the value
    given here for that start is not a result of the source.  The source
    starts there when [sampleRate / maxFreq] is [-Infinity]: a negative
    rate over a zero bound, or a positive rate over a negative zero or
    over a negative bound so small that the quotient overflows.  The
    statements about the search assume a positive [maxFreq], or a start
    that is an integer. *)
Definition search (autocorr : TypedArray.t) (minLag maxLag : num)
  : num * num :=
  let threshold := JS.mul (Fin (1 # 2)) (get autocorr 0) in
  let found :=
    match minLag with
    | Fin q =>
        findPeak autocorr threshold maxLag (Qfloor q)
                 (S (turns (Qfloor q) (JS.sub maxLag JS.one)))
    | _ => None
    end in
  match found with
  | Some lag =>
      let alpha := get autocorr (lag - 1) in
      let beta := get autocorr lag in
      let gamma := get autocorr (lag + 1) in
      let peakOffset :=
        JS.div (JS.sub alpha gamma)
               (JS.mul (JS.ofZ 2)
                       (JS.add (JS.sub alpha (JS.mul (JS.ofZ 2) beta))
                               gamma)) in
      (beta, JS.add (JS.ofZ lag) peakOffset)
  | None => (NInf, JS.ofZ (-1))
  end.

Definition detectPitchAutocorrelation (data : TypedArray.t)
    (sampleRate minFreq maxFreq : num) : result (option Pitch) :=
  let bufferSize := length data in
  let minLag := JS.floor (JS.div sampleRate maxFreq) in
  let maxLag :=
    JS.min (JS.floor (JS.div sampleRate minFreq))
           (JS.div (JS.ofZ bufferSize) (JS.ofZ 2)) in
  autocorr <- autocorrelation data bufferSize maxLag ;;
  let '(maxVal, bestLag) := search autocorr minLag maxLag in
  if JS.le bestLag JS.zero then Ok None
  else
    let frequency := JS.div sampleRate bestLag in
    let confidence := JS.div maxVal (get autocorr 0) in
    Ok (Some {| frequency := frequency; pitchConfidence := confidence |}).

End Autocorrelation.


(** ** Audio buffers *)

(** The platform's AudioBuffer: every channel holds [ab_length] samples and
    there is at least one channel. *)
Record AudioBuffer : Type := {
  ab_sampleRate : num;
  ab_length : Z;
  ab_channels : list TypedArray.t
}.

Definition numberOfChannels (b : AudioBuffer) : Z :=
  Z.of_nat (List.length (ab_channels b)).

Definition getChannelData (b : AudioBuffer) (ch : Z) : TypedArray.t :=
  nth (Z.to_nat ch) (ab_channels b) [].

(** [mixChannels], the same in [BPMDetector] and in [AudioAnalyzer]. *)
Definition mixChannels (audioBuffer : AudioBuffer) : TypedArray.t :=
  let numChannels := numberOfChannels audioBuffer in
  map (fun i =>
         let sum :=
           fold_left
             (fun sum ch =>
                JS.add sum (TypedArray.get (getChannelData audioBuffer ch) i))
             (upto (Z.to_nat numChannels)) JS.zero in
         JS.div sum (JS.ofZ numChannels))
      (upto (Z.to_nat (ab_length audioBuffer))).

(** ** Beat detection *)

Record BPMResult : Type := {
  bpm : option num;
  bpmConfidence : num;
  beatPositions : list num
}.

Module BPMDetector.

Import TypedArray.

Record t : Type := {
  sampleRate : num;
  minBpm : num;
  maxBpm : num
}.

Section WithMath.
Context {M : JS.Math}.

(** [sum] after the inner loop of [calculateEnergyEnvelope].  The loop
    stops at the first [j] with [start + j >= data.length]; as [start + j]
    grows with [j], stopping there and skipping from there on are the
    same. *)
Definition frameEnergy (data : TypedArray.t) (windowSize start : num) : num :=
  fold_left
    (fun sum j =>
       if JS.lt (JS.add start (JS.ofZ j)) (JS.ofZ (length data)) then
         let x := get_num data (JS.add start (JS.ofZ j)) in
         JS.add sum (JS.mul x x)
       else sum)
    (upto (turns 0 windowSize)) JS.zero.

Definition calculateEnergyEnvelope (data : TypedArray.t)
    (numFrames windowSize hopSize : num) : result TypedArray.t :=
  envelope <- create numFrames ;;
  Ok (fold_left
        (fun envelope i =>
           let start := JS.mul (JS.ofZ i) hopSize in
           let sum := frameEnergy data windowSize start in
           set envelope i (JS.sqrt (JS.div sum windowSize)))
        (upto (turns 0 numFrames)) envelope).

Definition differentiate (envelope : TypedArray.t) : TypedArray.t :=
  let diff := repeat JS.zero (List.length envelope) in
  let diff := set diff 0 JS.zero in
  fold_left
    (fun diff i =>
       let d := JS.sub (get envelope i) (get envelope (i - 1)) in
       set diff i (JS.max JS.zero d))
    (map (fun k => (k + 1)%Z) (upto (List.length envelope - 1))) diff.

(** [sum] after the inner loop of [autocorrelate]. *)
Definition autocorrAt (data : TypedArray.t) (lag : Z) : num :=
  fold_left
    (fun sum i => JS.add sum (JS.mul (get data i) (get data (i + lag))))
    (upto (Z.to_nat (length data - lag))) JS.zero.

Definition autocorrelate (data : TypedArray.t) : TypedArray.t :=
  fold_left
    (fun result lag => set result lag (autocorrAt data lag))
    (upto (List.length data)) (repeat JS.zero (List.length data)).

Definition detectBeatPositions (d : t) (diffEnvelope : TypedArray.t)
    (hopSize : num) : list num :=
  let threshold := JS.mul (Fin (3 # 10)) (JS.max_list diffEnvelope) in
  fold_left
    (fun positions i =>
       if JS.gt (get diffEnvelope i) threshold
          && JS.gt (get diffEnvelope i) (get diffEnvelope (i - 1))
          && JS.gt (get diffEnvelope i) (get diffEnvelope (i + 1))
       then positions ++ [JS.div (JS.mul (JS.ofZ i) hopSize) (sampleRate d)]
       else positions)
    (map (fun k => (k + 1)%Z) (upto (List.length diffEnvelope - 2))) [].

(** The local-peak test: no cell within two frames is larger. *)
Definition isPeak (autocorr : TypedArray.t) (lag : Z) : bool :=
  forallb
    (fun i => negb (negb (i =? lag)%Z
                    && JS.gt (get autocorr i) (get autocorr lag)))
    (zrange (Z.max 0 (lag - 2)) (Z.min (length autocorr - 1) (lag + 2))).

(** One turn of the search; the state is [(bestConfidence, bestLag)]. *)
Definition consider (autocorr : TypedArray.t) (st : num * Z) (lag : Z)
  : num * Z :=
  if JS.gt (get autocorr lag) (fst st) then
    if isPeak autocorr lag then (get autocorr lag, lag) else st
  else st.

(** The search over the lag band.  [minLag] is [Math.floor] of a product:
    an integer, or [NaN] or [Infinity], for which the loop does not start.
    From [-Infinity] the source loop never ends; the value given here for
    that start is not a result of the source.  The source starts there
    when [(60 / maxBpm) * (sampleRate / hopSize)] is [-Infinity]: a
    negative zero as [maxBpm], or a negative [maxBpm] so small that the
    product overflows.  The statements that say that [detect] returns
    assume a positive [maxBpm]. *)
Definition findBestLag (autocorr : TypedArray.t) (minLag maxLag : num)
  : num * Z :=
  match minLag with
  | Fin q =>
      for_loop
        (fun lag => JS.le (JS.ofZ lag) maxLag && (lag <? length autocorr)%Z)
        (consider autocorr)
        (Qfloor q) (Z.to_nat (length autocorr - Qfloor q))
        (JS.zero, 0%Z)
  | _ => (JS.zero, 0%Z)
  end.

Definition hopSizeOf (d : t) : num :=
  JS.floor (JS.mul (sampleRate d) (Fin (1 # 100))).

Definition windowSizeOf (d : t) : num :=
  JS.floor (JS.mul (sampleRate d) (Fin (4 # 100))).

Definition channelDataOf (audioBuffer : AudioBuffer) : TypedArray.t :=
  if (numberOfChannels audioBuffer >? 1)%Z
  then mixChannels audioBuffer
  else getChannelData audioBuffer 0.

(** The onset autocorrelation [detect] searches. *)
Definition onsetAutocorr (d : t) (audioBuffer : AudioBuffer)
  : result (TypedArray.t * TypedArray.t) :=
  let channelData := channelDataOf audioBuffer in
  let hopSize := hopSizeOf d in
  let windowSize := windowSizeOf d in
  let numFrames :=
    JS.floor (JS.div (JS.sub (JS.ofZ (length channelData)) windowSize)
                     hopSize) in
  energyEnvelope <-
    calculateEnergyEnvelope channelData numFrames windowSize hopSize ;;
  let diffEnvelope := differentiate energyEnvelope in
  Ok (diffEnvelope, autocorrelate diffEnvelope).

Definition minLagOf (d : t) : num :=
  JS.floor (JS.mul (JS.div (JS.ofZ 60) (maxBpm d))
                   (JS.div (sampleRate d) (hopSizeOf d))).

Definition maxLagOf (d : t) : num :=
  JS.ceil (JS.mul (JS.div (JS.ofZ 60) (minBpm d))
                  (JS.div (sampleRate d) (hopSizeOf d))).

Definition detect (d : t) (audioBuffer : AudioBuffer) : result BPMResult :=
  oa <- onsetAutocorr d audioBuffer ;;
  let '(diffEnvelope, autocorr) := oa in
  let hopSize := hopSizeOf d in
  let '(bestConfidence, bestLag) :=
    findBestLag autocorr (minLagOf d) (maxLagOf d) in
  let bestBpm :=
    if (bestLag >? 0)%Z then
      let secondsPerBeat :=
        JS.div (JS.mul (JS.ofZ bestLag) hopSize) (sampleRate d) in
      Some (JS.round (JS.div (JS.ofZ 60) secondsPerBeat))
    else None in
  let beatPositions :=
    if (bestLag >? 0)%Z then detectBeatPositions d diffEnvelope hopSize
    else [] in
  Ok {| bpm := bestBpm;
        bpmConfidence :=
          JS.min (JS.div bestConfidence (JS.or (get autocorr 0) JS.one))
                 JS.one;
        beatPositions := beatPositions |}.

End WithMath.

End BPMDetector.


(** ** The analyzer *)

(** The part of the platform the analyzer configures: an AnalyserNode
    checks the values assigned to it and throws an IndexSizeError on the
    ones it refuses. Which values those are is the platform's business. *)
Class Platform : Type := {
  acceptsFftSize : num -> bool;
  acceptsSmoothing : num -> bool
}.

Record AnalyserNode : Type := {
  an_fftSize : num;
  an_smoothingTimeConstant : num
}.

Record AdvancedAnalysisResult : Type := {
  adv_bpm : option num;
  adv_bpmConfidence : num;
  adv_chord : option ChordInfo;
  adv_pitchConfidence : num;
  adv_chromagram : TypedArray.t;
  adv_beatPositions : list num
}.

Module AudioAnalyzer.

(** [AnalysisOptions]: every field is optional. *)
Record AnalysisOptions : Type := {
  o_fftSize : option num;
  o_smoothingTimeConstant : option num;
  o_minFrequency : option num;
  o_maxFrequency : option num;
  o_yinThreshold : option num;
  o_enableAdvanced : option bool;
  o_minBpm : option num;
  o_maxBpm : option num
}.

(** [Required<AnalysisOptions>] *)
Record Options : Type := {
  fftSize : num;
  smoothingTimeConstant : num;
  minFrequency : num;
  maxFrequency : num;
  yinThreshold : num;
  enableAdvanced : bool;
  minBpm : num;
  maxBpm : num
}.

(** [x ?? d] *)
Definition orDefault {A : Type} (x : option A) (d : A) : A :=
  match x with Some v => v | None => d end.

(** The fields of the analyzer object; [ctxSampleRate] is
    [audioContext.sampleRate]. *)
Record t : Type := {
  ctxSampleRate : num;
  analyser : AnalyserNode;
  options : Options;
  yinDetector : YINDetector.t
}.

Definition newYIN (sampleRate : num) (o : Options) : YINDetector.t :=
  {| YINDetector.sampleRate := sampleRate;
     YINDetector.threshold := yinThreshold o;
     YINDetector.minFrequency := minFrequency o;
     YINDetector.maxFrequency := maxFrequency o |}.

Section WithPlatform.
Context {P : Platform}.

(** [audioContext.createAnalyser()] *)
Definition createAnalyser : AnalyserNode :=
  {| an_fftSize := JS.ofZ 2048; an_smoothingTimeConstant := Fin (8 # 10) |}.

(** [analyser.fftSize = v] and [analyser.smoothingTimeConstant = v] *)
Definition setFftSize (n : AnalyserNode) (v : num) : result AnalyserNode :=
  if acceptsFftSize v
  then Ok {| an_fftSize := v;
             an_smoothingTimeConstant := an_smoothingTimeConstant n |}
  else Throw IndexSizeError.

Definition setSmoothing (n : AnalyserNode) (v : num) : result AnalyserNode :=
  if acceptsSmoothing v
  then Ok {| an_fftSize := an_fftSize n; an_smoothingTimeConstant := v |}
  else Throw IndexSizeError.

Definition constructor (sampleRate : num) (o : AnalysisOptions) : result t :=
  let opts :=
    {| fftSize := orDefault (o_fftSize o) (JS.ofZ 2048);
       smoothingTimeConstant :=
         orDefault (o_smoothingTimeConstant o) (Fin (8 # 10));
       minFrequency := orDefault (o_minFrequency o) (JS.ofZ 50);
       maxFrequency := orDefault (o_maxFrequency o) (JS.ofZ 5000);
       yinThreshold := orDefault (o_yinThreshold o) (Fin (1 # 10));
       enableAdvanced := orDefault (o_enableAdvanced o) false;
       minBpm := orDefault (o_minBpm o) (JS.ofZ 60);
       maxBpm := orDefault (o_maxBpm o) (JS.ofZ 180) |} in
  n <- setFftSize createAnalyser (fftSize opts) ;;
  n <- setSmoothing n (smoothingTimeConstant opts) ;;
  Ok {| ctxSampleRate := sampleRate;
        analyser := n;
        options := opts;
        yinDetector := newYIN sampleRate opts |}.

(** [setOptions] mutates the analyzer field by field; when the analyser
    node throws, the fields assigned before stay assigned.  The result is
    the analyzer after the call and the exception, if any. *)
Definition withOptions (a : t) (o : Options) : t :=
  {| ctxSampleRate := ctxSampleRate a; analyser := analyser a;
     options := o; yinDetector := yinDetector a |}.

Definition withAnalyser (a : t) (n : AnalyserNode) : t :=
  {| ctxSampleRate := ctxSampleRate a; analyser := n;
     options := options a; yinDetector := yinDetector a |}.

Definition rebuildYIN (a : t) : t :=
  {| ctxSampleRate := ctxSampleRate a; analyser := analyser a;
     options := options a;
     yinDetector := newYIN (ctxSampleRate a) (options a) |}.

Definition setField (o : Options)
    (fft smooth minF maxF thr : num) (adv : bool) (minB maxB : num)
  : Options :=
  {| fftSize := fft; smoothingTimeConstant := smooth; minFrequency := minF;
     maxFrequency := maxF; yinThreshold := thr; enableAdvanced := adv;
     minBpm := minB; maxBpm := maxB |}.

(** The statements of [setOptions] after the two analyser assignments:
    none of them can throw. *)
Definition setDetectionOptions (a : t) (o : AnalysisOptions) : t :=
  let a :=
    match o_minFrequency o with
    | Some v =>
        let p := options a in
        rebuildYIN
          (withOptions a
             (setField p (fftSize p) (smoothingTimeConstant p) v
                (maxFrequency p) (yinThreshold p) (enableAdvanced p)
                (minBpm p) (maxBpm p)))
    | None => a
    end in
  let a :=
    match o_maxFrequency o with
    | Some v =>
        let p := options a in
        rebuildYIN
          (withOptions a
             (setField p (fftSize p) (smoothingTimeConstant p)
                (minFrequency p) v (yinThreshold p) (enableAdvanced p)
                (minBpm p) (maxBpm p)))
    | None => a
    end in
  let a :=
    match o_yinThreshold o with
    | Some v =>
        let p := options a in
        rebuildYIN
          (withOptions a
             (setField p (fftSize p) (smoothingTimeConstant p)
                (minFrequency p) (maxFrequency p) v (enableAdvanced p)
                (minBpm p) (maxBpm p)))
    | None => a
    end in
  let a :=
    match o_enableAdvanced o with
    | Some v =>
        let p := options a in
        withOptions a
          (setField p (fftSize p) (smoothingTimeConstant p)
             (minFrequency p) (maxFrequency p) (yinThreshold p) v
             (minBpm p) (maxBpm p))
    | None => a
    end in
  let a :=
    match o_minBpm o with
    | Some v =>
        let p := options a in
        withOptions a
          (setField p (fftSize p) (smoothingTimeConstant p)
             (minFrequency p) (maxFrequency p) (yinThreshold p)
             (enableAdvanced p) v (maxBpm p))
    | None => a
    end in
  match o_maxBpm o with
  | Some v =>
      let p := options a in
      withOptions a
        (setField p (fftSize p) (smoothingTimeConstant p)
           (minFrequency p) (maxFrequency p) (yinThreshold p)
           (enableAdvanced p) (minBpm p) v)
  | None => a
  end.

Definition setOptions (a : t) (o : AnalysisOptions) : t * option error :=
  let step1 : t * option error :=
    match o_fftSize o with
    | Some v =>
        let p := options a in
        let a :=
          withOptions a
            (setField p v (smoothingTimeConstant p) (minFrequency p)
               (maxFrequency p) (yinThreshold p) (enableAdvanced p)
               (minBpm p) (maxBpm p)) in
        match setFftSize (analyser a) v with
        | Ok n => (withAnalyser a n, None)
        | Throw e => (a, Some e)
        end
    | None => (a, None)
    end in
  match step1 with
  | (a, Some e) => (a, Some e)
  | (a, None) =>
      let step2 : t * option error :=
        match o_smoothingTimeConstant o with
        | Some v =>
            let p := options a in
            let a :=
              withOptions a
                (setField p (fftSize p) v (minFrequency p)
                   (maxFrequency p) (yinThreshold p) (enableAdvanced p)
                   (minBpm p) (maxBpm p)) in
            match setSmoothing (analyser a) v with
            | Ok n => (withAnalyser a n, None)
            | Throw e => (a, Some e)
            end
        | None => (a, None)
        end in
      match step2 with
      | (a, Some e) => (a, Some e)
      | (a, None) => (setDetectionOptions a o, None)
      end
  end.

End WithPlatform.

Section WithMath.
Context {M : JS.Math}.

Definition calculateVolume (data : TypedArray.t) : num :=
  let sum :=
    fold_left
      (fun sum i =>
         JS.add sum (JS.mul (TypedArray.get data i) (TypedArray.get data i)))
      (upto (List.length data)) JS.zero in
  let rms := JS.sqrt (JS.div sum (JS.ofZ (TypedArray.length data))) in
  JS.min (JS.mul rms (JS.sqrt (JS.ofZ 2))) JS.one.

(** [pitchResult?.confidence ?? 0] *)
Definition confidenceOf (pitchResult : option Pitch) : num :=
  match pitchResult with
  | Some p => pitchConfidence p
  | None => JS.zero
  end.

Definition performAdvancedAnalysis (a : t) (audioBuffer : AudioBuffer)
    (frequencyData : list Byte.byte) (pitchResult : option Pitch)
  : result AdvancedAnalysisResult :=
  let bpmDetector :=
    {| BPMDetector.sampleRate := ab_sampleRate audioBuffer;
       BPMDetector.minBpm := minBpm (options a);
       BPMDetector.maxBpm := maxBpm (options a) |} in
  bpmResult <- BPMDetector.detect bpmDetector audioBuffer ;;
  let chromagram :=
    ChordRecognizer.calculateChromagram frequencyData
      (ab_sampleRate audioBuffer) in
  let chord := ChordRecognizer.recognize chromagram in
  Ok {| adv_bpm := bpm bpmResult;
        adv_bpmConfidence := bpmConfidence bpmResult;
        adv_chord := chord;
        adv_pitchConfidence := confidenceOf pitchResult;
        adv_chromagram := chromagram;
        adv_beatPositions := beatPositions bpmResult |}.

(** The advanced part of [analyze]: [waveformData] and [frequencyData] are
    what the analyser node handed over; the pitch result is the one
    [analyze] got from [detectPitchWithConfidence] on the same window. *)
Definition analyzeAdvanced (a : t) (audioBuffer : AudioBuffer)
    (waveformData : TypedArray.t) (frequencyData : list Byte.byte)
  : result AdvancedAnalysisResult :=
  pitchResult <- YINDetector.detect (yinDetector a) waveformData ;;
  performAdvancedAnalysis a audioBuffer frequencyData pitchResult.

(** [detectBPM]: a detector of its own, with the tempo range of the
    options and the sample rate of the buffer. *)
Definition detectBPM (a : t) (audioBuffer : AudioBuffer) : result BPMResult :=
  let detector :=
    {| BPMDetector.sampleRate := ab_sampleRate audioBuffer;
       BPMDetector.minBpm := minBpm (options a);
       BPMDetector.maxBpm := maxBpm (options a) |} in
  BPMDetector.detect detector audioBuffer.

(** [recognizeChord]: the chromagram is built at the sample rate of the
    audio context. *)
Definition recognizeChord (a : t) (frequencyData : list Byte.byte)
  : option ChordInfo :=
  let chromagram :=
    ChordRecognizer.calculateChromagram frequencyData (ctxSampleRate a) in
  ChordRecognizer.recognize chromagram.

Definition detectPitchWithConfidence (a : t) (data : TypedArray.t)
  : result (option Pitch) :=
  YINDetector.detect (yinDetector a) data.

(** The method [detectPitchAutocorrelation]: the free function with the
    frequency range of the options. *)
Definition detectPitchAutocorrelation (a : t) (data : TypedArray.t)
  : result (option Pitch) :=
  Autocorrelation.detectPitchAutocorrelation data (ctxSampleRate a)
    (minFrequency (options a)) (maxFrequency (options a)).

End WithMath.

End AudioAnalyzer.

(** ** Note names

    The frequency side of the two converters is real-valued: a frequency
    is a positive real, [Math.log2] and [Math.pow] are the real logarithm
    and power.  Note indices, octaves and the text are exact. *)

Module NoteMapper.

Open Scope Z_scope.

(** [Math.round] on a real *)
Definition Math_round (x : R) : Z := Int_part (x + / 2).

Definition Math_log2 (x : R) : R := (ln x / ln 2)%R.

(** [`${n}`] for an integer *)
Definition showZ (n : Z) : string := NilZero.string_of_int (Z.to_int n).

Definition frequencyToNote (frequency : R) : string :=
  let A4 := 440%R in
  let semitones := (12 * Math_log2 (frequency / A4))%R in
  let noteIndex := Math_round semitones + 69 in
  let octave := noteIndex / 12 - 1 in
  let noteName := noteName (Z.rem noteIndex 12) in
  String.append noteName (showZ octave).

(** [note.slice(-1)] and [note.slice(0, -1)] *)
Fixpoint sliceLast (s : string) : string :=
  match s with
  | EmptyString => EmptyString
  | String c EmptyString => s
  | String _ rest => sliceLast rest
  end.

Fixpoint sliceInit (s : string) : string :=
  match s with
  | EmptyString => EmptyString
  | String c EmptyString => EmptyString
  | String c rest => String c (sliceInit rest)
  end.

(** [parseInt(s, 10)] of a string of at most one character: its digit, or
    NaN ([None]). *)
Definition parseInt (s : string) : option Z :=
  match s with
  | String c EmptyString =>
      let n := Z.of_nat (nat_of_ascii c) in
      if (48 <=? n) && (n <=? 57) then Some (n - 48) else None
  | _ => None
  end.

(** [names.indexOf(x)], from position [i] on *)
Fixpoint indexOfFrom (names : list string) (x : string) (i : Z) : Z :=
  match names with
  | [] => -1
  | y :: rest => if String.eqb y x then i else indexOfFrom rest x (i + 1)
  end.

Definition indexOf (names : list string) (x : string) : Z :=
  indexOfFrom names x 0.

(** [semitonesFromA4], or the exception *)
Definition semitonesOfNote (note : string) : result Z :=
  let octave := parseInt (sliceLast note) in
  let noteName := sliceInit note in
  let noteIndex := indexOf NOTE_NAMES noteName in
  match octave with
  | None => Throw (InvalidNoteFormat note)
  | Some octave =>
      if noteIndex =? -1 then Throw (InvalidNoteFormat note)
      else Ok (noteIndex + (octave - 4) * 12 - 9)
  end.

Definition noteToFrequency (note : string) : result R :=
  let A4 := 440%R in
  semitonesFromA4 <- semitonesOfNote note ;;
  Ok (A4 * Rpower 2 (IZR semitonesFromA4 / 12))%R.

End NoteMapper.

(** ** The sound garden (GardenGenerator.ts)

    The two functions of the garden generator that read what the analysis
    returns: the features of a stretch of the waveform, and the name of a
    frequency. *)

Module GardenGenerator.

Import NoteMapper.

(** The local array [notes] of [frequencyToNote]. *)
Definition notes : list string :=
  ["C"; "C#"; "D"; "D#"; "E"; "F"; "F#"; "G"; "G#"; "A"; "A#"; "B"].

(** [frequencyToNote]: [None] is [null]. *)
Definition frequencyToNote (frequency : R) : option string :=
  let A4 := 440%R in
  let semitones := (12 * Math_log2 (frequency / A4))%R in
  let noteIndex := (Math_round semitones + 69)%Z in
  let octave := (noteIndex / 12 - 1)%Z in
  let noteName :=
    if (Z.rem noteIndex 12 <? 0)%Z then "undefined"
    else nth (Z.to_nat (Z.rem noteIndex 12)) notes "undefined" in
  if ((octave <? 0) || (octave >? 8))%Z then None
  else Some (String.append noteName (showZ octave)).

Record SegmentFeatures : Type := {
  sf_frequency : num;
  sf_volume : num
}.

(** The test of the zero-crossing loop at [i]. *)
Definition crossing (segment : TypedArray.t) (i : Z) : bool :=
  (JS.gt (TypedArray.get segment i) JS.zero
   && JS.le (TypedArray.get segment (i - 1)) JS.zero)
  || (JS.le (TypedArray.get segment i) JS.zero
      && JS.gt (TypedArray.get segment (i - 1)) JS.zero).

Section WithMath.
Context {M : JS.Math}.

Definition analyzeSegment (segment : TypedArray.t) : SegmentFeatures :=
  let sum :=
    fold_left
      (fun sum i =>
         JS.add sum (JS.mul (TypedArray.get segment i)
                            (TypedArray.get segment i)))
      (upto (List.length segment)) JS.zero in
  let volume :=
    JS.sqrt (JS.div sum (JS.ofZ (TypedArray.length segment))) in
  let zeroCrossings :=
    fold_left
      (fun zeroCrossings i =>
         if crossing segment i then (zeroCrossings + 1)%Z else zeroCrossings)
      (map (fun k => (k + 1)%Z) (upto (List.length segment - 1))) 0%Z in
  let sampleRate := JS.ofZ 44100 in
  let frequency :=
    JS.div (JS.mul (JS.ofZ zeroCrossings) sampleRate)
           (JS.mul (JS.ofZ 2) (JS.ofZ (TypedArray.length segment))) in
  {| sf_frequency := JS.max (JS.ofZ 50) (JS.min (JS.ofZ 5000) frequency);
     sf_volume := JS.min (JS.mul volume (JS.sqrt (JS.ofZ 2))) JS.one |}.

End WithMath.

End GardenGenerator.


(** ** Sample inputs *)

Module Samples.

(** The silent chromagram. *)
Definition silence : TypedArray.t := repeat JS.zero 12.

(** A C major triad at full strength. *)
Definition cTriad : TypedArray.t :=
  map JS.ofZ [1; 0; 0; 0; 1; 0; 0; 1; 0; 0; 0; 0]%Z.

(** The same triad with twice the energy, as an array that was not
    normalised would hold it. *)
Definition loudTriad : TypedArray.t :=
  map JS.ofZ [2; 0; 0; 0; 2; 0; 0; 2; 0; 0; 0; 0]%Z.

(** Negative energy in every pitch class. *)
Definition inverted : TypedArray.t := repeat (JS.ofZ (-1)) 12.

Definition cMajor (confidence : num) : ChordInfo :=
  {| root := "C"; type := major; name := "C";
     notes := ["C"; "E"; "G"]; confidence := confidence |}.

(** A [Math] object in fixed-point arithmetic, to run the analysis on
    concrete buffers: square roots to six decimals, binary logarithms to
    1/64. *)
Definition fixedSqrt (a : num) : num :=
  match a with
  | Fin x =>
      if JS.Qltb x 0 then NaN
      else Fin (Qred (Z.sqrt (Qfloor (x * 1000000000000)) # 1000000))
  | PInf => PInf
  | _ => NaN
  end.

Definition fixedLog2 (a : num) : num :=
  match a with
  | Fin x =>
      if JS.Qltb 0 x
      then Fin (Qred ((Z.log2 (Qfloor (x ^ 64 * inject_Z (2 ^ 1024))) - 1024)
                      # 64))
      else if JS.Qltb x 0 then NaN else NInf
  | PInf => PInf
  | _ => NaN
  end.

Definition fixedPoint : JS.Math :=
  {| JS.sqrt := fixedSqrt; JS.log2 := fixedLog2 |}.

(** A mono buffer. *)
Definition mono (sampleRate : Z) (samples : TypedArray.t) : AudioBuffer :=
  {| ab_sampleRate := JS.ofZ sampleRate;
     ab_length := TypedArray.length samples;
     ab_channels := [samples] |}.

(** 1000 silent samples at 44100 Hz: 22.7 ms, less than the 40 ms
    analysis window of 1764 samples. *)
Definition shortClip : AudioBuffer := mono 44100 (repeat JS.zero 1000).

(** 2000 silent samples at 44100 Hz. *)
Definition silentClip : AudioBuffer := mono 44100 (repeat JS.zero 2000).

Definition bpmDefault (sampleRate : Z) : BPMDetector.t :=
  {| BPMDetector.sampleRate := JS.ofZ sampleRate;
     BPMDetector.minBpm := JS.ofZ 60;
     BPMDetector.maxBpm := JS.ofZ 180 |}.

Definition yinDefault (sampleRate : Z) : YINDetector.t :=
  {| YINDetector.sampleRate := JS.ofZ sampleRate;
     YINDetector.threshold := Fin (1 # 10);
     YINDetector.minFrequency := JS.ofZ 50;
     YINDetector.maxFrequency := JS.ofZ 5000 |}.

(** A square wave of period 4, 16 samples, for a detector at 12 kHz, and
    its normalised difference. *)
Definition square : TypedArray.t :=
  map JS.ofZ [0; 1; 0; -1; 0; 1; 0; -1; 0; 1; 0; -1; 0; 1; 0; -1]%Z.

Definition squareCmndf : TypedArray.t :=
  [Fin 1; Fin 1; Fin (4 # 3); Fin (3 # 4); Fin 0; Fin 1; Fin (12 # 7);
   Fin (7 # 8)].

(** Three seconds of a click every half second (120 BPM), sampled at
    100 Hz. *)
Definition clickTrack : AudioBuffer :=
  mono 100 (List.concat (repeat (JS.one :: repeat JS.zero 49) 6)).

(** Its onset curve with the autocorrelation, and what [detect] returns
    for it, with the fixed-point [Math]. *)
Definition clickOnset : TypedArray.t * TypedArray.t :=
  Eval vm_compute in
    match @BPMDetector.onsetAutocorr fixedPoint (bpmDefault 100) clickTrack
    with
    | Ok p => p
    | Throw _ => ([], [])
    end.

Definition clickResult : BPMResult :=
  {| bpm := Some (Fin 120);
     bpmConfidence := Fin (4 # 5);
     beatPositions :=
       [Fin (47 # 100); Fin (97 # 100); Fin (147 # 100); Fin (197 # 100);
        Fin (247 # 100)] |}.

(** 50 ms of a slow ramp from 0 to 1 at 16000 Hz, and its last 32
    samples: the window an analyser node of FFT size 32 holds when
    [analyze] samples it. *)
Definition ramp : TypedArray.t :=
  map (fun j => Fin (Qred (inject_Z j / 800))) (upto 800).

Definition rampClip : AudioBuffer := mono 16000 ramp.

Definition rampWindow : TypedArray.t := skipn 768 ramp.

(** Options that ask for an FFT size of 32, a YIN threshold of 5 and the
    advanced analysis. *)
Definition thresholdFive : AudioAnalyzer.AnalysisOptions :=
  {| AudioAnalyzer.o_fftSize := Some (JS.ofZ 32);
     AudioAnalyzer.o_smoothingTimeConstant := None;
     AudioAnalyzer.o_minFrequency := None;
     AudioAnalyzer.o_maxFrequency := None;
     AudioAnalyzer.o_yinThreshold := Some (JS.ofZ 5);
     AudioAnalyzer.o_enableAdvanced := Some true;
     AudioAnalyzer.o_minBpm := None;
     AudioAnalyzer.o_maxBpm := None |}.

(** The analyzer the default options configure at 16000 Hz. *)
Definition defaultAnalyzer : AudioAnalyzer.t :=
  let o :=
    {| AudioAnalyzer.fftSize := JS.ofZ 2048;
       AudioAnalyzer.smoothingTimeConstant := Fin (8 # 10);
       AudioAnalyzer.minFrequency := JS.ofZ 50;
       AudioAnalyzer.maxFrequency := JS.ofZ 5000;
       AudioAnalyzer.yinThreshold := Fin (1 # 10);
       AudioAnalyzer.enableAdvanced := false;
       AudioAnalyzer.minBpm := JS.ofZ 60;
       AudioAnalyzer.maxBpm := JS.ofZ 180 |} in
  {| AudioAnalyzer.ctxSampleRate := JS.ofZ 16000;
     AudioAnalyzer.analyser :=
       {| an_fftSize := JS.ofZ 2048;
          an_smoothingTimeConstant := Fin (8 # 10) |};
     AudioAnalyzer.options := o;
     AudioAnalyzer.yinDetector := AudioAnalyzer.newYIN (JS.ofZ 16000) o |}.

(** Spectrum bytes in 16 bins, and the advanced result for the ramp with
    the default analyzer. *)
Definition spectrum16 : list Byte.byte :=
  [Byte.x00; Byte.x10; Byte.x80; Byte.x20; Byte.xff; Byte.x40; Byte.x08;
   Byte.x00; Byte.xc0; Byte.x00; Byte.x04; Byte.x00; Byte.x02; Byte.x00;
   Byte.x01; Byte.x00].

Definition rampAdvanced : AdvancedAnalysisResult :=
  Eval vm_compute in
    match @AudioAnalyzer.analyzeAdvanced fixedPoint defaultAnalyzer rampClip
            rampWindow spectrum16 with
    | Ok adv => adv
    | Throw _ =>
        {| adv_bpm := None; adv_bpmConfidence := NaN; adv_chord := None;
           adv_pitchConfidence := NaN; adv_chromagram := [];
           adv_beatPositions := [] |}
    end.

(** The checks of the Web Audio API's AnalyserNode: [fftSize] must be a
    power of two from 32 to 32768, [smoothingTimeConstant] must lie in
    [0, 1]. *)
Definition webAudio : Platform :=
  {| acceptsFftSize := fun v =>
       existsb (fun k => JS.eq v (JS.ofZ (2 ^ k)))
               [5; 6; 7; 8; 9; 10; 11; 12; 13; 14; 15]%Z;
     acceptsSmoothing := fun v => JS.le JS.zero v && JS.le v JS.one |}.

(** Options with every bound upside down and a threshold of 5. *)
Definition upsideDown : AudioAnalyzer.AnalysisOptions :=
  {| AudioAnalyzer.o_fftSize := None;
     AudioAnalyzer.o_smoothingTimeConstant := None;
     AudioAnalyzer.o_minFrequency := Some (JS.ofZ 5000);
     AudioAnalyzer.o_maxFrequency := Some (JS.ofZ 50);
     AudioAnalyzer.o_yinThreshold := Some (JS.ofZ 5);
     AudioAnalyzer.o_enableAdvanced := None;
     AudioAnalyzer.o_minBpm := Some (JS.ofZ 180);
     AudioAnalyzer.o_maxBpm := Some (JS.ofZ 60) |}.

Definition noOptions : AudioAnalyzer.AnalysisOptions :=
  {| AudioAnalyzer.o_fftSize := None;
     AudioAnalyzer.o_smoothingTimeConstant := None;
     AudioAnalyzer.o_minFrequency := None;
     AudioAnalyzer.o_maxFrequency := None;
     AudioAnalyzer.o_yinThreshold := None;
     AudioAnalyzer.o_enableAdvanced := None;
     AudioAnalyzer.o_minBpm := None;
     AudioAnalyzer.o_maxBpm := None |}.

(** The analyzer the upside-down options configure. *)
Definition upsideDownAnalyzer : AudioAnalyzer.t :=
  let o :=
    {| AudioAnalyzer.fftSize := JS.ofZ 2048;
       AudioAnalyzer.smoothingTimeConstant := Fin (8 # 10);
       AudioAnalyzer.minFrequency := JS.ofZ 5000;
       AudioAnalyzer.maxFrequency := JS.ofZ 50;
       AudioAnalyzer.yinThreshold := JS.ofZ 5;
       AudioAnalyzer.enableAdvanced := false;
       AudioAnalyzer.minBpm := JS.ofZ 180;
       AudioAnalyzer.maxBpm := JS.ofZ 60 |} in
  {| AudioAnalyzer.ctxSampleRate := JS.ofZ 44100;
     AudioAnalyzer.analyser :=
       {| an_fftSize := JS.ofZ 2048;
          an_smoothingTimeConstant := Fin (8 # 10) |};
     AudioAnalyzer.options := o;
     AudioAnalyzer.yinDetector := AudioAnalyzer.newYIN (JS.ofZ 44100) o |}.

(** The autocorrelation of the square wave over the lags 0 to 7. *)
Definition squareAutocorr : TypedArray.t :=
  [Fin 8; Fin 0; Fin (-7); Fin 0; Fin 6; Fin 0; Fin (-5); Fin 0].

(** Two samples in two channels. *)
Definition stereo : AudioBuffer :=
  {| ab_sampleRate := JS.ofZ 100;
     ab_length := 2;
     ab_channels := [[Fin 1; Fin (1 # 2)]; [Fin (-1 # 2); Fin (1 # 2)]] |}.

End Samples.

(** ** Vocabulary of the statements *)

(** A number that is not negative: a finite value from zero up, Infinity,
    or NaN (which no comparison tells from anything). *)
Definition notNegative (x : num) : Prop :=
  match x with
  | Fin q => 0 <= q
  | NInf => False
  | _ => True
  end.

(** Zero or NaN: all a silent buffer gives rise to. *)
Definition zeroOrNaN (x : num) : Prop :=
  match x with
  | Fin q => q == 0
  | NaN => True
  | _ => False
  end.

(** A finite number from zero up. *)
Definition finNonneg (x : num) : Prop :=
  match x with
  | Fin q => 0 <= q
  | _ => False
  end.

(** The lag [lag] lies in the band [detect] searches: between the two lag
    bounds of the configured tempo range, and inside the onset
    autocorrelation. *)
Definition inBand (d : BPMDetector.t) (autocorr : TypedArray.t) (lag : Z)
  : bool :=
  JS.le (BPMDetector.minLagOf d) (JS.ofZ lag)
  && JS.le (JS.ofZ lag) (BPMDetector.maxLagOf d)
  && (lag <? TypedArray.length autocorr)%Z.

(** A cell that holds zero. *)
Definition isZeroCell (x : num) : bool :=
  match x with
  | Fin q => Qeq_bool q 0
  | _ => false
  end.

(** [best] is the lag [detect] is to select: a local peak in the band with
    a positive correlation, which no local peak of the band exceeds and
    no earlier local peak of the band equals. *)
Definition loudestPeak (d : BPMDetector.t) (autocorr : TypedArray.t)
    (best : Z) : Prop :=
  inBand d autocorr best = true /\
  BPMDetector.isPeak autocorr best = true /\
  JS.gt (TypedArray.get autocorr best) JS.zero = true /\
  forall lag,
    inBand d autocorr lag = true ->
    BPMDetector.isPeak autocorr lag = true ->
    JS.gt (TypedArray.get autocorr lag) (TypedArray.get autocorr best) = false
    /\ ((lag < best)%Z ->
        JS.ge (TypedArray.get autocorr lag) (TypedArray.get autocorr best)
        = false).

(** The state of the search after the lags from [z] up to [k]. *)
Definition searchedTo (autocorr : TypedArray.t) (maxLag : num) (z k : Z)
    (st : num * Z) : Prop :=
  JS.le JS.zero (fst st) = true /\
  ((st = (JS.zero, 0%Z)) \/
   ((z <= snd st < k)%Z /\
    JS.le (JS.ofZ (snd st)) maxLag = true /\
    (snd st < TypedArray.length autocorr)%Z /\
    fst st = TypedArray.get autocorr (snd st) /\
    BPMDetector.isPeak autocorr (snd st) = true /\
    JS.gt (fst st) JS.zero = true /\
    forall l, (z <= l < snd st)%Z -> BPMDetector.isPeak autocorr l = true ->
              JS.ge (TypedArray.get autocorr l) (fst st) = false)) /\
  (forall l, (z <= l < k)%Z -> BPMDetector.isPeak autocorr l = true ->
             JS.gt (TypedArray.get autocorr l) (fst st) = false).

(** An array of zeros. *)
Definition allZero (a : TypedArray.t) : Prop :=
  Forall (fun x => x = JS.zero) a.

(** A number in the closed interval from 0 to 1. *)
Definition inUnit (x : num) : Prop :=
  match x with
  | Fin q => 0 <= q <= 1
  | _ => False
  end.

(** A sample in the nominal range of an audio signal, from -1 to 1.  With
    such samples every sum of products the detectors store stays far
    below the largest binary32 number, so that no stored value is an
    infinity the exact arithmetic of the model does not show. *)
Definition nominal (x : num) : Prop :=
  match x with
  | Fin q => -1 <= q <= 1
  | _ => False
  end.

Definition nominalb (x : num) : bool :=
  match x with
  | Fin q => Qle_bool (-1) q && Qle_bool q 1
  | _ => false
  end.

Section ChordVocabulary.

Import ChordRecognizer.

(** The (root, template) pairs in the order the two loops visit them. *)
Definition candidates : list (Z * (string * list Z)) :=
  flat_map (fun root => map (pair root) CHORD_TEMPLATES) (upto 12).

Definition stepPair (c : TypedArray.t) (st : num * option ChordInfo)
    (p : Z * (string * list Z)) : num * option ChordInfo :=
  step c (fst p) st (snd p).

(** What the search has established after a prefix of the candidates. *)
Definition searched (c : TypedArray.t) (seen : list (Z * (string * list Z)))
    (st : num * option ChordInfo) : Prop :=
  (forall p, In p seen ->
     JS.gt (matchTemplate c (fst p) (snd (snd p))) (fst st) = false) /\
  match snd st with
  | None => fst st = NInf
  | Some ch =>
      exists p, In p seen /\
        fst st = matchTemplate c (fst p) (snd (snd p)) /\
        ch = makeChord (fst p) (fst (snd p)) (snd (snd p)) (fst st)
  end.

End ChordVocabulary.

Section PitchVocabulary.

Import YINDetector.

(** The two lag bounds and the normalised difference [detect] works on. *)
Definition pitchMinLag (d : YINDetector.t) : num :=
  JS.floor (JS.div (sampleRate d) (maxFrequency d)).

Definition pitchMaxLag (d : YINDetector.t) (buffer : TypedArray.t) : num :=
  JS.min (JS.floor (JS.div (sampleRate d) (minFrequency d)))
         (JS.div (JS.ofZ (TypedArray.length buffer)) (JS.ofZ 2)).

Definition cmndfOf (d : YINDetector.t) (buffer : TypedArray.t)
  : result TypedArray.t :=
  difference <-
    differenceFunction buffer (TypedArray.length buffer)
                       (pitchMaxLag d buffer) ;;
  cumulativeMeanNormalizedDifference difference (pitchMaxLag d buffer).

(** [tau] lies in the search range [minLag, maxLag). *)
Definition inLagRange (d : YINDetector.t) (buffer : TypedArray.t) (tau : Z)
  : bool :=
  JS.le (pitchMinLag d) (JS.ofZ tau)
  && JS.lt (JS.ofZ tau) (pitchMaxLag d buffer).

(** [cmndf[tau] < threshold] *)
Definition below (d : YINDetector.t) (cmndf : TypedArray.t) (tau : Z) : bool :=
  JS.lt (TypedArray.get cmndf tau) (threshold d).

(** The walk to the local minimum may go on from [tau]. *)
Definition descends (cmndf : TypedArray.t) (maxLag : num) (tau : Z) : bool :=
  JS.lt (JS.ofZ (tau + 1)) maxLag
  && JS.lt (TypedArray.get cmndf (tau + 1)) (TypedArray.get cmndf tau).

(** What [detect] returns once the candidate period [tau] is settled. *)
Definition pitchAt (d : YINDetector.t) (cmndf : TypedArray.t) (tau : Z)
  : option Pitch :=
  let frequency :=
    JS.div (sampleRate d) (parabolicInterpolation cmndf tau) in
  if JS.lt frequency (minFrequency d) || JS.gt frequency (maxFrequency d)
  then None
  else Some {| frequency := frequency;
               pitchConfidence :=
                 JS.sub JS.one (TypedArray.get cmndf tau) |}.

End PitchVocabulary.

Section NoteVocabulary.

Import NoteMapper.
Open Scope Z_scope.

(** The text [frequencyToNote] builds from a note index. *)
Definition nameOfIndex (noteIndex : Z) : string :=
  String.append (noteName (Z.rem noteIndex 12)) (showZ (noteIndex / 12 - 1)).

(** The characters an octave of two or more characters can start with. *)
Definition octaveLead (c : ascii) : bool :=
  Ascii.eqb c "-" ||
  (let n := Z.of_nat (nat_of_ascii c) in (48 <=? n) && (n <=? 57)).

(** The text of a note index reads back as the same index. *)
Definition readsBack (noteIndex : Z) : bool :=
  match semitonesOfNote (nameOfIndex noteIndex) with
  | Ok k => k =? noteIndex - 69
  | Throw _ => false
  end.

End NoteVocabulary.

Section ConfigurationVocabulary.

Import AudioAnalyzer.
Context {P : Platform}.

(** The options an [AnalysisOptions] argument leaves in place of [old]. *)
Definition merged (old : Options) (o : AnalysisOptions) : Options :=
  {| fftSize := orDefault (o_fftSize o) (fftSize old);
     smoothingTimeConstant :=
       orDefault (o_smoothingTimeConstant o) (smoothingTimeConstant old);
     minFrequency := orDefault (o_minFrequency o) (minFrequency old);
     maxFrequency := orDefault (o_maxFrequency o) (maxFrequency old);
     yinThreshold := orDefault (o_yinThreshold o) (yinThreshold old);
     enableAdvanced := orDefault (o_enableAdvanced o) (enableAdvanced old);
     minBpm := orDefault (o_minBpm o) (minBpm old);
     maxBpm := orDefault (o_maxBpm o) (maxBpm old) |}.

Definition defaults : Options :=
  {| fftSize := JS.ofZ 2048; smoothingTimeConstant := Fin (8 # 10);
     minFrequency := JS.ofZ 50; maxFrequency := JS.ofZ 5000;
     yinThreshold := Fin (1 # 10); enableAdvanced := false;
     minBpm := JS.ofZ 60; maxBpm := JS.ofZ 180 |}.

(** What the platform says to the two values handed to the analyser
    node; an absent option is not assigned. *)
Definition platformAccepts (o : AnalysisOptions) : bool :=
  match o_fftSize o with Some v => acceptsFftSize v | None => true end &&
  match o_smoothingTimeConstant o with
  | Some v => acceptsSmoothing v
  | None => true
  end.

Definition touchesDetector (o : AnalysisOptions) : bool :=
  match o_minFrequency o, o_maxFrequency o, o_yinThreshold o with
  | None, None, None => false
  | _, _, _ => true
  end.

End ConfigurationVocabulary.

Section NoteTextVocabulary.
Import NoteMapper.
Open Scope Z_scope.

(** The note index [frequencyToNote] computes. *)
Definition noteIndexOf (frequency : R) : Z :=
  Math_round (12 * Math_log2 (frequency / 440)) + 69.

(** How far, in semitones, a frequency lies from the note its index
    stands for; at 1/2 the index is a matter of the last bit of the
    logarithm. *)
Definition offPitch (frequency : R) : R :=
  (12 * Math_log2 (frequency / 440)
   - IZR (Math_round (12 * Math_log2 (frequency / 440))))%R.

(** The text of pitch class [i] in octave [o]. *)
Definition noteText (i o : Z) : string :=
  String.append (noteName i) (showZ o).

(** The text of pitch class [i] in octave [o] is that of the note index
    [12 (o + 1) + i]. *)
Definition textIsIndexed (p : Z * Z) : bool :=
  String.eqb (noteText (fst p) (snd p))
             (nameOfIndex (12 * (snd p + 1) + fst p)).

Definition pitchesOfOctaves : list (Z * Z) :=
  flat_map (fun i => map (pair i) (zrange 0 9)) (zrange 0 11).

End NoteTextVocabulary.

Section OptionVocabulary.
Import AudioAnalyzer.

(** The YIN detector is the one the current options describe. *)
Definition detectorInStep (a : t) : Prop :=
  yinDetector a = newYIN (ctxSampleRate a) (options a).

(** An [AnalysisOptions] argument with nothing but an FFT size. *)
Definition fftSizeOnly (v : num) : AnalysisOptions :=
  {| o_fftSize := Some v; o_smoothingTimeConstant := None;
     o_minFrequency := None; o_maxFrequency := None; o_yinThreshold := None;
     o_enableAdvanced := None; o_minBpm := None; o_maxBpm := None |}.

End OptionVocabulary.

(** The rational a finite cell holds. *)
Definition valueAt (data : TypedArray.t) (i : Z) : Q :=
  match TypedArray.get data i with
  | Fin q => q
  | _ => 0
  end.

(** The tempo search in the words of the specification. *)










(** [h 0 + h 1 + ... + h (n - 1)] *)
Fixpoint Qsum (h : Z -> Q) (n : nat) : Q :=
  match n with
  | O => 0
  | S k => Qsum h k + h (Z.of_nat k)
  end.

(** The parameters of a call of [detectPitchAutocorrelation], as a
    detector record: the two lag bounds are those of the YIN detector. *)
Definition lagsOf (sampleRate minFreq maxFreq : num) : YINDetector.t :=
  {| YINDetector.sampleRate := sampleRate;
     YINDetector.threshold := JS.zero;
     YINDetector.minFrequency := minFreq;
     YINDetector.maxFrequency := maxFreq |}.

(** The test [detectPitchAutocorrelation] applies to a lag. *)
Definition firstPeakTest (autocorr : TypedArray.t) (lag : Z) : bool :=
  Autocorrelation.significantPeak autocorr
    (JS.mul (Fin (1 # 2)) (TypedArray.get autocorr 0)) NInf lag.

(** Times in strictly ascending order. *)
Definition ascending (times : list num) : Prop :=
  StronglySorted (fun p q => JS.lt p q = true) times.

Section ChordShapeVocabulary.

(** [names] holds no name twice. *)
Fixpoint distinct (names : list string) : bool :=
  match names with
  | [] => true
  | n :: rest => negb (existsb (String.eqb n) rest) && distinct rest
  end.

(** The name [recognize] gives a chord of root [root] and quality [t]. *)
Definition chordName (root : string) (t : ChordType) : string :=
  String.append root
    (match t with major => "" | _ => ChordType_label t end).

(** A chord of three distinct notes of the twelve, the first its root,
    of a known quality and named after root and quality. *)
Definition wellFormed (ch : ChordInfo) : bool :=
  (List.length (notes ch) =? 3)%nat
  && String.eqb (hd "" (notes ch)) (root ch)
  && forallb (fun n => existsb (String.eqb n) NOTE_NAMES) (notes ch)
  && distinct (notes ch)
  && negb (String.eqb (ChordType_label (type ch)) "unknown")
  && String.eqb (name ch) (chordName (root ch) (type ch)).

End ChordShapeVocabulary.

(** [runningSum] after the turns for the lags [1 .. n] of
    [cumulativeMeanNormalizedDifference]. *)
Definition runningSumAt (difference : TypedArray.t) (n : nat) : num :=
  fold_left (fun s tau => JS.add s (TypedArray.get difference tau))
            (map (fun k => (k + 1)%Z) (upto n)) JS.zero.

(** The cell [cumulativeMeanNormalizedDifference] writes at [tau]. *)
Definition cmndfCell (difference : TypedArray.t) (tau : Z) : num :=
  JS.div (TypedArray.get difference tau)
         (JS.div (runningSumAt difference (Z.to_nat tau)) (JS.ofZ tau)).

(* ====================================================================== *)
(** * Part II: properties                                                  *)
(* ====================================================================== *)

Lemma Ok_inj {A : Type} (a b : A) : Ok a = Ok b -> a = b.
Proof. intros H. now injection H. Qed.

(** A positive number is not below zero. *)
Lemma positive_not_below (x : num) :
  JS.gt x JS.zero = true -> JS.lt x JS.zero = false.
Proof.
  unfold JS.gt, JS.zero. destruct x as [q| | |]; cbn [JS.lt]; try congruence.
  unfold JS.Qltb. intros H. apply negb_true_iff in H.
  apply negb_false_iff. apply Qle_bool_iff.
  destruct (Qlt_le_dec 0 q) as [Hq|Hq]; [apply Qlt_le_weak; exact Hq|].
  apply Qle_bool_iff in Hq. congruence.
Qed.

(** ** Facts about numbers *)

Lemma inject_Z_pos (z : Z) : (0 < z)%Z -> 0 < inject_Z z.
Proof. intros H. rewrite Zlt_Qlt in H. exact H. Qed.

Lemma inject_Z_nonzero (z : Z) :
  (0 < z)%Z -> Qeq_bool (inject_Z z) 0 = false.
Proof.
  intros H. apply inject_Z_pos in H.
  destruct (Qeq_bool (inject_Z z) 0) eqn:E; [|reflexivity].
  apply Qeq_bool_iff in E. lra.
Qed.


Lemma Qltb_true (x y : Q) : JS.Qltb x y = true <-> x < y.
Proof.
  unfold JS.Qltb. rewrite negb_true_iff.
  split; intro H.
  - apply Qnot_le_lt. intro L. apply Qle_bool_iff in L. congruence.
  - destruct (Qle_bool y x) eqn:E; [|reflexivity].
    apply Qle_bool_iff in E. lra.
Qed.

Lemma Qltb_false (x y : Q) : JS.Qltb x y = false <-> y <= x.
Proof.
  unfold JS.Qltb. rewrite negb_false_iff. apply Qle_bool_iff.
Qed.

Lemma Qle_bool_false (x y : Q) : Qle_bool x y = false <-> y < x.
Proof.
  split; intro H.
  - apply Qnot_le_lt. intro L. apply Qle_bool_iff in L. congruence.
  - destruct (Qle_bool x y) eqn:E; [|reflexivity].
    apply Qle_bool_iff in E. lra.
Qed.

Lemma Qeq_bool_false (x y : Q) : Qeq_bool x y = false <-> ~ x == y.
Proof.
  split; intro H.
  - intro E. apply Qeq_bool_iff in E. congruence.
  - destruct (Qeq_bool x y) eqn:E; [|reflexivity].
    apply Qeq_bool_iff in E. contradiction.
Qed.

(** Turn the boolean comparisons of the context and the goal into
    propositions over [Q] and try linear arithmetic. *)
Ltac qprop :=
  repeat match goal with
  | H : JS.Qltb _ _ = true |- _ => apply Qltb_true in H
  | H : JS.Qltb _ _ = false |- _ => apply Qltb_false in H
  | H : Qle_bool _ _ = true |- _ => apply Qle_bool_iff in H
  | H : Qle_bool _ _ = false |- _ => apply Qle_bool_false in H
  | H : Qeq_bool _ _ = true |- _ => apply Qeq_bool_iff in H
  | H : Qeq_bool _ _ = false |- _ => apply Qeq_bool_false in H
  | |- JS.Qltb _ _ = true => apply Qltb_true
  | |- JS.Qltb _ _ = false => apply Qltb_false
  | |- Qle_bool _ _ = true => apply Qle_bool_iff
  | |- Qle_bool _ _ = false => apply Qle_bool_false
  | |- Qeq_bool _ _ = true => apply Qeq_bool_iff
  | |- Qeq_bool _ _ = false => apply Qeq_bool_false
  end;
  rewrite ?Qred_correct in *.

Ltac qsolve := qprop; try lra; try (intro; lra).

(** A value that is not larger than a bound is not larger than anything
    above the bound. *)
Lemma gt_false_above (a b c : num) :
  JS.gt a b = false -> JS.gt c b = true -> JS.gt a c = false.
Proof.
  unfold JS.gt.
  destruct a, b, c; simpl; intros; try congruence; qsolve.
Qed.

Lemma gt_irrefl (a : num) : JS.gt a a = false.
Proof. unfold JS.gt. destruct a; simpl; auto. qsolve. Qed.

Lemma min_one_not_above (a : num) : JS.gt (JS.min a JS.one) JS.one = false.
Proof.
  unfold JS.gt, JS.min, JS.one.
  destruct a; simpl; auto.
  destruct (JS.Qltb 1 q) eqn:E; simpl; qsolve.
Qed.

Lemma add_fin (a b : num) :
  JS.is_fin a = true -> JS.is_fin b = true -> JS.is_fin (JS.add a b) = true.
Proof. destruct a, b; simpl; congruence. Qed.

Lemma mul_fin (a b : num) :
  JS.is_fin a = true -> JS.is_fin b = true -> JS.is_fin (JS.mul a b) = true.
Proof. destruct a, b; simpl; congruence. Qed.

Lemma sub_fin (a b : num) :
  JS.is_fin a = true -> JS.is_fin b = true -> JS.is_fin (JS.sub a b) = true.
Proof. destruct a, b; simpl; congruence. Qed.


(** ** Facts about arrays and loops *)

Lemma upto_length (n : nat) : List.length (upto n) = n.
Proof. unfold upto. now rewrite length_map, length_seq. Qed.

Lemma in_upto (n : nat) (i : Z) :
  In i (upto n) <-> (0 <= i < Z.of_nat n)%Z.
Proof.
  unfold upto. rewrite in_map_iff. split.
  - intros (k & <- & Hk). apply in_seq in Hk. lia.
  - intros H. exists (Z.to_nat i). split; [lia|]. apply in_seq. lia.
Qed.

Lemma upto_S (n : nat) : upto (S n) = upto n ++ [Z.of_nat n].
Proof. unfold upto. rewrite seq_S, map_app. reflexivity. Qed.

Lemma get_in_range (a : TypedArray.t) (i : Z) (P : num -> Prop) :
  Forall P a -> (0 <= i < TypedArray.length a)%Z -> P (TypedArray.get a i).
Proof.
  intros HF Hi. unfold TypedArray.get, TypedArray.length in *.
  destruct (i <? 0)%Z eqn:E; [lia|].
  rewrite Forall_forall in HF. apply HF, nth_In. lia.
Qed.

Lemma get_fin (a : TypedArray.t) (i : Z) :
  Forall (fun x => JS.is_fin x = true) a ->
  (0 <= i < TypedArray.length a)%Z -> JS.is_fin (TypedArray.get a i) = true.
Proof. intros. now apply (get_in_range a i (fun x => JS.is_fin x = true)). Qed.

(** A finite cell holds its value. *)
Lemma get_valueAt (data : TypedArray.t) (i : Z) :
  Forall (fun x => JS.is_fin x = true) data ->
  (0 <= i < TypedArray.length data)%Z ->
  TypedArray.get data i = Fin (valueAt data i).
Proof.
  intros Hfin Hi. pose proof (get_fin data i Hfin Hi) as H.
  unfold valueAt. destruct (TypedArray.get data i); try discriminate.
  reflexivity.
Qed.

(** An invariant of a [fold_left]. *)
Lemma fold_left_inv {A B : Type} (P : A -> Prop) (f : A -> B -> A)
    (l : list B) (a : A) :
  P a -> (forall s x, In x l -> P s -> P (f s x)) -> P (fold_left f l a).
Proof.
  revert a. induction l as [|x l IH]; simpl; intros a Ha Hf; [exact Ha|].
  apply IH; [apply Hf; auto|]. intros; apply Hf; auto.
Qed.

(** Two nested loops visit the pairs of their product in order. *)
Lemma fold_nested_flat {S A B : Type} (f : A -> S -> B -> S)
    (xs : list A) (ys : list B) (st : S) :
  fold_left (fun st a => fold_left (f a) ys st) xs st =
  fold_left (fun st p => f (fst p) st (snd p))
            (flat_map (fun a => map (pair a) ys) xs) st.
Proof.
  revert st. induction xs as [|a xs IH]; intro st; [reflexivity|].
  cbn [fold_left flat_map]. rewrite fold_left_app, IH. f_equal.
  clear. revert st. induction ys as [|y ys IH]; intro st; simpl; auto.
Qed.

(** ** The chord recognizer *)

Section Chord.

Import ChordRecognizer.

Lemma search_flat (c : TypedArray.t) :
  search c = fold_left (stepPair c) candidates (NInf, None).
Proof.
  unfold search, candidates.
  apply (fold_nested_flat (step c)).
Qed.

Lemma in_candidates (p : Z * (string * list Z)) :
  In p candidates <->
  (0 <= fst p < 12)%Z /\ In (snd p) CHORD_TEMPLATES.
Proof.
  unfold candidates. rewrite in_flat_map. split.
  - intros (r & Hr & Hp). apply in_map_iff in Hp as (e & <- & He).
    apply in_upto in Hr. simpl. split; [lia | exact He].
  - intros [Hr He]. exists (fst p). split; [apply in_upto; lia|].
    apply in_map_iff. exists (snd p). split; [now destruct p | exact He].
Qed.

Lemma searched_step (c : TypedArray.t) seen st p :
  searched c seen st -> searched c (seen ++ [p]) (stepPair c st p).
Proof.
  intros [Hmax Hst]. unfold stepPair, step.
  destruct p as [r [ty iv]]; simpl.
  destruct (JS.gt (matchTemplate c r iv) (fst st)) eqn:E.
  - split; simpl.
    + intros q Hq. apply in_app_or in Hq as [Hq | [<- | []]].
      * eapply gt_false_above; eauto.
      * apply gt_irrefl.
    + exists (r, (ty, iv)). split; [apply in_or_app; right; left; auto|].
      auto.
  - split.
    + intros q Hq. apply in_app_or in Hq as [Hq | [<- | []]]; auto.
    + destruct (snd st); auto.
      destruct Hst as (q & Hq & H1 & H2). exists q.
      split; [apply in_or_app; auto | auto].
Qed.

Lemma searched_fold (c : TypedArray.t) (todo seen : list _) st :
  searched c seen st ->
  searched c (seen ++ todo) (fold_left (stepPair c) todo st).
Proof.
  revert seen st. induction todo as [|p todo IH]; intros seen st H; simpl.
  - now rewrite app_nil_r.
  - replace (seen ++ p :: todo) with ((seen ++ [p]) ++ todo)
      by now rewrite <- app_assoc.
    apply IH, searched_step, H.
Qed.

Lemma searched_all (c : TypedArray.t) : searched c candidates (search c).
Proof.
  rewrite search_flat. apply (searched_fold c candidates []).
  split; simpl; [intros ? []| reflexivity].
Qed.

Lemma matchTemplate_fin (c : TypedArray.t) (root : Z) (iv : list Z) :
  List.length c = 12%nat -> Forall (fun x => JS.is_fin x = true) c ->
  (0 <= root)%Z -> Forall (fun i => (0 <= i)%Z) iv ->
  JS.is_fin (matchTemplate c root iv) = true.
Proof.
  intros Hlen Hfin Hroot Hiv. unfold matchTemplate.
  apply fold_left_inv.
  - apply fold_left_inv; [reflexivity|].
    intros s i Hi Hs. apply add_fin; [exact Hs|].
    apply get_fin; [exact Hfin|]. unfold TypedArray.length. rewrite Hlen.
    rewrite Forall_forall in Hiv. specialize (Hiv _ Hi).
    apply Z.rem_bound_pos; lia.
  - intros s i Hi Hs. apply in_upto in Hi.
    destruct (negb _); [|exact Hs].
    apply sub_fin; [exact Hs|]. apply mul_fin; [|reflexivity].
    apply get_fin; [exact Hfin|]. unfold TypedArray.length. lia.
Qed.

Lemma templates_nonneg (ty : string) (iv : list Z) :
  In (ty, iv) CHORD_TEMPLATES -> Forall (fun i => (0 <= i)%Z) iv.
Proof.
  unfold CHORD_TEMPLATES. simpl.
  intros H.
  repeat (destruct H as [H | H];
          [inversion H; subst; repeat constructor; lia|]).
  destruct H.
Qed.

Lemma stepPair_keeps_chord (c : TypedArray.t) st p :
  snd st <> None -> snd (stepPair c st p) <> None.
Proof.
  unfold stepPair, step. destruct p as [r [ty iv]]; simpl.
  destruct (JS.gt _ _); simpl; [discriminate | auto].
Qed.

Lemma fold_keeps_chord (c : TypedArray.t) todo st :
  snd st <> None -> snd (fold_left (stepPair c) todo st) <> None.
Proof.
  revert st. induction todo as [|p todo IH]; intros st H; simpl; [exact H|].
  apply IH, stepPair_keeps_chord, H.
Qed.

Lemma recognize_some (c : TypedArray.t) (ch : ChordInfo) :
  recognize c = Some ch ->
  exists root ty iv,
    (0 <= root < 12)%Z /\ In (ty, iv) CHORD_TEMPLATES /\
    bestScore c = matchTemplate c root iv /\
    ch = makeChord root ty iv (bestScore c).
Proof.
  unfold recognize, bestScore. intros Hrec.
  destruct (searched_all c) as [_ Hst].
  rewrite Hrec in Hst. destruct Hst as ([r [ty iv]] & Hp & Hscore & Hch).
  apply in_candidates in Hp as [Hroot Hin].
  exists r, ty, iv. auto.
Qed.

Lemma bestScore_is_max (c : TypedArray.t) (root : Z) ty iv :
  (0 <= root < 12)%Z -> In (ty, iv) CHORD_TEMPLATES ->
  JS.gt (matchTemplate c root iv) (bestScore c) = false.
Proof.
  intros Hr Hi. destruct (searched_all c) as [Hmax _].
  assert (Hin : In (root, (ty, iv)) candidates).
  { apply in_candidates. simpl. auto. }
  exact (Hmax (root, (ty, iv)) Hin).
Qed.

Lemma first_candidate :
  exists rest, candidates = (0%Z, ("major", [0; 4; 7]%Z)) :: rest.
Proof. eexists. vm_compute. reflexivity. Qed.

End Chord.

(** C9.  For every 12-element chromagram of finite values, every template
    score is finite and above the initial [-Infinity], so the recognizer
    returns a chord and never null; the silent chromagram yields C major,
    the first template of the first root, with confidence 0. *)
Theorem recognize_never_null (c : TypedArray.t) :
  List.length c = 12%nat ->
  Forall (fun x => JS.is_fin x = true) c ->
  (forall root ty iv,
      (0 <= root < 12)%Z -> In (ty, iv) CHORD_TEMPLATES ->
      JS.is_fin (ChordRecognizer.matchTemplate c root iv) = true /\
      JS.gt (ChordRecognizer.matchTemplate c root iv) NInf = true) /\
  (exists ch, ChordRecognizer.recognize c = Some ch) /\
  ChordRecognizer.recognize Samples.silence = Some (Samples.cMajor JS.zero).
Proof.
  intros Hlen Hfin.
  assert (Hscore : forall root ty iv,
      (0 <= root < 12)%Z -> In (ty, iv) CHORD_TEMPLATES ->
      JS.is_fin (ChordRecognizer.matchTemplate c root iv) = true /\
      JS.gt (ChordRecognizer.matchTemplate c root iv) NInf = true).
  { intros root ty iv Hroot Hin.
    assert (F : JS.is_fin (ChordRecognizer.matchTemplate c root iv) = true).
    { apply matchTemplate_fin; auto; [lia|].
      eapply templates_nonneg; eauto. }
    split; [exact F|].
    destruct (ChordRecognizer.matchTemplate c root iv); try discriminate.
    reflexivity. }
  split; [exact Hscore|]. split; [|vm_compute; reflexivity].
  unfold ChordRecognizer.recognize. rewrite search_flat.
  destruct (snd (fold_left (stepPair c) candidates (NInf, None))) eqn:E;
    [eauto|].
  exfalso. revert E.
  destruct first_candidate as [rest ->].
  cbn [fold_left]. apply fold_keeps_chord.
  unfold stepPair, ChordRecognizer.step. cbn [fst snd].
  assert (H0 : (0 <= 0 < 12)%Z) by lia.
  assert (H1 : In ("major", [0; 4; 7]%Z) CHORD_TEMPLATES) by (left; reflexivity).
  destruct (Hscore 0%Z "major" [0; 4; 7]%Z H0 H1) as [_ ->].
  discriminate.
Qed.

(** The C major triad at full strength is recognized as a chord. *)
Lemma recognize_never_null_witness :
  exists ch, ChordRecognizer.recognize Samples.cTriad = Some ch.
Proof.
  refine (proj1 (proj2 (recognize_never_null Samples.cTriad _ _))).
  - reflexivity.
  - repeat constructor.
Defined.

(** C1, as the code has it.  The confidence of the returned chord is
    [Math.min(score / 3, 1)], where [score] is the best template-match
    score (no candidate scores higher, and some candidate scores exactly
    that): it is capped at 1 and never exceeds it.  There is no lower
    clamp: a best score below zero gives a confidence below zero. *)
Theorem confidence_is_capped_score (c : TypedArray.t) (ch : ChordInfo) :
  ChordRecognizer.recognize c = Some ch ->
  confidence ch =
    JS.min (JS.div (ChordRecognizer.bestScore c) (JS.ofZ 3)) JS.one /\
  JS.gt (confidence ch) JS.one = false /\
  (forall root ty iv,
      (0 <= root < 12)%Z -> In (ty, iv) CHORD_TEMPLATES ->
      JS.gt (ChordRecognizer.matchTemplate c root iv)
            (ChordRecognizer.bestScore c) = false) /\
  (exists root ty iv,
      (0 <= root < 12)%Z /\ In (ty, iv) CHORD_TEMPLATES /\
      ChordRecognizer.bestScore c = ChordRecognizer.matchTemplate c root iv) /\
  (ChordRecognizer.recognize Samples.inverted
     = Some (Samples.cMajor (Fin (-1 # 10))) /\
   JS.lt (Fin (-1 # 10)) JS.zero = true).
Proof.
  intros Hrec.
  destruct (recognize_some c ch Hrec) as (r & ty & iv & Hr & Hin & Hs & ->).
  unfold ChordRecognizer.makeChord. cbn [confidence].
  split; [reflexivity|].
  split; [apply min_one_not_above|].
  split; [intros; eapply bestScore_is_max; eauto|].
  split; [exists r, ty, iv; auto|].
  split; [vm_compute; reflexivity | reflexivity].
Qed.

Lemma confidence_is_capped_score_witness :
  confidence (Samples.cMajor JS.one) =
    JS.min (JS.div (ChordRecognizer.bestScore Samples.cTriad) (JS.ofZ 3))
           JS.one.
Proof.
  refine (proj1 (confidence_is_capped_score Samples.cTriad
                   (Samples.cMajor JS.one) _)).
  vm_compute. reflexivity.
Defined.

(** C1 fails as stated: for a triad with energy 2 in each of its three
    pitch classes the best score is 6 and score/3 is 2, yet the reported
    confidence is 1; and no chromagram at all gives a confidence above 1. *)
Lemma confidence_differs_from_score_over_3 :
  ChordRecognizer.bestScore Samples.loudTriad = Fin 6 /\
  JS.div (Fin 6) (JS.ofZ 3) = Fin 2 /\
  ChordRecognizer.recognize Samples.loudTriad
    = Some (Samples.cMajor (Fin 1)) /\
  (forall c ch, ChordRecognizer.recognize c = Some ch ->
                JS.gt (confidence ch) JS.one = false).
Proof.
  split; [vm_compute; reflexivity|].
  split; [vm_compute; reflexivity|].
  split; [vm_compute; reflexivity|].
  intros c ch Hrec.
  destruct (recognize_some c ch Hrec) as (r & ty & iv & _ & _ & _ & ->).
  unfold ChordRecognizer.makeChord. cbn [confidence].
  apply min_one_not_above.
Qed.

(** ** Note names *)

Section Notes.

Import NoteMapper.
Open Scope Z_scope.

Lemma frequencyToNote_index (frequency : R) :
  frequencyToNote frequency =
  nameOfIndex (Math_round (12 * Math_log2 (frequency / 440)) + 69).
Proof. reflexivity. Qed.

Lemma sliceInit_app (a t : string) :
  t <> EmptyString ->
  sliceInit (String.append a t) = String.append a (sliceInit t).
Proof.
  intros Ht. induction a as [|c a IH]; [reflexivity|].
  cbn [String.append sliceInit]. rewrite IH.
  destruct (String.append a t) eqn:E; [|reflexivity].
  destruct a; [simpl in E; contradiction | discriminate].
Qed.

Lemma digits_nonempty (u : Decimal.uint) :
  u <> Decimal.Nil -> NilEmpty.string_of_uint u <> EmptyString.
Proof. destruct u; simpl; congruence. Qed.

Lemma digits_lead (u : Decimal.uint) (c : ascii) (rest : string) :
  NilEmpty.string_of_uint u = String c rest -> octaveLead c = true.
Proof. destruct u; simpl; intros [= <- _]; reflexivity. Qed.

(** A positive number above 9 prints with at least two digits. *)
Lemma two_digits (p : positive) :
  10 <= Z.pos p ->
  exists c c' rest,
    NilEmpty.string_of_uint (Pos.to_uint p) = String c (String c' rest)
    /\ octaveLead c = true.
Proof.
  intros Hp. pose proof (DecimalPos.Unsigned.of_to p) as Hof.
  destruct (Pos.to_uint p) as [|u|u|u|u|u|u|u|u|u|u] eqn:E;
    [exfalso; exact (DecimalPos.Unsigned.to_uint_nonnil p E)| ..];
    (destruct u eqn:Eu;
     [exfalso; vm_compute in Hof; try discriminate Hof;
      injection Hof as Hof; subst p; vm_compute in Hp; congruence
     | simpl; do 3 eexists; split; [reflexivity | reflexivity] ..]).
Qed.

(** The text of an octave that is not a single digit, without its last
    character, is not empty and starts with a sign or a digit. *)
Lemma octave_init (octave : Z) :
  octave < 0 \/ 10 <= octave ->
  showZ octave <> EmptyString /\
  exists c rest, sliceInit (showZ octave) = String c rest
                 /\ octaveLead c = true.
Proof.
  unfold showZ. intros [Hneg | Hbig].
  - destruct octave as [|p|p]; try lia.
    cbn [Z.to_int NilZero.string_of_int].
    pose proof (DecimalPos.Unsigned.to_uint_nonnil p) as Hnn.
    unfold NilZero.string_of_uint.
    destruct (Pos.to_uint p) eqn:E; [contradiction| ..];
      (split; [discriminate|]);
      (eexists; eexists; split; [cbn; reflexivity | reflexivity]).
  - destruct octave as [|p|p]; try lia.
    cbn [Z.to_int NilZero.string_of_int].
    destruct (two_digits p Hbig) as (c & c' & rest & E & L).
    unfold NilZero.string_of_uint.
    destruct (Pos.to_uint p) eqn:Eu; [discriminate E| ..];
      rewrite E; (split; [discriminate|]);
      (eexists; eexists; split; [cbn [sliceInit]; reflexivity | exact L]).
Qed.

(** No note name continues with a sign or a digit. *)
Lemma lead_cases (c : ascii) :
  octaveLead c = true ->
  In c ["-"; "0"; "1"; "2"; "3"; "4"; "5"; "6"; "7"; "8"; "9"]%char.
Proof.
  destruct c as [[|] [|] [|] [|] [|] [|] [|] [|]]; vm_compute;
    intros H; try discriminate H; intuition.
Qed.

Lemma extended_name_unknown (i : Z) (c : ascii) (rest : string) :
  0 <= i < 12 -> octaveLead c = true ->
  indexOf NOTE_NAMES (String.append (noteName i) (String c rest)) = -1.
Proof.
  intros Hi Hc. apply lead_cases in Hc.
  assert (Hcases : In i [0; 1; 2; 3; 4; 5; 6; 7; 8; 9; 10; 11]).
  { simpl. lia. }
  simpl in Hcases, Hc.
  repeat (destruct Hcases as [<- | Hcases];
          [repeat (destruct Hc as [<- | Hc]; [reflexivity|]); destruct Hc|]).
  destruct Hcases.
Qed.

Lemma note_with_long_octave_throws (i octave : Z) :
  0 <= i < 12 -> octave < 0 \/ 10 <= octave ->
  let note := String.append (noteName i) (showZ octave) in
  semitonesOfNote note = Throw (InvalidNoteFormat note).
Proof.
  intros Hi Ho note. unfold semitonesOfNote.
  destruct (octave_init octave Ho) as (Hne & c & rest & Hinit & Hlead).
  unfold note at 2. rewrite (sliceInit_app _ _ Hne), Hinit.
  rewrite (extended_name_unknown i c rest Hi Hlead).
  destruct (parseInt (sliceLast note)); reflexivity.
Qed.

(** Real-number facts for the frequency side. *)
Lemma ln2_pos : (0 < ln 2)%R.
Proof. rewrite <- ln_1. apply ln_increasing; lra. Qed.

Lemma log2_Rpower (x : R) : Math_log2 (Rpower 2 x) = x.
Proof.
  unfold Math_log2. rewrite ln_Rpower. field.
  pose proof ln2_pos. lra.
Qed.

Lemma Math_round_IZR (k : Z) : Math_round (IZR k) = k.
Proof.
  unfold Math_round. symmetry. apply Int_part_spec. lra.
Qed.

Lemma Rpower_2_nat (n : nat) : Rpower 2 (INR n) = (2 ^ n)%R.
Proof. apply Rpower_pow. lra. Qed.

Lemma Rpower_log2 (x : R) : (0 < x)%R -> Rpower 2 (Math_log2 x) = x.
Proof.
  intros Hx. unfold Rpower, Math_log2.
  replace (ln x / ln 2 * ln 2)%R with (ln x).
  - apply exp_ln, Hx.
  - field. pose proof ln2_pos. lra.
Qed.

Lemma log2_mono (x y : R) :
  (0 < x)%R -> (x <= y)%R -> (Math_log2 x <= Math_log2 y)%R.
Proof.
  intros Hx Hxy. unfold Math_log2. pose proof ln2_pos as L.
  apply Rmult_le_compat_r; [left; apply Rinv_0_lt_compat, L|].
  destruct Hxy as [Hlt | ->]; [left; apply ln_increasing; assumption|].
  right; reflexivity.
Qed.

Lemma Math_round_near (x : R) :
  (x - / 2 < IZR (Math_round x) <= x + / 2)%R.
Proof.
  unfold Math_round. pose proof (base_Int_part (x + / 2)) as [H1 H2]. lra.
Qed.

Lemma Math_round_bounds (x : R) (lo hi : Z) :
  (IZR lo <= x <= IZR hi)%R -> lo <= Math_round x <= hi.
Proof.
  intros [Hlo Hhi]. pose proof (Math_round_near x) as [H1 H2].
  split.
  - assert (H : (IZR lo - 1 < IZR (Math_round x))%R) by lra.
    rewrite <- minus_IZR in H. apply lt_IZR in H. lia.
  - assert (H : (IZR (Math_round x) < IZR hi + 1)%R) by lra.
    rewrite <- plus_IZR in H. apply lt_IZR in H. lia.
Qed.

Lemma zrange_in (lo hi i : Z) : lo <= i <= hi -> In i (zrange lo hi).
Proof.
  intros H. unfold zrange. apply in_map_iff.
  exists (Z.to_nat (i - lo)). split; [lia|]. apply in_seq. lia.
Qed.

Lemma name_reads_back (noteIndex : Z) :
  12 <= noteIndex <= 131 ->
  semitonesOfNote (nameOfIndex noteIndex) = Ok (noteIndex - 69).
Proof.
  intros H.
  assert (Hall : forallb readsBack (zrange 12 131) = true)
    by (vm_compute; reflexivity).
  rewrite forallb_forall in Hall.
  (* each of the 120 indices was checked *)
  specialize (Hall noteIndex (zrange_in 12 131 noteIndex H)).
  unfold readsBack in Hall.
  destruct (semitonesOfNote (nameOfIndex noteIndex)); [|discriminate].
  apply Z.eqb_eq in Hall. now subst.
Qed.

End Notes.

(** C8.  For every frequency from 27.5 Hz to 7040 Hz (A0 to A8, which
    contains the detector's default range of 50 Hz to 5000 Hz),
    [noteToFrequency (frequencyToNote f)] returns a frequency, the one of
    the nearest semitone, and it is within a factor 2^(1/12) of [f]. *)
Theorem note_round_trip_within_semitone (f : R) :
  (27.5 <= f <= 7040)%R ->
  exists f' : R,
    NoteMapper.noteToFrequency (NoteMapper.frequencyToNote f) = Ok f' /\
    f' = (440 * Rpower 2
            (IZR (NoteMapper.Math_round
                    (12 * NoteMapper.Math_log2 (f / 440))) / 12))%R /\
    (f * Rpower 2 (- (1 / 12)) <= f' <= f * Rpower 2 (1 / 12))%R.
Proof.
  intros [Hlo Hhi].
  set (s := (12 * NoteMapper.Math_log2 (f / 440))%R).
  set (k := NoteMapper.Math_round s).
  assert (Hs : (IZR (-48) <= s <= IZR 48)%R).
  { unfold s. split.
    - replace (IZR (-48)) with (12 * NoteMapper.Math_log2 (Rpower 2 (-4)))%R
        by (rewrite log2_Rpower; lra).
      apply Rmult_le_compat_l; [lra|]. apply log2_mono.
      + unfold Rpower. apply exp_pos.
      + replace (-4)%R with (- INR 4)%R by (simpl; lra).
        rewrite Rpower_Ropp, Rpower_2_nat. simpl. lra.
    - replace (IZR 48) with (12 * NoteMapper.Math_log2 (Rpower 2 (INR 4)))%R
        by (rewrite log2_Rpower; simpl; lra).
      apply Rmult_le_compat_l; [lra|]. apply log2_mono; [lra|].
      rewrite Rpower_2_nat. simpl. lra. }
  assert (Hk : (-48 <= k <= 48)%Z) by (apply Math_round_bounds; exact Hs).
  exists (440 * Rpower 2 (IZR k / 12))%R.
  split; [|split; [reflexivity|]].
  - rewrite frequencyToNote_index. fold s. fold k.
    unfold NoteMapper.noteToFrequency.
    rewrite name_reads_back by lia.
    cbn [bind]. repeat f_equal. lia.
  - assert (Hf : f = (440 * Rpower 2 (s / 12))%R).
    { unfold s. replace (12 * NoteMapper.Math_log2 (f / 440) / 12)%R
        with (NoteMapper.Math_log2 (f / 440)) by field.
      rewrite Rpower_log2; [field | lra]. }
    pose proof (Math_round_near s) as [Hk1 Hk2]. fold k in Hk1, Hk2.
    replace (IZR k / 12)%R with (s / 12 + (IZR k - s) / 12)%R by field.
    rewrite Rpower_plus, <- Rmult_assoc, <- Hf.
    assert (Hfpos : (0 < f)%R) by lra.
    split; apply Rmult_le_compat_l; try lra; apply Rle_Rpower; lra.
Qed.

Lemma note_round_trip_within_semitone_witness :
  exists f' : R,
    NoteMapper.noteToFrequency (NoteMapper.frequencyToNote 440) = Ok f' /\
    (440 * Rpower 2 (- (1 / 12)) <= f' <= 440 * Rpower 2 (1 / 12))%R.
Proof.
  destruct (note_round_trip_within_semitone 440) as (f' & H1 & _ & H2);
    [lra|].
  exists f'. split; assumption.
Defined.

(** C10.  [noteToFrequency] reads the octave from the last character
    only.  For every note name followed by an octave that is negative or
    at least 10, the rest of the text is no note name and the call throws
    the invalid-note-format error.  [frequencyToNote] produces such texts:
    "A10" for 28160 Hz, and "C-1" for 440 * 2^(-69/12) Hz (about 8.18 Hz). *)
Theorem noteToFrequency_rejects_long_octave (i octave : Z) :
  (0 <= i < 12)%Z -> (octave < 0 \/ 10 <= octave)%Z ->
  (let note := String.append (noteName i) (NoteMapper.showZ octave) in
   NoteMapper.noteToFrequency note = Throw (InvalidNoteFormat note)) /\
  NoteMapper.frequencyToNote 28160 = "A10" /\
  NoteMapper.noteToFrequency "A10" = Throw (InvalidNoteFormat "A10") /\
  NoteMapper.frequencyToNote (440 * Rpower 2 (-69 / 12)) = "C-1" /\
  NoteMapper.noteToFrequency "C-1" = Throw (InvalidNoteFormat "C-1").
Proof.
  intros Hi Ho. split.
  - intros note. unfold NoteMapper.noteToFrequency.
    unfold note. rewrite (note_with_long_octave_throws i octave Hi Ho).
    reflexivity.
  - split; [|split; [reflexivity | split; [|reflexivity]]].
    + rewrite frequencyToNote_index.
      replace (28160 / 440)%R with (Rpower 2 (INR 6)).
      * rewrite log2_Rpower.
        replace (12 * INR 6)%R with (IZR 72) by (simpl; lra).
        rewrite Math_round_IZR. reflexivity.
      * rewrite Rpower_2_nat. simpl. lra.
    + rewrite frequencyToNote_index.
      replace (440 * Rpower 2 (-69 / 12) / 440)%R
        with (Rpower 2 (-69 / 12)) by (field).
      rewrite log2_Rpower.
      replace (12 * (-69 / 12))%R with (IZR (-69)) by lra.
      rewrite Math_round_IZR. reflexivity.
Qed.

Lemma noteToFrequency_rejects_long_octave_witness :
  NoteMapper.noteToFrequency "G#12" = Throw (InvalidNoteFormat "G#12").
Proof.
  refine (proj1 (noteToFrequency_rejects_long_octave 8 12 _ _)); lia.
Defined.

(** ** Configuration *)

Section Configuration.

Import AudioAnalyzer.
Context {P : Platform}.

Lemma constructor_outcome (sampleRate : num) (o : AnalysisOptions) :
  constructor sampleRate o =
  if acceptsFftSize (fftSize (merged defaults o))
     && acceptsSmoothing (smoothingTimeConstant (merged defaults o))
  then Ok {| ctxSampleRate := sampleRate;
             analyser :=
               {| an_fftSize := fftSize (merged defaults o);
                  an_smoothingTimeConstant :=
                    smoothingTimeConstant (merged defaults o) |};
             options := merged defaults o;
             yinDetector := newYIN sampleRate (merged defaults o) |}
  else Throw IndexSizeError.
Proof.
  unfold constructor, setFftSize, setSmoothing, merged, defaults.
  cbn [fftSize smoothingTimeConstant].
  destruct (acceptsFftSize _); cbn [bind andb]; [|reflexivity].
  cbn [an_fftSize an_smoothingTimeConstant].
  destruct (acceptsSmoothing _); reflexivity.
Qed.

Lemma setOptions_accepted (a : t) (o : AnalysisOptions) :
  platformAccepts o = true ->
  snd (setOptions a o) = None /\
  options (fst (setOptions a o)) = merged (options a) o /\
  yinDetector (fst (setOptions a o)) =
    (if touchesDetector o
     then newYIN (ctxSampleRate a) (merged (options a) o)
     else yinDetector a).
Proof.
  unfold platformAccepts, setOptions, setFftSize, setSmoothing.
  destruct a as [sr an [f s mn mx th ad bmn bmx] y].
  destruct o as [[v1|] [v2|] [v3|] [v4|] [v5|] [v6|] [v7|] [v8|]];
    cbn -[acceptsFftSize acceptsSmoothing];
    intros H;
    repeat match type of H with
    | context [acceptsFftSize ?v] =>
        destruct (acceptsFftSize v); cbn in H; try discriminate H
    | context [acceptsSmoothing ?v] =>
        destruct (acceptsSmoothing v); cbn in H; try discriminate H
    end;
    cbn; auto.
Qed.

Lemma setOptions_rejected (a : t) (o : AnalysisOptions) :
  platformAccepts o = false -> snd (setOptions a o) = Some IndexSizeError.
Proof.
  unfold platformAccepts, setOptions, setFftSize, setSmoothing.
  destruct a as [sr an [f s mn mx th ad bmn bmx] y].
  destruct o as [[v1|] [v2|] v3 v4 v5 v6 v7 v8];
    cbn -[acceptsFftSize acceptsSmoothing setDetectionOptions];
    intros H;
    repeat match type of H with
    | context [acceptsFftSize ?v] =>
        destruct (acceptsFftSize v); cbn in H; try discriminate H
    | context [acceptsSmoothing ?v] =>
        destruct (acceptsSmoothing v); cbn in H; try discriminate H
    end;
    try discriminate H;
    cbn -[setDetectionOptions]; auto.
Qed.

End Configuration.

(** C2, as the code has it.  Neither the constructor nor [setOptions]
    checks a frequency bound, a tempo bound or the YIN threshold: the
    values are stored as given (or defaulted) and the YIN detector is built
    from them.  The only rejection is the platform's own, an
    IndexSizeError of the analyser node for the FFT size or the smoothing
    constant assigned to it. *)
Theorem configuration_is_stored_unchecked (P : Platform)
    (sampleRate : num) (o : AudioAnalyzer.AnalysisOptions) :
  match AudioAnalyzer.constructor sampleRate o with
  | Ok a =>
      AudioAnalyzer.options a = merged defaults o /\
      AudioAnalyzer.yinDetector a =
        AudioAnalyzer.newYIN sampleRate (merged defaults o) /\
      (forall o',
         match AudioAnalyzer.setOptions a o' with
         | (a', None) =>
             platformAccepts o' = true /\
             AudioAnalyzer.options a' = merged (AudioAnalyzer.options a) o' /\
             AudioAnalyzer.yinDetector a' =
               (if touchesDetector o'
                then AudioAnalyzer.newYIN sampleRate
                       (merged (AudioAnalyzer.options a) o')
                else AudioAnalyzer.yinDetector a)
         | (_, Some e) => e = IndexSizeError /\ platformAccepts o' = false
         end)
  | Throw e =>
      e = IndexSizeError /\
      acceptsFftSize (AudioAnalyzer.fftSize (merged defaults o))
      && acceptsSmoothing
           (AudioAnalyzer.smoothingTimeConstant (merged defaults o)) = false
  end.
Proof.
  rewrite constructor_outcome.
  destruct (acceptsFftSize _ && acceptsSmoothing _) eqn:E; [|auto].
  split; [reflexivity|]. split; [reflexivity|].
  intros o'.
  match goal with |- context [AudioAnalyzer.setOptions ?a o'] =>
    set (a0 := a) end.
  destruct (platformAccepts o') eqn:A.
  - destruct (setOptions_accepted a0 o' A) as (H1 & H2 & H3).
    destruct (AudioAnalyzer.setOptions a0 o') as [a' [e|]];
      simpl in H1, H2, H3; [discriminate|]. auto.
  - pose proof (setOptions_rejected a0 o' A) as H1.
    destruct (AudioAnalyzer.setOptions a0 o') as [a' [e|]];
      simpl in H1; [|discriminate]. injection H1 as ->. auto.
Qed.

(** C2 fails as stated: with the checks of the Web Audio API for the
    analyser node, options with minFrequency 5000 above maxFrequency 50,
    minBpm 180 above maxBpm 60 and a YIN threshold of 5 are accepted by the
    constructor, and by [setOptions] on an analyzer built with the
    defaults. *)
Lemma upside_down_options_are_accepted :
  @AudioAnalyzer.constructor Samples.webAudio (JS.ofZ 44100) Samples.upsideDown
    = Ok Samples.upsideDownAnalyzer /\
  (exists a0,
     @AudioAnalyzer.constructor Samples.webAudio (JS.ofZ 44100) Samples.noOptions
       = Ok a0 /\
     @AudioAnalyzer.setOptions Samples.webAudio a0 Samples.upsideDown
       = (Samples.upsideDownAnalyzer, None)) /\
  (let o := AudioAnalyzer.options Samples.upsideDownAnalyzer in
   JS.ge (AudioAnalyzer.minFrequency o) (AudioAnalyzer.maxFrequency o) = true
   /\ JS.ge (AudioAnalyzer.minBpm o) (AudioAnalyzer.maxBpm o) = true
   /\ JS.ge (AudioAnalyzer.yinThreshold o) JS.one = true).
Proof.
  split; [vm_compute; reflexivity|].
  split; [eexists; split; vm_compute; reflexivity|].
  vm_compute. auto.
Qed.

(** ** Typed arrays *)

Section Arrays.

Import TypedArray.

Lemma set_nat_length (a : TypedArray.t) (i : nat) (v : num) :
  List.length (set_nat a i v) = List.length a.
Proof.
  revert i. induction a as [|x a IH]; intros [|i]; simpl; auto.
Qed.

Lemma set_length (a : TypedArray.t) (i : Z) (v : num) :
  length (set a i v) = length a.
Proof.
  unfold set, length. destruct (i <? 0)%Z; [reflexivity|].
  now rewrite set_nat_length.
Qed.

Lemma nth_set_nat_same (a : TypedArray.t) (i : nat) (v : num) :
  (i < List.length a)%nat -> nth i (set_nat a i v) NaN = v.
Proof.
  revert i. induction a as [|x a IH]; intros [|i]; simpl; intros H;
    try lia; auto. apply IH. lia.
Qed.

Lemma nth_set_nat_other (a : TypedArray.t) (i j : nat) (v : num) :
  i <> j -> nth j (set_nat a i v) NaN = nth j a NaN.
Proof.
  revert i j. induction a as [|x a IH]; intros [|i] [|j]; simpl; intros H;
    try congruence; auto.
Qed.

Lemma get_set_same (a : TypedArray.t) (i : Z) (v : num) :
  (0 <= i < length a)%Z -> get (set a i v) i = v.
Proof.
  unfold get, set, length. intros H.
  destruct (i <? 0)%Z eqn:E; [lia|]. apply nth_set_nat_same. lia.
Qed.

Lemma get_set_other (a : TypedArray.t) (i j : Z) (v : num) :
  i <> j -> get (set a i v) j = get a j.
Proof.
  unfold get, set. intros H.
  destruct (j <? 0)%Z eqn:Ej; [reflexivity|].
  destruct (i <? 0)%Z eqn:Ei; [reflexivity|].
  apply nth_set_nat_other. lia.
Qed.

Lemma get_outside (a : TypedArray.t) (i : Z) :
  (i < 0 \/ length a <= i)%Z -> get a i = NaN.
Proof.
  unfold get, length. intros H.
  destruct (i <? 0)%Z eqn:E; [reflexivity|].
  apply nth_overflow. lia.
Qed.

Lemma set_nat_outside (a : TypedArray.t) (i : nat) (v : num) :
  (List.length a <= i)%nat -> set_nat a i v = a.
Proof.
  revert i. induction a as [|x a IH]; intros [|i] H; simpl in *;
    try reflexivity; try lia.
  f_equal. apply IH. lia.
Qed.

Lemma set_outside (a : TypedArray.t) (i : Z) (v : num) :
  (i < 0 \/ length a <= i)%Z -> set a i v = a.
Proof.
  unfold set, length. intros H.
  destruct (i <? 0)%Z eqn:E; [reflexivity|].
  apply set_nat_outside. lia.
Qed.

Lemma get_repeat (v : num) (n : nat) (i : Z) :
  (0 <= i < Z.of_nat n)%Z -> get (repeat v n) i = v.
Proof.
  unfold get. intros H. destruct (i <? 0)%Z eqn:E; [lia|].
  apply nth_repeat_lt. lia.
Qed.

Lemma repeat_length_Z (v : num) (n : nat) : length (repeat v n) = Z.of_nat n.
Proof. unfold length. now rewrite repeat_length. Qed.

(** [new Float32Array(n)] succeeds for a finite [n] above -1 and for NaN,
    and the cells start at zero. *)
Lemma create_ok (n : num) (a : TypedArray.t) :
  create n = Ok a ->
  (n = NaN \/ exists q, n = Fin q) /\
  a = repeat JS.zero (List.length a).
Proof.
  unfold create. destruct n as [q| | |]; try discriminate.
  - destruct (JS.trunc q <? 0)%Z; [discriminate|]. intros [= <-].
    rewrite repeat_length. split; [right; eauto | reflexivity].
  - intros [= <-]. split; [left|]; reflexivity.
Qed.

Lemma create_length (q : Q) (a : TypedArray.t) :
  create (Fin q) = Ok a -> length a = JS.trunc q /\ (0 <= JS.trunc q)%Z.
Proof.
  unfold create, length.
  destruct (JS.trunc q <? 0)%Z eqn:E; [discriminate|]. intros [= <-].
  rewrite repeat_length. lia.
Qed.

Lemma trunc_le_ceiling (q : Q) : (JS.trunc q <= Qceiling q)%Z.
Proof.
  unfold JS.trunc. destruct (JS.Qltb q 0); [lia|].
  pose proof (Qfloor_le q). pose proof (Qle_ceiling q).
  rewrite Zle_Qle. lra.
Qed.

End Arrays.

(** ** The YIN detector: the threshold search *)

Section PitchSearch.

Import YINDetector.

Lemma detect_unfold (d : YINDetector.t) (buffer : TypedArray.t) :
  detect d buffer =
  (cmndf <- cmndfOf d buffer ;;
   let tau :=
     absoluteThreshold d cmndf (pitchMinLag d) (pitchMaxLag d buffer) in
   if (tau =? -1)%Z then Ok None else Ok (pitchAt d cmndf tau)).
Proof.
  unfold detect, cmndfOf, pitchAt, pitchMinLag, pitchMaxLag.
  destruct (differenceFunction _ _ _) as [difference|e]; [|reflexivity].
  cbn [bind].
  destruct (cumulativeMeanNormalizedDifference _ _) as [cmndf|e];
    [|reflexivity].
  cbn [bind].
  destruct (_ =? -1)%Z; [reflexivity|].
  destruct (_ || _); reflexivity.
Qed.

Lemma ofZ_lt (a b : Z) : JS.lt (JS.ofZ a) (JS.ofZ b) = (a <? b)%Z.
Proof.
  unfold JS.ofZ. simpl.
  destruct (a <? b)%Z eqn:E.
  - apply Qltb_true. rewrite <- Zlt_Qlt. lia.
  - apply Qltb_false. rewrite <- Zle_Qle. lia.
Qed.

Lemma ofZ_le (a b : Z) : JS.le (JS.ofZ a) (JS.ofZ b) = (a <=? b)%Z.
Proof.
  unfold JS.ofZ. simpl.
  destruct (a <=? b)%Z eqn:E.
  - apply Qle_bool_iff. rewrite <- Zle_Qle. lia.
  - apply Qle_bool_false. rewrite <- Zlt_Qlt. lia.
Qed.

(** An integer is below a rational exactly when it is below its ceiling. *)
Lemma lt_ceiling (t : Z) (q : Q) :
  JS.lt (JS.ofZ t) (Fin q) = (t <? Qceiling q)%Z.
Proof.
  unfold JS.ofZ. simpl.
  pose proof (Qle_ceiling q) as Hc. pose proof (Qceiling_lt q) as Hl.
  destruct (t <? Qceiling q)%Z eqn:E.
  - apply Qltb_true.
    assert (H : (t <= Qceiling q - 1)%Z) by lia.
    rewrite Zle_Qle in H. lra.
  - apply Qltb_false.
    assert (H : (Qceiling q <= t)%Z) by lia.
    rewrite Zle_Qle in H. lra.
Qed.

(** Going up keeps one below the bound only if one was below it. *)
Lemma lt_bound_down (t t' : Z) (bound : num) :
  (t <= t')%Z -> JS.lt (JS.ofZ t') bound = true ->
  JS.lt (JS.ofZ t) bound = true.
Proof.
  intros Hle. destruct bound as [q| | |]; simpl; auto.
  intros H. apply Qltb_true in H. apply Qltb_true.
  rewrite Zle_Qle in Hle. lra.
Qed.

Lemma turns_enough (from t : Z) (bound : num) :
  (from <= t)%Z -> JS.lt (JS.ofZ t) bound = true ->
  bound <> PInf ->
  (Z.to_nat (t - from) < turns from bound)%nat.
Proof.
  intros Hle Hlt Hb. destruct bound as [q| | |]; try discriminate;
    [|congruence].
  rewrite lt_ceiling in Hlt. unfold turns. lia.
Qed.

(** The inner loop stops at the first lag from which the walk does not go
    on. *)
Lemma descend_stops (cmndf : TypedArray.t) (maxLag : num) (fuel : nat)
    (t0 tau : Z) :
  (t0 <= tau)%Z ->
  (forall t, (t0 <= t < tau)%Z -> descends cmndf maxLag t = true) ->
  descends cmndf maxLag tau = false ->
  (Z.to_nat (tau - t0) <= fuel)%nat ->
  descend cmndf maxLag t0 fuel = tau.
Proof.
  revert t0. induction fuel as [|fuel IH]; intros t0 Hle Hchain Hstop Hfuel.
  - cbn [descend]. lia.
  - cbn [descend]. destruct (Z.eq_dec t0 tau) as [->|Hne].
    + unfold descends in Hstop. rewrite Hstop. reflexivity.
    + assert (Hgo : descends cmndf maxLag t0 = true) by (apply Hchain; lia).
      unfold descends in Hgo. rewrite Hgo.
      apply IH; [lia | | exact Hstop | lia].
      intros t Ht. apply Hchain. lia.
Qed.

(** The outer loop finds the first lag below the threshold and hands it to
    the inner loop. *)
Lemma scan_finds (thr : num) (cmndf : TypedArray.t) (maxLag : num)
    (fuel : nat) (from t0 : Z) :
  (from <= t0)%Z ->
  JS.lt (JS.ofZ t0) maxLag = true ->
  JS.lt (TypedArray.get cmndf t0) thr = true ->
  (forall t, (from <= t < t0)%Z ->
             JS.lt (TypedArray.get cmndf t) thr = false) ->
  (Z.to_nat (t0 - from) < fuel)%nat ->
  scan thr cmndf maxLag from fuel =
  descend cmndf maxLag t0 (fuel - Z.to_nat (t0 - from) - 1).
Proof.
  revert from. induction fuel as [|fuel IH];
    intros from Hle Hin Hbelow Hfirst Hfuel; [lia|].
  cbn [scan].
  rewrite (lt_bound_down from t0 maxLag Hle Hin).
  destruct (Z.eq_dec from t0) as [->|Hne].
  - rewrite Hbelow. f_equal. lia.
  - rewrite (Hfirst from) by lia.
    rewrite (IH (from + 1)%Z); [f_equal; lia | lia | exact Hin
                              | exact Hbelow | | lia].
    intros t Ht. apply Hfirst. lia.
Qed.

Lemma scan_none (thr : num) (cmndf : TypedArray.t) (maxLag : num)
    (fuel : nat) (from : Z) :
  (forall t, (from <= t)%Z -> JS.lt (JS.ofZ t) maxLag = true ->
             JS.lt (TypedArray.get cmndf t) thr = false) ->
  scan thr cmndf maxLag from fuel = (-1)%Z.
Proof.
  revert from. induction fuel as [|fuel IH]; intros from H; [reflexivity|].
  cbn [scan]. destruct (JS.lt (JS.ofZ from) maxLag) eqn:E; [|reflexivity].
  rewrite (H from) by (auto; lia).
  apply IH. intros t Ht. apply H. lia.
Qed.

(** The lower bound of the search is an integer, NaN or Infinity when the
    sample rate is not negative. *)
Lemma pitchMinLag_cases (d : YINDetector.t) (sr : Q) :
  sampleRate d = Fin sr -> 0 <= sr ->
  (exists z, pitchMinLag d = JS.ofZ z) \/
  pitchMinLag d = NaN \/ pitchMinLag d = PInf.
Proof.
  intros Hsr Hpos. unfold pitchMinLag. rewrite Hsr.
  destruct (maxFrequency d) as [y| | |]; simpl.
  - destruct (Qeq_bool y 0).
    + destruct (JS.Qltb 0 sr) eqn:E1; simpl; auto.
      destruct (JS.Qltb sr 0) eqn:E2; simpl; auto. qprop. lra.
    + simpl. eauto.
  - left. exists 0%Z. reflexivity.
  - left. exists 0%Z. reflexivity.
  - auto.
Qed.

Lemma Qfloor_inject (z : Z) : Qfloor (inject_Z z) = z.
Proof. apply Qfloor_Z. Qed.

Lemma cmndfOf_maxLag (d : YINDetector.t) (buffer cmndf : TypedArray.t) :
  cmndfOf d buffer = Ok cmndf ->
  pitchMaxLag d buffer = NaN \/ exists q, pitchMaxLag d buffer = Fin q.
Proof.
  unfold cmndfOf, differenceFunction. intros H.
  destruct (TypedArray.create (pitchMaxLag d buffer)) as [a|e] eqn:E;
    [|discriminate H].
  apply create_ok in E. tauto.
Qed.

Lemma absoluteThreshold_from (d : YINDetector.t) (cmndf : TypedArray.t)
    (z : Z) (maxLag : num) :
  absoluteThreshold d cmndf (JS.ofZ z) maxLag =
  scan (threshold d) cmndf maxLag z (S (turns z maxLag)).
Proof.
  unfold absoluteThreshold, JS.ofZ. now rewrite Qfloor_inject.
Qed.

Lemma below_nonneg (d : YINDetector.t) (cmndf : TypedArray.t) (t : Z) :
  below d cmndf t = true -> (0 <= t)%Z.
Proof.
  unfold below. intros H.
  destruct (Z_lt_le_dec t 0) as [Hneg|]; [|assumption].
  rewrite get_outside in H by auto. discriminate H.
Qed.

End PitchSearch.

(** The threshold search of [detect], case by case. *)
Lemma threshold_search_spec (d : YINDetector.t) (buffer cmndf : TypedArray.t)
    (sr : Q) :
  YINDetector.sampleRate d = Fin sr -> 0 <= sr ->
  cmndfOf d buffer = Ok cmndf ->
  ((forall tau, inLagRange d buffer tau = true -> below d cmndf tau = false)
   -> YINDetector.detect d buffer = Ok None) /\
  (forall t0 tau,
      inLagRange d buffer t0 = true -> below d cmndf t0 = true ->
      (forall t, inLagRange d buffer t = true -> (t < t0)%Z ->
                 below d cmndf t = false) ->
      (t0 <= tau)%Z ->
      (forall t, (t0 <= t < tau)%Z ->
                 descends cmndf (pitchMaxLag d buffer) t = true) ->
      descends cmndf (pitchMaxLag d buffer) tau = false ->
      let refinedTau := YINDetector.parabolicInterpolation cmndf tau in
      let frequency := JS.div (YINDetector.sampleRate d) refinedTau in
      let confidence := JS.sub JS.one (TypedArray.get cmndf tau) in
      YINDetector.detect d buffer =
      Ok (if JS.lt frequency (YINDetector.minFrequency d)
             || JS.gt frequency (YINDetector.maxFrequency d)
          then None
          else Some {| frequency := frequency;
                       pitchConfidence := confidence |})).
Proof.
  intros Hsr Hpos Hc.
  pose proof (cmndfOf_maxLag d buffer cmndf Hc) as Hmax.
  rewrite detect_unfold, Hc. cbn [bind].
  unfold inLagRange.
  destruct (pitchMinLag_cases d sr Hsr Hpos) as [[z Hz] | [Hz | Hz]];
    rewrite Hz.
  2, 3: split; [reflexivity | intros t0 tau H; discriminate H].
  rewrite absoluteThreshold_from.
  split.
  - intros Hnone. rewrite scan_none; [reflexivity|].
    intros t Ht Hlt. apply Hnone. rewrite ofZ_le, Hlt.
    apply andb_true_iff. split; [apply Z.leb_le; exact Ht | reflexivity].
  - intros t0 tau Hin Hb Hfirst Hle Hchain Hstop.
    apply andb_true_iff in Hin as [Hlo Hhi].
    rewrite ofZ_le in Hlo. apply Z.leb_le in Hlo.
    assert (Hnot : pitchMaxLag d buffer <> PInf).
    { destruct Hmax as [-> | [q ->]]; discriminate. }
    pose proof (turns_enough z t0 _ Hlo Hhi Hnot) as Ht0.
    unfold below in Hb, Hfirst.
    rewrite (scan_finds _ cmndf _ _ z t0 Hlo Hhi Hb).
    + rewrite (descend_stops cmndf _ _ t0 tau Hle Hchain Hstop).
      * pose proof (below_nonneg d cmndf t0 Hb) as H0.
        destruct (tau =? -1)%Z eqn:E; [apply Z.eqb_eq in E; lia|].
        reflexivity.
      * destruct (Z.eq_dec t0 tau) as [->|Hne]; [lia|].
        assert (Hlast : descends cmndf (pitchMaxLag d buffer) (tau - 1)
                        = true) by (apply Hchain; lia).
        unfold descends in Hlast. apply andb_true_iff in Hlast as [Hl _].
        replace (tau - 1 + 1)%Z with tau in Hl by lia.
        pose proof (turns_enough z tau _ ltac:(lia) Hl Hnot). lia.
    + intros t Ht. apply Hfirst; [|lia].
      rewrite ofZ_le.
      rewrite (lt_bound_down t t0 _ ltac:(lia) Hhi).
      apply andb_true_iff. split; [apply Z.leb_le; lia | reflexivity].
    + lia.
Qed.

(** ** Signs through the arithmetic *)

(** Unfold the operations on numbers, not the rational arithmetic. *)
Ltac jsimpl :=
  cbn -[Qle Qlt Qeq Qred Qplus Qmult Qminus Qopp Qdiv Qinv inject_Z
        JS.Qltb Qle_bool Qeq_bool Qfloor Qceiling] in *.

Lemma Qsquare_nonneg (q : Q) : 0 <= q * q.
Proof. nra. Qed.

Lemma mul_self_notNegative (x : num) : notNegative (JS.mul x x).
Proof.
  destruct x as [q| | |]; jsimpl; auto.
  rewrite Qred_correct. apply Qsquare_nonneg.
Qed.

Lemma add_notNegative (x y : num) :
  notNegative x -> notNegative y -> notNegative (JS.add x y).
Proof.
  destruct x as [q| | |], y as [r| | |]; jsimpl; auto.
  rewrite Qred_correct. lra.
Qed.

Lemma Qdiv_nonneg (q r : Q) : 0 <= q -> 0 < r -> 0 <= q / r.
Proof.
  intros Hq Hr. apply Qle_shift_div_l; [exact Hr | lra].
Qed.

Lemma div_notNegative (x y : num) :
  notNegative x -> notNegative y -> notNegative (JS.div x y).
Proof.
  destruct x as [q| | |], y as [r| | |]; jsimpl; auto; try tauto.
  - intros Hq Hr. destruct (Qeq_bool r 0) eqn:E.
    + destruct (JS.Qltb 0 q) eqn:E1; jsimpl; auto.
      destruct (JS.Qltb q 0) eqn:E2; jsimpl; auto. qprop. lra.
    + jsimpl. qprop. apply Qdiv_nonneg; [lra|].
      destruct (Qlt_le_dec 0 r); [assumption|]. exfalso. apply E. lra.
  - intros _ _. unfold JS.zero. jsimpl. lra.
  - intros _ Hr. destruct (JS.Qltb r 0) eqn:E; jsimpl; auto. qprop. lra.
Qed.

Lemma ofZ_notNegative (z : Z) : (0 <= z)%Z -> notNegative (JS.ofZ z).
Proof. intros H. jsimpl. rewrite Zle_Qle in H. exact H. Qed.

Lemma lt_trans (a b c : num) :
  JS.lt a b = true -> JS.lt b c = true -> JS.lt a c = true.
Proof.
  destruct a, b, c; jsimpl; intros; try congruence; qsolve.
Qed.

(** Below a bound that is not above one, a value that is not negative
    leaves a confidence in [0, 1]. *)
Lemma one_minus_inUnit (c thr : num) :
  notNegative c -> JS.lt c thr = true -> JS.gt thr JS.one = false ->
  inUnit (JS.sub JS.one c).
Proof.
  unfold JS.gt, JS.one.
  destruct c as [q| | |], thr as [t| | |]; jsimpl; intros Hc Hlt Hthr;
    try discriminate; try tauto.
  qprop. lra.
Qed.

Lemma zeroOrNaN_sub (x y : num) :
  zeroOrNaN x -> zeroOrNaN y -> zeroOrNaN (JS.sub x y).
Proof.
  destruct x as [q| | |], y as [r| | |]; jsimpl; auto.
  rewrite !Qred_correct. lra.
Qed.

Lemma zeroOrNaN_mul (x y : num) :
  zeroOrNaN x -> zeroOrNaN y -> zeroOrNaN (JS.mul x y).
Proof.
  destruct x as [q| | |], y as [r| | |]; jsimpl; auto; try tauto.
  rewrite !Qred_correct. nra.
Qed.

Lemma zeroOrNaN_add (x y : num) :
  zeroOrNaN x -> zeroOrNaN y -> zeroOrNaN (JS.add x y).
Proof.
  destruct x as [q| | |], y as [r| | |]; jsimpl; auto.
  rewrite !Qred_correct. lra.
Qed.

(** 0/0 is NaN, also through a division of the divisor by a count. *)
Lemma zero_over_zero (x y : num) (z : Z) :
  zeroOrNaN x -> zeroOrNaN y ->
  JS.div x (JS.div y (JS.ofZ z)) = NaN.
Proof.
  destruct x as [q| | |], y as [r| | |]; jsimpl; try tauto.
  intros Hq Hr.
  destruct (Qeq_bool (inject_Z z) 0) eqn:Ez.
  - assert (S : JS.sign (Fin r) = None).
    { jsimpl. destruct (JS.Qltb 0 r) eqn:E1; [qprop; lra|].
      destruct (JS.Qltb r 0) eqn:E2; [qprop; lra|]. reflexivity. }
    jsimpl. rewrite S. reflexivity.
  - assert (E : Qeq_bool (Qred (r / inject_Z z)) 0 = true).
    { qprop. rewrite Hr. field. exact Ez. }
    jsimpl. rewrite E.
    destruct (JS.Qltb 0 q) eqn:E1; [qprop; lra|].
    destruct (JS.Qltb q 0) eqn:E2; [qprop; lra|]. reflexivity.
Qed.

(** ** What the YIN arrays hold *)

Section PitchArrays.

Import YINDetector.

Lemma Forall_set_nat (P : num -> Prop) (a : TypedArray.t) (i : nat) (v : num) :
  Forall P a -> P v -> Forall P (TypedArray.set_nat a i v).
Proof.
  intros Ha Hv. revert i.
  induction Ha as [|x a Hx Ha IH]; intros [|i]; simpl; auto.
Qed.

Lemma Forall_set (P : num -> Prop) (a : TypedArray.t) (i : Z) (v : num) :
  Forall P a -> P v -> Forall P (TypedArray.set a i v).
Proof.
  intros Ha Hv. unfold TypedArray.set.
  destruct (i <? 0)%Z; [exact Ha | now apply Forall_set_nat].
Qed.

Lemma get_Forall (P : num -> Prop) (a : TypedArray.t) (i : Z) :
  Forall P a -> P NaN -> P (TypedArray.get a i).
Proof.
  intros Ha Hn. unfold TypedArray.get.
  destruct (i <? 0)%Z; [exact Hn|].
  destruct (Nat.lt_ge_cases (Z.to_nat i) (List.length a)) as [Hlt|Hge].
  - rewrite Forall_forall in Ha. apply Ha, nth_In, Hlt.
  - now rewrite nth_overflow.
Qed.

Lemma Forall_repeat (P : num -> Prop) (v : num) (n : nat) :
  P v -> Forall P (repeat v n).
Proof. intros Hv. induction n; simpl; auto. Qed.

(** A loop that writes one cell per turn and carries a state: every cell
    whose index the loop visits holds a value the body computed, the
    others are untouched. *)
Lemma fill_with_state {S : Type} (I : S -> Prop) (V : num -> Prop)
    (body : S -> Z -> num * S) (idxs : list Z) :
  (forall s k, I s -> V (fst (body s k)) /\ I (snd (body s k))) ->
  forall (a0 : TypedArray.t) (s0 : S), I s0 ->
  let r :=
    fold_left
      (fun st k => (TypedArray.set (fst st) k (fst (body (snd st) k)),
                    snd (body (snd st) k)))
      idxs (a0, s0) in
  TypedArray.length (fst r) = TypedArray.length a0 /\
  I (snd r) /\
  forall i,
    (In i idxs -> (0 <= i < TypedArray.length a0)%Z ->
     V (TypedArray.get (fst r) i)) /\
    (~ In i idxs -> TypedArray.get (fst r) i = TypedArray.get a0 i).
Proof.
  intros Hbody. induction idxs as [|k idxs IH]; intros a0 s0 Hs0; cbn zeta.
  - simpl. repeat split; auto. intros [].
  - cbn [fold_left fst snd].
    destruct (Hbody s0 k Hs0) as [Hv Hs1].
    specialize (IH (TypedArray.set a0 k (fst (body s0 k)))
                   (snd (body s0 k)) Hs1).
    cbn zeta in IH. destruct IH as (Hlen & HI & Hcells).
    rewrite set_length in Hlen.
    split; [exact Hlen|]. split; [exact HI|].
    intros i. destruct (Hcells i) as [Hin Hout]. split.
    + intros Hi Hrange.
      destruct (in_dec Z.eq_dec i idxs) as [Hi'|Hi'].
      * apply Hin; [exact Hi'|]. now rewrite set_length.
      * rewrite (Hout Hi'). destruct Hi as [->|Hi]; [|contradiction].
        now rewrite get_set_same.
    + intros Hi. rewrite Hout by (intro; apply Hi; right; assumption).
      apply get_set_other. intro; subst; apply Hi; left; reflexivity.
Qed.

(** The difference function is a sum of squares: no cell is negative. *)
Lemma differenceAt_notNegative (buffer : TypedArray.t) (n : Z)
    (maxLag : num) (tau : Z) :
  notNegative (differenceAt buffer n maxLag tau).
Proof.
  unfold differenceAt. apply fold_left_inv.
  - simpl. lra.
  - intros s j _ Hs. apply add_notNegative; [exact Hs|].
    apply mul_self_notNegative.
Qed.

Lemma difference_notNegative (buffer : TypedArray.t) (n : Z) (maxLag : num)
    (difference : TypedArray.t) :
  differenceFunction buffer n maxLag = Ok difference ->
  Forall notNegative difference.
Proof.
  unfold differenceFunction.
  destruct (TypedArray.create maxLag) as [a|e] eqn:E; [|discriminate].
  cbn [bind]. intros [= <-].
  apply create_ok in E as [_ ->].
  apply fold_left_inv.
  - apply Forall_repeat. simpl. lra.
  - intros s tau _ Hs. apply Forall_set; [exact Hs|].
    apply differenceAt_notNegative.
Qed.

Lemma cmndf_notNegative (difference : TypedArray.t) (maxLag : num)
    (cmndf : TypedArray.t) :
  Forall notNegative difference ->
  cumulativeMeanNormalizedDifference difference maxLag = Ok cmndf ->
  Forall notNegative cmndf.
Proof.
  intros Hd. unfold cumulativeMeanNormalizedDifference.
  destruct (TypedArray.create maxLag) as [a|e] eqn:E; [|discriminate].
  cbn [bind]. intros [= <-].
  apply create_ok in E as [_ ->].
  match goal with |- Forall _ (fst (fold_left ?f ?l ?st)) =>
    assert (H : Forall notNegative (fst (fold_left f l st))
                /\ notNegative (snd (fold_left f l st)))
  end; [|tauto].
  apply fold_left_inv.
  - cbn [fst snd]. split; [|simpl; lra].
    apply Forall_set; [apply Forall_repeat|]; simpl; lra.
  - intros [arr rs] tau Hin [Harr Hrs]. cbn [fst snd] in *.
    apply in_map_iff in Hin as (k & <- & Hk). apply in_upto in Hk.
    assert (Hsum : notNegative
                     (JS.add rs (TypedArray.get difference (k + 1)))).
    { apply add_notNegative; [exact Hrs|].
      apply get_Forall; [exact Hd | exact I]. }
    split; [|exact Hsum].
    apply Forall_set; [exact Harr|].
    apply div_notNegative; [apply get_Forall; [exact Hd | exact I]|].
    apply div_notNegative; [exact Hsum|].
    apply ofZ_notNegative. lia.
Qed.

Lemma differenceAt_silent (n : nat) (len : Z) (maxLag : num) (tau : Z) :
  zeroOrNaN (differenceAt (repeat JS.zero n) len maxLag tau).
Proof.
  assert (Hget : forall i, zeroOrNaN (TypedArray.get (repeat JS.zero n) i)).
  { intros i. apply get_Forall; [|exact I].
    apply Forall_repeat. simpl. lra. }
  unfold differenceAt. apply fold_left_inv.
  - simpl. lra.
  - intros s j _ Hs. apply zeroOrNaN_add; [exact Hs|].
    apply zeroOrNaN_mul; apply zeroOrNaN_sub; apply Hget.
Qed.

Lemma difference_silent (n : nat) (len : Z) (maxLag : num)
    (difference : TypedArray.t) :
  differenceFunction (repeat JS.zero n) len maxLag = Ok difference ->
  Forall zeroOrNaN difference.
Proof.
  unfold differenceFunction.
  destruct (TypedArray.create maxLag) as [a|e] eqn:E; [|discriminate].
  cbn [bind]. intros [= <-].
  apply create_ok in E as [_ ->].
  apply fold_left_inv.
  - apply Forall_repeat. simpl. lra.
  - intros s tau _ Hs. apply Forall_set; [exact Hs|].
    apply differenceAt_silent.
Qed.

(** On a difference function of zeros the normalisation divides 0 by 0 at
    every lag from 1 on; cell 0 holds 1. *)
Lemma cmndf_silent (difference : TypedArray.t) (maxLag : num)
    (cmndf : TypedArray.t) :
  Forall zeroOrNaN difference ->
  cumulativeMeanNormalizedDifference difference maxLag = Ok cmndf ->
  forall i, TypedArray.get cmndf i = NaN \/
            (i = 0%Z /\ TypedArray.get cmndf i = JS.one).
Proof.
  intros Hd. unfold cumulativeMeanNormalizedDifference.
  destruct (TypedArray.create maxLag) as [a|e] eqn:E; [|discriminate].
  cbn [bind]. intros [= <-] i.
  pose proof (fill_with_state zeroOrNaN (fun v => v = NaN)
    (fun s tau =>
       (JS.div (TypedArray.get difference tau)
          (JS.div (JS.add s (TypedArray.get difference tau)) (JS.ofZ tau)),
        JS.add s (TypedArray.get difference tau)))
    (map (fun k => (k + 1)%Z) (upto (turns 1 maxLag)))) as Hfill.
  cbn beta iota zeta in Hfill. cbn [fst snd] in Hfill.
  assert (Hget : forall j, zeroOrNaN (TypedArray.get difference j)).
  { intros j. apply get_Forall; [exact Hd | exact I]. }
  specialize (Hfill
    ltac:(intros s k Hs; split;
          [apply zero_over_zero; [apply Hget|];
           apply zeroOrNaN_add; [exact Hs | apply Hget]
          | apply zeroOrNaN_add; [exact Hs | apply Hget]])
    (TypedArray.set a 0 JS.one) JS.zero ltac:(simpl; lra)).
  destruct Hfill as (Hlen & _ & Hcells).
  rewrite set_length in Hlen.
  destruct (Hcells i) as [Hin Hout].
  destruct (Z_lt_le_dec i 0) as [Hneg|Hnn].
  { left. apply get_outside. auto. }
  destruct (Z_lt_le_dec i (TypedArray.length a)) as [Hlt|Hge].
  2: { left. apply get_outside. rewrite Hlen. auto. }
  destruct (Z.eq_dec i 0) as [->|Hne].
  - right. split; [reflexivity|]. rewrite Hout.
    + now apply get_set_same.
    + intros Hin0. apply in_map_iff in Hin0 as (k & Hk & Hk').
      apply in_upto in Hk'. lia.
  - left. apply Hin; [|now rewrite set_length].
    apply in_map_iff. exists (i - 1)%Z. split; [lia|].
    apply in_upto.
    destruct (create_ok _ _ E) as [[-> | [q ->]] _].
    + simpl in E. injection E as <-.
      unfold TypedArray.length in Hlt. simpl in Hlt. lia.
    + apply create_length in E as [El Et].
      pose proof (trunc_le_ceiling q). unfold turns. lia.
Qed.

Lemma create_notNegative (n : num) :
  n = NaN \/ (exists q, n = Fin q /\ 0 <= q) ->
  exists a, TypedArray.create n = Ok a.
Proof.
  intros [-> | (q & -> & Hq)]; [simpl; eauto|].
  unfold TypedArray.create, JS.trunc.
  destruct (JS.Qltb q 0) eqn:E; [qprop; lra|].
  assert (H : (0 <= Qfloor q)%Z).
  { change 0%Z with (Qfloor (inject_Z 0)). apply Qfloor_resp_le. exact Hq. }
  destruct (Qfloor q <? 0)%Z eqn:E'; [lia | eauto].
Qed.

Lemma floor_notNegative (x : num) :
  notNegative x -> notNegative (JS.floor x).
Proof.
  destruct x as [q| | |]; simpl; auto. intros Hq.
  assert (H : (0 <= Qfloor q)%Z).
  { change 0%Z with (Qfloor (inject_Z 0)). apply Qfloor_resp_le. exact Hq. }
  rewrite Zle_Qle in H. exact H.
Qed.

Lemma min_notNegative (x y : num) :
  notNegative x -> notNegative y -> notNegative (JS.min x y).
Proof.
  destruct x as [q| | |], y as [r| | |]; jsimpl; auto.
  destruct (JS.Qltb r q); auto.
Qed.

(** The upper lag bound is a finite number from zero up, or NaN, when
    neither the sample rate nor the minimum frequency is negative. *)
Lemma pitchMaxLag_ok (d : YINDetector.t) (buffer : TypedArray.t) (sr : Q) :
  sampleRate d = Fin sr -> 0 <= sr ->
  JS.lt (minFrequency d) JS.zero = false ->
  pitchMaxLag d buffer = NaN \/
  exists q, pitchMaxLag d buffer = Fin q /\ 0 <= q.
Proof.
  intros Hsr Hpos Hmin.
  assert (Hhalf : exists h,
    JS.div (JS.ofZ (TypedArray.length buffer)) (JS.ofZ 2) = Fin h /\ 0 <= h).
  { eexists. split; [reflexivity|]. rewrite Qred_correct.
    apply Qdiv_nonneg; [|reflexivity].
    unfold TypedArray.length.
    change 0 with (inject_Z 0). rewrite <- Zle_Qle. lia. }
  destruct Hhalf as (h & Hh & Hh0).
  assert (Hq : notNegative (JS.div (Fin sr) (minFrequency d))).
  { apply div_notNegative; [exact Hpos|].
    destruct (minFrequency d) as [m| | |]; jsimpl; auto; [|discriminate].
    qprop. exact Hmin. }
  apply floor_notNegative in Hq.
  unfold pitchMaxLag. rewrite Hsr, Hh.
  revert Hq.
  destruct (JS.floor (JS.div (Fin sr) (minFrequency d))) as [x| | |];
    jsimpl; auto; intros Hq.
  - right. destruct (JS.Qltb h x); eauto.
  - right. eauto.
  - contradiction.
Qed.

(** Under the same conditions no allocation of [detect] throws. *)
Lemma cmndfOf_ok (d : YINDetector.t) (buffer : TypedArray.t) (sr : Q) :
  sampleRate d = Fin sr -> 0 <= sr ->
  JS.lt (minFrequency d) JS.zero = false ->
  exists cmndf, cmndfOf d buffer = Ok cmndf.
Proof.
  intros Hsr Hpos Hmin.
  pose proof (pitchMaxLag_ok d buffer sr Hsr Hpos Hmin) as Hmax.
  destruct (create_notNegative _ Hmax) as [a Ha].
  unfold cmndfOf, differenceFunction, cumulativeMeanNormalizedDifference.
  rewrite Ha. cbn [bind]. eauto.
Qed.

(** What the two loops of the search return is below the threshold. *)
Lemma descend_below (thr : num) (cmndf : TypedArray.t) (maxLag : num)
    (fuel : nat) (tau : Z) :
  JS.lt (TypedArray.get cmndf tau) thr = true ->
  JS.lt (TypedArray.get cmndf (descend cmndf maxLag tau fuel)) thr = true.
Proof.
  revert tau. induction fuel as [|fuel IH]; intros tau H; cbn [descend];
    [exact H|].
  destruct (JS.lt (JS.ofZ (tau + 1)) maxLag &&
            JS.lt (TypedArray.get cmndf (tau + 1)) (TypedArray.get cmndf tau))
    eqn:E; [|exact H].
  apply andb_true_iff in E as [_ E].
  apply IH. eapply lt_trans; eauto.
Qed.

Lemma scan_below (thr : num) (cmndf : TypedArray.t) (maxLag : num)
    (fuel : nat) (from : Z) :
  scan thr cmndf maxLag from fuel <> (-1)%Z ->
  JS.lt (TypedArray.get cmndf (scan thr cmndf maxLag from fuel)) thr = true.
Proof.
  revert from. induction fuel as [|fuel IH]; intros from; cbn [scan];
    [congruence|].
  destruct (JS.lt (JS.ofZ from) maxLag); [|congruence].
  destruct (JS.lt (TypedArray.get cmndf from) thr) eqn:E.
  - intros _. now apply descend_below.
  - apply IH.
Qed.

Lemma absoluteThreshold_below (d : YINDetector.t) (cmndf : TypedArray.t)
    (minLag maxLag : num) :
  absoluteThreshold d cmndf minLag maxLag <> (-1)%Z ->
  below d cmndf (absoluteThreshold d cmndf minLag maxLag) = true.
Proof.
  unfold absoluteThreshold, below.
  destruct minLag; try congruence. apply scan_below.
Qed.

End PitchArrays.

(** ** The YIN detector on silence, and its confidence *)

Section PitchResults.

Import YINDetector.

(** A silent window of any length, the empty one included, has no pitch,
    provided the threshold is not above 1. *)
Lemma detect_silent (d : YINDetector.t) (n : nat) (sr : Q) :
  sampleRate d = Fin sr -> 0 <= sr ->
  JS.lt (minFrequency d) JS.zero = false ->
  JS.gt (threshold d) JS.one = false ->
  detect d (repeat JS.zero n) = Ok None.
Proof.
  intros Hsr Hpos Hmin Hthr.
  destruct (cmndfOf_ok d (repeat JS.zero n) sr Hsr Hpos Hmin) as [cmndf Hc].
  apply (threshold_search_spec d _ cmndf sr Hsr Hpos Hc).
  intros tau _. unfold below.
  unfold cmndfOf in Hc.
  destruct (differenceFunction _ _ _) as [difference|e] eqn:Ed;
    [|discriminate].
  cbn [bind] in Hc.
  pose proof (difference_silent _ _ _ _ Ed) as Hd.
  destruct (cmndf_silent _ _ _ Hd Hc tau) as [-> | [_ ->]].
  - reflexivity.
  - exact Hthr.
Qed.

(** The confidence of a detected pitch lies in [0, 1] when the threshold
    is not above 1, whatever the window holds. *)
Lemma detect_confidence_unit (d : YINDetector.t) (buffer : TypedArray.t)
    (p : Pitch) :
  JS.gt (threshold d) JS.one = false ->
  detect d buffer = Ok (Some p) -> inUnit (pitchConfidence p).
Proof.
  intros Hthr. rewrite detect_unfold.
  destruct (cmndfOf d buffer) as [cmndf|e] eqn:Hc; [|discriminate].
  cbn [bind]. cbn zeta.
  set (tau := absoluteThreshold d cmndf _ _).
  destruct (tau =? -1)%Z eqn:E; [discriminate|].
  apply Z.eqb_neq in E.
  pose proof (absoluteThreshold_below d cmndf _ _ E) as Hb. fold tau in Hb.
  unfold pitchAt. destruct (_ || _); [discriminate|].
  intros [= <-]. cbn [pitchConfidence].
  apply (one_minus_inUnit _ (threshold d)); [|exact Hb | exact Hthr].
  apply get_Forall; [|exact I].
  unfold cmndfOf in Hc.
  destruct (differenceFunction _ _ _) as [difference|e] eqn:Ed;
    [|discriminate].
  cbn [bind] in Hc.
  eapply cmndf_notNegative; [|exact Hc].
  eapply difference_notNegative; exact Ed.
Qed.

End PitchResults.

(** ** The BPM detector: frame sizes and the silent buffer *)

Section BeatFrames.

Import BPMDetector.
Context {M : JS.Math} {L : JS.MathLaws M}.

Lemma floor_ofZ (q : Q) (z : Z) : q == inject_Z z -> JS.floor (Fin q) = JS.ofZ z.
Proof.
  intros H. unfold JS.floor. f_equal. rewrite H. apply Qfloor_Z.
Qed.

Lemma Qfloor_lower (z : Z) (q : Q) : inject_Z z <= q -> (z <= Qfloor q)%Z.
Proof.
  intros H. apply Qfloor_resp_le in H. now rewrite Qfloor_Z in H.
Qed.

(** At a sample rate of 100 Hz or more the hop is at least one sample and
    the window at least four. *)
Lemma frame_sizes (d : BPMDetector.t) (sr : Q) :
  sampleRate d = Fin sr -> 100 <= sr ->
  exists hop ws : Z,
    hopSizeOf d = JS.ofZ hop /\ windowSizeOf d = JS.ofZ ws /\
    (1 <= hop)%Z /\ (4 <= ws)%Z.
Proof.
  intros Hsr Hbig. unfold hopSizeOf, windowSizeOf. rewrite Hsr.
  exists (Qfloor (Qred (sr * (1 # 100)))), (Qfloor (Qred (sr * (4 # 100)))).
  split; [reflexivity|]. split; [reflexivity|]. split.
  - apply Qfloor_lower. rewrite Qred_correct. unfold inject_Z. lra.
  - apply Qfloor_lower. rewrite Qred_correct. unfold inject_Z. lra.
Qed.

Lemma trunc_inject (z : Z) : JS.trunc (inject_Z z) = z.
Proof.
  unfold JS.trunc. destruct (JS.Qltb _ _).
  - unfold Qceiling. rewrite <- inject_Z_opp, Qfloor_Z. lia.
  - apply Qfloor_Z.
Qed.

Lemma create_ofZ (z : Z) :
  TypedArray.create (JS.ofZ z) =
  if (z <? 0)%Z then Throw RangeError
  else Ok (repeat JS.zero (Z.to_nat z)).
Proof. unfold TypedArray.create, JS.ofZ. now rewrite trunc_inject. Qed.

(** The number of frames, as [detect] computes it from integer sizes. *)
Lemma numFrames_ofZ (len ws hop : Z) :
  (1 <= hop)%Z ->
  exists nf : Z,
    JS.floor (JS.div (JS.sub (JS.ofZ len) (JS.ofZ ws)) (JS.ofZ hop))
      = JS.ofZ nf /\
    ((len < ws)%Z -> (nf < 0)%Z) /\ ((ws <= len)%Z -> (0 <= nf)%Z).
Proof.
  intros Hhop.
  assert (Hh : 0 < inject_Z hop) by (apply inject_Z_pos; lia).
  assert (Hne : Qeq_bool (inject_Z hop) 0 = false)
    by (apply inject_Z_nonzero; lia).
  unfold JS.sub, JS.ofZ. cbn [JS.neg JS.add JS.div]. rewrite Hne.
  cbn [JS.floor]. eexists. split; [reflexivity|].
  split; intros H.
  - apply Z.lt_nge. intros Hge.
    assert (Hq : Qred (Qred (inject_Z len + Qred (- inject_Z ws))
                       / inject_Z hop) < 0).
    { rewrite !Qred_correct. apply Qlt_shift_div_r; [exact Hh|].
      rewrite Zlt_Qlt in H. lra. }
    pose proof (Qfloor_le (Qred (Qred (inject_Z len + Qred (- inject_Z ws))
                                  / inject_Z hop))) as Hf.
    rewrite Zle_Qle in Hge.
    change (inject_Z 0) with 0 in Hge. lra.
  - apply Qfloor_lower.
    rewrite !Qred_correct. apply Qle_shift_div_l; [exact Hh|].
    rewrite Zle_Qle in H. change (inject_Z 0) with 0. lra.
Qed.

(** A buffer shorter than one analysis window makes [detect] allocate an
    envelope of negative length: it throws a RangeError. *)
Lemma detect_short_buffer (d : BPMDetector.t) (audioBuffer : AudioBuffer)
    (sr : Q) (ws : Z) :
  sampleRate d = Fin sr -> 100 <= sr ->
  windowSizeOf d = JS.ofZ ws ->
  (TypedArray.length (channelDataOf audioBuffer) < ws)%Z ->
  detect d audioBuffer = Throw RangeError.
Proof.
  intros Hsr Hbig Hws Hshort.
  destruct (frame_sizes d sr Hsr Hbig) as (hop & ws' & Hhop & Hws' & H1 & H4).
  unfold detect, onsetAutocorr, calculateEnergyEnvelope.
  rewrite Hhop, Hws.
  destruct (numFrames_ofZ (TypedArray.length (channelDataOf audioBuffer))
              ws hop H1) as (nf & -> & Hneg & _).
  rewrite create_ofZ.
  destruct (nf <? 0)%Z eqn:E; [reflexivity|]. specialize (Hneg Hshort). lia.
Qed.

Lemma get_allZero (a : TypedArray.t) (i : Z) :
  allZero a -> (0 <= i < TypedArray.length a)%Z ->
  TypedArray.get a i = JS.zero.
Proof. intros Ha Hi. now apply (get_in_range a i (fun x => x = JS.zero)). Qed.

Lemma get_num_int (a : TypedArray.t) (q : Q) (k : Z) :
  q == inject_Z k -> TypedArray.get_num a (Fin q) = TypedArray.get a k.
Proof.
  intros H. unfold TypedArray.get_num, JS.toIndex.
  assert (Hf : Qfloor q = k) by (rewrite H; apply Qfloor_Z).
  rewrite Hf.
  assert (E : Qeq_bool q (inject_Z k) = true) by (apply Qeq_bool_iff, H).
  now rewrite E.
Qed.

(** The sample a frame reads at offset [j]. *)
Lemma frame_index (i hop j : Z) :
  exists q, JS.add (JS.mul (JS.ofZ i) (JS.ofZ hop)) (JS.ofZ j) = Fin q /\
            q == inject_Z (i * hop + j).
Proof.
  eexists. split; [reflexivity|].
  rewrite !Qred_correct, inject_Z_plus, inject_Z_mult. reflexivity.
Qed.

Lemma frameEnergy_silent (n : nat) (ws i hop : Z) :
  (0 <= i)%Z -> (0 <= hop)%Z ->
  frameEnergy (repeat JS.zero n) (JS.ofZ ws)
              (JS.mul (JS.ofZ i) (JS.ofZ hop)) = JS.zero.
Proof.
  intros Hi Hhop. unfold frameEnergy. apply fold_left_inv; [reflexivity|].
  intros s j Hj ->. apply in_upto in Hj.
  destruct (frame_index i hop j) as (q & -> & Hq).
  destruct (JS.lt (Fin q) _) eqn:E; [|reflexivity].
  rewrite (get_num_int _ q _ Hq).
  assert (Hlt : (i * hop + j < TypedArray.length (repeat JS.zero n))%Z).
  { unfold JS.ofZ in E. cbn [JS.lt] in E. apply Qltb_true in E.
    rewrite Hq in E. now rewrite <- Zlt_Qlt in E. }
  rewrite get_allZero; [reflexivity | | nia].
  apply Forall_repeat. reflexivity.
Qed.

Lemma envelope_silent (n : nat) (nf ws hop : Z) (envelope : TypedArray.t) :
  (1 <= ws)%Z -> (0 <= hop)%Z ->
  calculateEnergyEnvelope (repeat JS.zero n) (JS.ofZ nf) (JS.ofZ ws)
                          (JS.ofZ hop) = Ok envelope ->
  allZero envelope.
Proof.
  intros Hws Hhop. unfold calculateEnergyEnvelope. rewrite create_ofZ.
  destruct (nf <? 0)%Z; [discriminate|]. cbn [bind].
  intros H. apply Ok_inj in H. subst envelope.
  apply fold_left_inv; [apply Forall_repeat; reflexivity|].
  intros a i Hi Ha. apply in_upto in Hi. lazy zeta.
  apply Forall_set; [exact Ha|].
  rewrite frameEnergy_silent by lia.
  assert (Hne : Qeq_bool (inject_Z ws) 0 = false)
    by (apply inject_Z_nonzero; lia).
  unfold JS.zero, JS.ofZ. cbn [JS.div]. rewrite Hne.
  apply JS.sqrt_zero. rewrite Qred_correct. unfold Qdiv. ring.
Qed.

Lemma differentiate_silent (envelope : TypedArray.t) :
  allZero envelope -> allZero (differentiate envelope).
Proof.
  intros He. unfold differentiate. apply fold_left_inv.
  - apply Forall_set; [apply Forall_repeat|]; reflexivity.
  - intros a i Hi Ha. apply in_map_iff in Hi as (k & <- & Hk).
    apply in_upto in Hk. lazy zeta.
    apply Forall_set; [exact Ha|].
    rewrite !get_allZero; [reflexivity | exact He | | exact He |];
      unfold TypedArray.length; lia.
Qed.

Lemma autocorrelate_silent (data : TypedArray.t) :
  allZero data -> allZero (autocorrelate data).
Proof.
  intros Hd. unfold autocorrelate. apply fold_left_inv.
  - apply Forall_repeat. reflexivity.
  - intros a lag Hlag Ha. apply in_upto in Hlag.
    apply Forall_set; [exact Ha|].
    unfold autocorrAt. apply fold_left_inv; [reflexivity|].
    intros s i Hi ->. apply in_upto in Hi.
    rewrite !get_allZero; [reflexivity | exact Hd | | exact Hd |];
      unfold TypedArray.length in *; lia.
Qed.

Lemma for_loop_fixed {S : Type} (cond : Z -> bool) (body : S -> Z -> S)
    (s : S) (fuel : nat) (i : Z) :
  (forall k, body s k = s) -> for_loop cond body i fuel s = s.
Proof.
  intros H. revert i. induction fuel as [|fuel IH]; intros i; simpl; auto.
  destruct (cond i); [rewrite H; apply IH | reflexivity].
Qed.

Lemma findBestLag_silent (autocorr : TypedArray.t) (minLag maxLag : num) :
  allZero autocorr -> findBestLag autocorr minLag maxLag = (JS.zero, 0%Z).
Proof.
  intros Ha. unfold findBestLag. destruct minLag; try reflexivity.
  apply for_loop_fixed. intros lag. unfold consider. cbn [fst].
  assert (H : TypedArray.get autocorr lag = JS.zero
              \/ TypedArray.get autocorr lag = NaN).
  { apply (get_Forall (fun x => x = JS.zero \/ x = NaN)); [|auto].
    eapply Forall_impl; [|exact Ha]. auto. }
  destruct H as [-> | ->]; reflexivity.
Qed.

(** A silent buffer of at least one analysis window has no tempo: the
    result is "no BPM" with confidence 0 and no beat. *)
Lemma detect_silent_buffer (d : BPMDetector.t) (audioBuffer : AudioBuffer)
    (sr : Q) (n : nat) (ws : Z) :
  sampleRate d = Fin sr -> 100 <= sr ->
  channelDataOf audioBuffer = repeat JS.zero n ->
  windowSizeOf d = JS.ofZ ws -> (ws <= Z.of_nat n)%Z ->
  detect d audioBuffer =
  Ok {| bpm := None; bpmConfidence := JS.zero; beatPositions := [] |}.
Proof.
  intros Hsr Hbig Hdata Hws Hlong.
  destruct (frame_sizes d sr Hsr Hbig) as (hop & ws' & Hhop & Hws' & H1 & H4).
  assert (ws' = ws).
  { rewrite Hws in Hws'. unfold JS.ofZ, inject_Z in Hws'.
    injection Hws' as E. lia. }
  subst ws'.
  unfold detect, onsetAutocorr. rewrite Hdata, Hhop, Hws.
  destruct (numFrames_ofZ (TypedArray.length (repeat JS.zero n)) ws hop H1)
    as (nf & -> & _ & Hnf).
  destruct (calculateEnergyEnvelope _ _ _ _) as [envelope|e] eqn:E.
  - cbn [bind].
    pose proof (envelope_silent n nf ws hop envelope ltac:(lia) ltac:(lia) E)
      as He.
    pose proof (autocorrelate_silent _ (differentiate_silent _ He)) as Ha.
    rewrite (findBestLag_silent _ _ _ Ha). cbn [Z.gtb Z.compare].
    f_equal. f_equal.
    assert (H : TypedArray.get (autocorrelate (differentiate envelope)) 0
                = JS.zero
              \/ TypedArray.get (autocorrelate (differentiate envelope)) 0
                = NaN).
    { apply (get_Forall (fun x => x = JS.zero \/ x = NaN)); [|auto].
      eapply Forall_impl; [|exact Ha]. auto. }
    destruct H as [-> | ->]; reflexivity.
  - exfalso. unfold calculateEnergyEnvelope in E. rewrite create_ofZ in E.
    rewrite repeat_length_Z in Hnf. specialize (Hnf Hlong).
    destruct (nf <? 0)%Z eqn:E'; [lia | discriminate].
Qed.

End BeatFrames.

(** ** The volume of silence *)

Section Volume.

Context {M : JS.Math} {L : JS.MathLaws M}.

Lemma volume_silent (n : nat) :
  (0 < n)%nat -> AudioAnalyzer.calculateVolume (repeat JS.zero n) = JS.zero.
Proof.
  intros Hn. unfold AudioAnalyzer.calculateVolume.
  assert (Hsum :
    fold_left
      (fun sum i =>
         JS.add sum (JS.mul (TypedArray.get (repeat JS.zero n) i)
                            (TypedArray.get (repeat JS.zero n) i)))
      (upto (List.length (repeat JS.zero n))) JS.zero = JS.zero).
  { apply fold_left_inv; [reflexivity|].
    intros s i Hi ->. apply in_upto in Hi.
    rewrite get_repeat; [reflexivity|]. rewrite repeat_length in Hi. lia. }
  lazy zeta. rewrite Hsum.
  assert (Hdiv : JS.sqrt (JS.div JS.zero
                   (JS.ofZ (TypedArray.length (repeat JS.zero n))))
                 = JS.zero).
  { rewrite repeat_length_Z. unfold JS.zero, JS.ofZ. cbn [JS.div].
    rewrite inject_Z_nonzero by lia.
    apply JS.sqrt_zero. rewrite Qred_correct. unfold Qdiv. ring. }
  rewrite Hdiv.
  destruct (JS.sqrt_fin 2 ltac:(lra)) as (y & Hy & Hs).
  unfold JS.ofZ. change (inject_Z 2) with 2. rewrite Hs.
  unfold JS.zero. cbn [JS.mul].
  replace (Qred (0 * y)) with 0; [reflexivity|].
  symmetry. change 0 with (Qred 0) at 2. apply Qred_complete. ring.
Qed.

End Volume.

(** The fixed-point [Math] object satisfies what is asked of [Math.sqrt]. *)
Lemma fixedPoint_laws : JS.MathLaws Samples.fixedPoint.
Proof.
  split.
  - intros x Hx. cbn [JS.sqrt Samples.fixedPoint Samples.fixedSqrt].
    assert (E : JS.Qltb x 0 = false) by (apply Qltb_false; lra).
    rewrite E.
    assert (F : Qfloor (x * 1000000000000) = 0%Z).
    { rewrite Hx. reflexivity. }
    rewrite F. reflexivity.
  - reflexivity.
  - intros x Hx. cbn [JS.sqrt Samples.fixedPoint Samples.fixedSqrt].
    assert (E : JS.Qltb x 0 = false) by (apply Qltb_false; lra).
    rewrite E. eexists. split; [|reflexivity].
    rewrite Qred_correct. unfold Qle. cbn [Qnum Qden].
    pose proof (Z.sqrt_nonneg (Qfloor (x * 1000000000000))). lia.
Qed.

(** ** The BPM detector on finite samples *)

Section BeatArrays.

Import BPMDetector.
Context {M : JS.Math} {L : JS.MathLaws M}.

Lemma finNonneg_add (x y : num) :
  finNonneg x -> finNonneg y -> finNonneg (JS.add x y).
Proof.
  destruct x, y; jsimpl; try tauto. intros. rewrite Qred_correct. lra.
Qed.

Lemma finNonneg_mul (x y : num) :
  finNonneg x -> finNonneg y -> finNonneg (JS.mul x y).
Proof.
  destruct x, y; jsimpl; try tauto. intros. rewrite Qred_correct. nra.
Qed.

Lemma finNonneg_square (x : num) :
  JS.is_fin x = true -> finNonneg (JS.mul x x).
Proof.
  destruct x; jsimpl; try discriminate. intros _.
  rewrite Qred_correct. apply Qsquare_nonneg.
Qed.

Lemma finNonneg_zero : finNonneg JS.zero.
Proof. simpl. lra. Qed.

Lemma finNonneg_fin (x : num) : finNonneg x -> JS.is_fin x = true.
Proof. destruct x; simpl; tauto. Qed.

Lemma get_cell (P : num -> Prop) (a : TypedArray.t) (i : Z) :
  Forall P a -> (0 <= i < TypedArray.length a)%Z -> P (TypedArray.get a i).
Proof. apply get_in_range. Qed.

Lemma frameEnergy_finNonneg (data : TypedArray.t) (ws i hop : Z) :
  Forall (fun x => JS.is_fin x = true) data ->
  (0 <= i)%Z -> (0 <= hop)%Z ->
  finNonneg (frameEnergy data (JS.ofZ ws) (JS.mul (JS.ofZ i) (JS.ofZ hop))).
Proof.
  intros Hd Hi Hhop. unfold frameEnergy.
  apply fold_left_inv; [apply finNonneg_zero|].
  intros s j Hj Hs. apply in_upto in Hj.
  destruct (frame_index i hop j) as (q & -> & Hq).
  destruct (JS.lt (Fin q) _) eqn:E; [|exact Hs].
  rewrite (get_num_int _ q _ Hq).
  assert (Hlt : (i * hop + j < TypedArray.length data)%Z).
  { unfold JS.ofZ in E. cbn [JS.lt] in E. apply Qltb_true in E.
    rewrite Hq in E. now rewrite <- Zlt_Qlt in E. }
  apply finNonneg_add; [exact Hs|]. apply finNonneg_square.
  apply (get_cell (fun x => JS.is_fin x = true)); [exact Hd | nia].
Qed.

Lemma envelope_finNonneg (data : TypedArray.t) (nf ws hop : Z)
    (envelope : TypedArray.t) :
  Forall (fun x => JS.is_fin x = true) data ->
  (1 <= ws)%Z -> (0 <= hop)%Z ->
  calculateEnergyEnvelope data (JS.ofZ nf) (JS.ofZ ws) (JS.ofZ hop)
    = Ok envelope ->
  Forall finNonneg envelope.
Proof.
  intros Hd Hws Hhop. unfold calculateEnergyEnvelope. rewrite create_ofZ.
  destruct (nf <? 0)%Z; [discriminate|]. cbn [bind].
  intros H. apply Ok_inj in H. subst envelope.
  apply fold_left_inv; [apply Forall_repeat, finNonneg_zero|].
  intros a i Hi Ha. apply in_upto in Hi. lazy zeta.
  apply Forall_set; [exact Ha|].
  pose proof (frameEnergy_finNonneg data ws i hop Hd ltac:(lia) Hhop) as He.
  destruct (frameEnergy data _ _) as [e| | |]; try contradiction.
  unfold JS.ofZ. cbn [JS.div]. rewrite inject_Z_nonzero by lia.
  destruct (JS.sqrt_fin (Qred (e / inject_Z ws))) as (y & Hy & ->);
    [|exact Hy].
  rewrite Qred_correct. apply Qdiv_nonneg; [exact He|].
  apply inject_Z_pos. lia.
Qed.

Lemma max_zero_finNonneg (x : num) :
  JS.is_fin x = true -> finNonneg (JS.max JS.zero x).
Proof.
  destruct x as [q| | |]; try discriminate. intros _.
  unfold JS.zero. cbn [JS.max JS.lt].
  destruct (JS.Qltb 0 q) eqn:E; cbn [finNonneg]; qprop; lra.
Qed.

Lemma differentiate_finNonneg (envelope : TypedArray.t) :
  Forall finNonneg envelope -> Forall finNonneg (differentiate envelope).
Proof.
  intros He. unfold differentiate. apply fold_left_inv.
  - apply Forall_set; [apply Forall_repeat|]; apply finNonneg_zero.
  - intros a i Hi Ha. apply in_map_iff in Hi as (k & <- & Hk).
    apply in_upto in Hk. lazy zeta.
    apply Forall_set; [exact Ha|].
    apply max_zero_finNonneg, sub_fin; apply finNonneg_fin;
      apply (get_cell finNonneg); try exact He;
      unfold TypedArray.length; lia.
Qed.

Lemma autocorrAt_finNonneg (data : TypedArray.t) (lag : Z) :
  Forall finNonneg data -> (0 <= lag)%Z ->
  finNonneg (autocorrAt data lag).
Proof.
  intros Hd Hlag. unfold autocorrAt.
  apply fold_left_inv; [apply finNonneg_zero|].
  intros s i Hi Hs. apply in_upto in Hi.
  apply finNonneg_add; [exact Hs|].
  apply finNonneg_mul; apply (get_cell finNonneg); try exact Hd; lia.
Qed.

Lemma autocorrelate_finNonneg (data : TypedArray.t) :
  Forall finNonneg data -> Forall finNonneg (autocorrelate data).
Proof.
  intros Hd. unfold autocorrelate. apply fold_left_inv.
  - apply Forall_repeat, finNonneg_zero.
  - intros a lag Hlag Ha. apply in_upto in Hlag.
    apply Forall_set; [exact Ha|].
    apply autocorrAt_finNonneg; [exact Hd | lia].
Qed.

(** A loop that fills an array cell by cell leaves in each cell what the
    body computed for it. *)
Lemma fill_length (g : Z -> num) (idxs : list Z) (a0 : TypedArray.t) :
  TypedArray.length (fold_left (fun a k => TypedArray.set a k (g k)) idxs a0)
  = TypedArray.length a0.
Proof.
  revert a0. induction idxs as [|k idxs IH]; intros a0; simpl; auto.
  now rewrite IH, set_length.
Qed.

Lemma fill_get (g : Z -> num) (n : nat) (a0 : TypedArray.t) (i : Z) :
  (0 <= i < Z.of_nat n)%Z -> (i < TypedArray.length a0)%Z ->
  TypedArray.get
    (fold_left (fun a k => TypedArray.set a k (g k)) (upto n) a0) i = g i.
Proof.
  induction n as [|n IH]; intros Hi Hlen; [lia|].
  rewrite upto_S, fold_left_app. cbn [fold_left].
  destruct (Z.eq_dec i (Z.of_nat n)) as [->|Hne].
  - apply get_set_same. rewrite fill_length. lia.
  - rewrite get_set_other by congruence. apply IH; lia.
Qed.

Lemma autocorrelate_get (data : TypedArray.t) (lag : Z) :
  (0 <= lag < TypedArray.length data)%Z ->
  TypedArray.get (autocorrelate data) lag = autocorrAt data lag.
Proof.
  intros H. unfold autocorrelate.
  apply (fill_get (autocorrAt data)).
  - exact H.
  - rewrite repeat_length_Z. apply H.
Qed.

Lemma autocorrelate_length (data : TypedArray.t) :
  TypedArray.length (autocorrelate data) = TypedArray.length data.
Proof.
  unfold autocorrelate. rewrite (fill_length (autocorrAt data)).
  apply repeat_length_Z.
Qed.

(** A sum of terms that are not negative is positive as soon as one term
    is. *)
Lemma sum_positive (f : Z -> num) (idxs : list Z) (s0 : num) :
  (forall i, In i idxs -> finNonneg (f i)) ->
  finNonneg s0 ->
  JS.gt s0 JS.zero = true \/
  (exists i, In i idxs /\ JS.gt (f i) JS.zero = true) ->
  JS.gt (fold_left (fun s i => JS.add s (f i)) idxs s0) JS.zero = true.
Proof.
  revert s0. induction idxs as [|k idxs IH]; intros s0 Hf Hs0 Hpos.
  - destruct Hpos as [H | (i & [] & _)]. exact H.
  - cbn [fold_left].
    assert (Hk : finNonneg (f k)) by (apply Hf; left; reflexivity).
    apply IH.
    + intros i Hi. apply Hf. right. exact Hi.
    + apply finNonneg_add; assumption.
    + destruct Hpos as [H | (i & [<- | Hi] & H)].
      * left. unfold JS.gt, JS.zero in *.
        destruct s0, (f k); jsimpl; try contradiction;
          try discriminate. qprop. lra.
      * left. unfold JS.gt, JS.zero in *.
        destruct s0, (f k); jsimpl; try contradiction;
          try discriminate. qprop. lra.
      * right. eauto.
Qed.

(** A sum of zeros is zero. *)
Lemma sum_zero (f : Z -> num) (idxs : list Z) :
  (forall i, In i idxs -> isZeroCell (f i) = true) ->
  isZeroCell (fold_left (fun s i => JS.add s (f i)) idxs JS.zero) = true.
Proof.
  intros Hf. apply fold_left_inv; [reflexivity|].
  intros s i Hi Hs. specialize (Hf i Hi).
  destruct s, (f i); jsimpl; try discriminate. qprop. lra.
Qed.

Lemma nth_index (a : TypedArray.t) (x : num) :
  In x a -> exists i, (0 <= i < TypedArray.length a)%Z /\
                      TypedArray.get a i = x.
Proof.
  intros Hx. apply (In_nth a x NaN) in Hx as (k & Hk & Hnth).
  exists (Z.of_nat k). unfold TypedArray.length, TypedArray.get.
  split; [lia|]. destruct (Z.of_nat k <? 0)%Z eqn:E; [lia|].
  now rewrite Nat2Z.id.
Qed.

(** If the onset curve correlates with itself at some lag, its energy,
    the correlation at lag 0, is not zero. *)
Lemma energy_not_zero (data : TypedArray.t) (lag : Z) :
  Forall finNonneg data -> (0 <= lag)%Z ->
  JS.gt (autocorrAt data lag) JS.zero = true ->
  JS.truthy (autocorrAt data 0) = true.
Proof.
  intros Hd Hlag Hpos.
  destruct (forallb isZeroCell data) eqn:E.
  - exfalso. rewrite forallb_forall in E.
    assert (Hz : isZeroCell (autocorrAt data lag) = true).
    { unfold autocorrAt.
      apply (sum_zero (fun i => JS.mul (TypedArray.get data i)
                                       (TypedArray.get data (i + lag)))).
      intros i Hi. apply in_upto in Hi.
      assert (H1 : isZeroCell (TypedArray.get data i) = true).
      { apply (get_cell (fun x => isZeroCell x = true)); [|lia].
        apply Forall_forall. exact E. }
      assert (H2 : isZeroCell (TypedArray.get data (i + lag)) = true).
      { apply (get_cell (fun x => isZeroCell x = true)); [|lia].
        apply Forall_forall. exact E. }
      destruct (TypedArray.get data i), (TypedArray.get data (i + lag));
        jsimpl; try discriminate. qprop. nra. }
    unfold JS.gt, JS.zero in Hpos.
    destruct (autocorrAt data lag); jsimpl; try discriminate. qprop. lra.
  - assert (Hex : exists x, In x data /\ isZeroCell x = false).
    { apply Bool.not_true_iff_false in E.
      destruct (existsb (fun x => negb (isZeroCell x)) data) eqn:E2.
      - apply existsb_exists in E2 as (x & Hx & Hnz).
        exists x. split; [exact Hx|]. now apply negb_true_iff.
      - exfalso. apply E. apply forallb_forall. intros x Hx.
        destruct (isZeroCell x) eqn:Ex; [reflexivity|].
        assert (existsb (fun x => negb (isZeroCell x)) data = true).
        { apply existsb_exists. exists x. rewrite Ex. auto. }
        congruence. }
    destruct Hex as (x & Hx & Hnz).
    destruct (nth_index data x Hx) as (i0 & Hi0 & Hget).
    assert (Hxpos : finNonneg x).
    { rewrite Forall_forall in Hd. apply Hd, Hx. }
    assert (Hsum : JS.gt (autocorrAt data 0) JS.zero = true).
    { unfold autocorrAt.
      apply (sum_positive (fun i => JS.mul (TypedArray.get data i)
                                           (TypedArray.get data (i + 0)))).
      - intros i Hi. apply in_upto in Hi.
        apply finNonneg_mul; apply (get_cell finNonneg); try exact Hd; lia.
      - apply finNonneg_zero.
      - right. exists i0. split; [apply in_upto; lia|].
        rewrite Z.add_0_r, Hget.
        destruct x as [q| | |]; try contradiction.
        unfold JS.gt, JS.zero. jsimpl. qprop.
        assert (0 < q).
        { destruct (Qlt_le_dec 0 q); [assumption|].
          exfalso. apply Hnz. lra. }
        nra. }
    unfold JS.gt, JS.zero in Hsum.
    destruct (autocorrAt data 0); jsimpl; try discriminate; auto.
    apply negb_true_iff. qprop. lra.
Qed.

End BeatArrays.

(** ** The BPM detector: the search for the best lag *)

Section BeatSearch.

Import BPMDetector.

(** A [for] loop with an invariant: it stops at the first index that
    fails the condition, or when the turns are used up. *)
Lemma for_loop_run {S : Type} (cond : Z -> bool) (body : S -> Z -> S)
    (Inv : Z -> S -> Prop) (fuel : nat) :
  forall (i : Z) (s : S),
  Inv i s ->
  (forall k s', (i <= k)%Z -> cond k = true -> Inv k s' ->
                Inv (k + 1)%Z (body s' k)) ->
  exists stop,
    (i <= stop <= i + Z.of_nat fuel)%Z /\
    Inv stop (for_loop cond body i fuel s) /\
    (forall k, (i <= k < stop)%Z -> cond k = true) /\
    ((stop < i + Z.of_nat fuel)%Z -> cond stop = false).
Proof.
  induction fuel as [|fuel IH]; intros i s Hinv Hstep.
  - exists i. cbn [for_loop]. repeat split; try lia; auto; intros; lia.
  - cbn [for_loop]. destruct (cond i) eqn:E.
    + destruct (IH (i + 1)%Z (body s i)) as (stop & Hr & Hi & Hc & He).
      * apply Hstep; [lia | exact E | exact Hinv].
      * intros k s' Hk. apply Hstep. lia.
      * exists stop. split; [lia|]. split; [exact Hi|]. split.
        -- intros k Hk. destruct (Z.eq_dec k i) as [->|Hne]; [exact E|].
           apply Hc. lia.
        -- intros Hlt. apply He. lia.
    + exists i. split; [lia|]. split; [exact Hinv|]. split; [intros; lia|].
      intros _. exact E.
Qed.

Lemma ge_false_above (a b c : num) :
  JS.gt a b = false -> JS.gt c b = true -> JS.ge a c = false.
Proof.
  unfold JS.gt, JS.ge.
  destruct a, b, c; jsimpl; intros; try congruence; qprop; lra.
Qed.

Lemma le_zero_above (b c : num) :
  JS.le JS.zero b = true -> JS.gt c b = true ->
  JS.le JS.zero c = true /\ JS.gt c JS.zero = true.
Proof.
  unfold JS.gt, JS.zero.
  destruct b, c; jsimpl; intros; try congruence; auto.
  split; qprop; lra.
Qed.

Lemma le_ofZ_down (l l' : Z) (bound : num) :
  (l <= l')%Z -> JS.le (JS.ofZ l') bound = true ->
  JS.le (JS.ofZ l) bound = true.
Proof.
  intros Hle. destruct bound as [q| | |]; jsimpl; auto.
  intros H. qprop. rewrite Zle_Qle in Hle. lra.
Qed.

Lemma searchedTo_step (autocorr : TypedArray.t) (maxLag : num) (z k : Z)
    (st : num * Z) :
  (z <= k)%Z ->
  JS.le (JS.ofZ k) maxLag && (k <? TypedArray.length autocorr)%Z = true ->
  searchedTo autocorr maxLag z k st ->
  searchedTo autocorr maxLag z (k + 1) (consider autocorr st k).
Proof.
  intros Hzk Hcond (HA & HB & HC).
  apply andb_true_iff in Hcond as [Hle Hlen]. apply Z.ltb_lt in Hlen.
  unfold consider.
  destruct (JS.gt (TypedArray.get autocorr k) (fst st)) eqn:Egt.
  - destruct (isPeak autocorr k) eqn:Epk.
    + destruct (le_zero_above _ _ HA Egt) as [H0 Hpos].
      split; [exact H0|]. split.
      * right. cbn [fst snd]. repeat split; auto; try lia.
        intros l Hl Hp. eapply ge_false_above; [|exact Egt].
        apply HC; [lia | exact Hp].
      * cbn [fst]. intros l Hl Hp.
        destruct (Z.eq_dec l k) as [->|Hne]; [apply gt_irrefl|].
        eapply gt_false_above; [|exact Egt]. apply HC; [lia | exact Hp].
    + split; [exact HA|]. split.
      * destruct HB as [HB | (H1 & H2)]; [left; exact HB|].
        right. split; [lia | exact H2].
      * intros l Hl Hp.
        destruct (Z.eq_dec l k) as [->|Hne]; [congruence|].
        apply HC; [lia | exact Hp].
  - split; [exact HA|]. split.
    + destruct HB as [HB | (H1 & H2)]; [left; exact HB|].
      right. split; [lia | exact H2].
    + intros l Hl Hp.
      destruct (Z.eq_dec l k) as [->|Hne]; [exact Egt|].
      apply HC; [lia | exact Hp].
Qed.

Lemma findBestLag_ofZ (autocorr : TypedArray.t) (z : Z) (maxLag : num) :
  findBestLag autocorr (JS.ofZ z) maxLag =
  for_loop
    (fun lag => JS.le (JS.ofZ lag) maxLag
                && (lag <? TypedArray.length autocorr)%Z)
    (consider autocorr) z (Z.to_nat (TypedArray.length autocorr - z))
    (JS.zero, 0%Z).
Proof.
  unfold findBestLag. change (JS.ofZ z) with (Fin (inject_Z z)).
  cbv iota beta. now rewrite Qfloor_inject.
Qed.

(** What the search returns, for a lower bound that is an integer. *)
Lemma findBestLag_from (autocorr : TypedArray.t) (z : Z) (maxLag : num) :
  let st := findBestLag autocorr (JS.ofZ z) maxLag in
  JS.le JS.zero (fst st) = true /\
  (fst st = JS.zero \/
   exists k, (0 <= k < TypedArray.length autocorr)%Z /\
             fst st = TypedArray.get autocorr k) /\
  ((0 < snd st)%Z ->
   (z <= snd st)%Z /\
   JS.le (JS.ofZ (snd st)) maxLag = true /\
   (snd st < TypedArray.length autocorr)%Z /\
   fst st = TypedArray.get autocorr (snd st) /\
   isPeak autocorr (snd st) = true /\
   JS.gt (fst st) JS.zero = true /\
   forall l, (z <= l)%Z -> JS.le (JS.ofZ l) maxLag = true ->
             (l < TypedArray.length autocorr)%Z ->
             isPeak autocorr l = true ->
             JS.gt (TypedArray.get autocorr l) (fst st) = false /\
             ((l < snd st)%Z ->
              JS.ge (TypedArray.get autocorr l) (fst st) = false)).
Proof.
  rewrite findBestLag_ofZ.
  set (n := TypedArray.length autocorr).
  set (cond := fun lag => JS.le (JS.ofZ lag) maxLag && (lag <? n)%Z).
  destruct (for_loop_run cond (consider autocorr)
              (searchedTo autocorr maxLag z) (Z.to_nat (n - z))
              z (JS.zero, 0%Z)) as (stop & Hr & (HA & HB & HC) & Hc & He).
  { split; [reflexivity|]. split; [left; reflexivity|]. intros l Hl. lia. }
  { intros k s' Hk Hcond. apply searchedTo_step; assumption. }
  set (st := for_loop _ _ _ _ _) in *. cbv zeta.
  assert (Hall : forall l, (z <= l)%Z -> JS.le (JS.ofZ l) maxLag = true ->
                           (l < n)%Z -> (l < stop)%Z).
  { intros l Hzl Hle Hln.
    destruct (Z_lt_le_dec l stop) as [|Hge]; [assumption|]. exfalso.
    assert (Hs : (stop < z + Z.of_nat (Z.to_nat (n - z)))%Z) by lia.
    specialize (He Hs). unfold cond in He.
    rewrite (le_ofZ_down stop l maxLag Hge Hle) in He.
    apply andb_false_iff in He as [He | He]; [discriminate|].
    apply Z.ltb_ge in He. lia. }
  split; [exact HA|]. split.
  - destruct HB as [-> | (H1 & H2 & H3 & H4 & H5 & H6 & H7)];
      [left; reflexivity|].
    right. exists (snd st). split; [|exact H4].
    split; [|exact H3].
    destruct (Z_lt_le_dec (snd st) 0) as [Hneg|]; [|assumption].
    rewrite H4, get_outside in H6 by auto. discriminate H6.
  - intros Hpos.
    destruct HB as [HB | (H1 & H2 & H3 & H4 & H5 & H6 & H7)].
    { rewrite HB in Hpos. cbn [snd] in Hpos. lia. }
    split; [lia|]. split; [exact H2|]. split; [exact H3|].
    split; [exact H4|]. split; [exact H5|]. split; [exact H6|].
    intros l Hzl Hle Hln Hp. split.
    + apply HC; [|exact Hp]. split; [exact Hzl|]. now apply Hall.
    + intros Hlt. apply H7; [lia | exact Hp].
Qed.

End BeatSearch.

(** ** The BPM detector: its result *)

Section BeatResult.

Import BPMDetector.
Context {M : JS.Math} {L : JS.MathLaws M}.

Lemma detect_unfold_bpm (d : BPMDetector.t) (audioBuffer : AudioBuffer) :
  detect d audioBuffer =
  (oa <- onsetAutocorr d audioBuffer ;;
   let st := findBestLag (snd oa) (minLagOf d) (maxLagOf d) in
   Ok {| bpm :=
           if (snd st >? 0)%Z then
             Some (JS.round
                     (JS.div (JS.ofZ 60)
                        (JS.div (JS.mul (JS.ofZ (snd st)) (hopSizeOf d))
                                (sampleRate d))))
           else None;
         bpmConfidence :=
           JS.min (JS.div (fst st)
                          (JS.or (TypedArray.get (snd oa) 0) JS.one))
                  JS.one;
         beatPositions :=
           if (snd st >? 0)%Z
           then detectBeatPositions d (fst oa) (hopSizeOf d)
           else [] |}).
Proof.
  unfold detect. destruct (onsetAutocorr d audioBuffer) as [[diff a]|e];
    [|reflexivity].
  cbn [bind fst snd]. destruct (findBestLag a _ _) as [bc bl]. reflexivity.
Qed.

(** On finite samples at 100 Hz or more, the onset curve and so its
    autocorrelation hold finite numbers from zero up. *)
Lemma onsetAutocorr_finNonneg (d : BPMDetector.t) (audioBuffer : AudioBuffer)
    (sr : Q) (diff a : TypedArray.t) :
  sampleRate d = Fin sr -> 100 <= sr ->
  Forall (fun x => JS.is_fin x = true) (channelDataOf audioBuffer) ->
  onsetAutocorr d audioBuffer = Ok (diff, a) ->
  a = autocorrelate diff /\ Forall finNonneg diff.
Proof.
  intros Hsr Hbig Hfin.
  destruct (frame_sizes d sr Hsr Hbig) as (hop & ws & Hhop & Hws & H1 & H4).
  unfold onsetAutocorr. rewrite Hhop, Hws.
  destruct (numFrames_ofZ (TypedArray.length (channelDataOf audioBuffer))
              ws hop H1) as (nf & -> & _).
  destruct (calculateEnergyEnvelope _ _ _ _) as [envelope|e] eqn:E;
    [|discriminate].
  cbn [bind]. intros H. apply Ok_inj in H.
  assert (Hd : diff = differentiate envelope) by congruence.
  assert (Ha : a = autocorrelate (differentiate envelope)) by congruence.
  subst diff a. split; [reflexivity|].
  apply differentiate_finNonneg.
  eapply envelope_finNonneg; [exact Hfin | | | exact E]; lia.
Qed.

(** The lower lag bound is an integer, NaN or Infinity. *)
Lemma minLagOf_cases (d : BPMDetector.t) (sr : Q) :
  sampleRate d = Fin sr -> 100 <= sr ->
  (exists z, minLagOf d = JS.ofZ z) \/
  minLagOf d = NaN \/ minLagOf d = PInf.
Proof.
  intros Hsr Hbig.
  destruct (frame_sizes d sr Hsr Hbig) as (hop & ws & Hhop & _ & H1 & _).
  unfold minLagOf. rewrite Hhop, Hsr.
  assert (Hq : JS.div (Fin sr) (JS.ofZ hop)
               = Fin (Qred (sr / inject_Z hop))).
  { unfold JS.ofZ. cbn [JS.div]. now rewrite inject_Z_nonzero by lia. }
  rewrite Hq.
  assert (Hr : JS.Qltb 0 (Qred (sr / inject_Z hop)) = true).
  { apply Qltb_true. rewrite Qred_correct.
    apply Qlt_shift_div_l; [apply inject_Z_pos; lia | lra]. }
  destruct (maxBpm d) as [y| | |].
  - assert (Hd : JS.div (JS.ofZ 60) (Fin y)
                 = if Qeq_bool y 0 then PInf
                   else Fin (Qred (inject_Z 60 / y))).
    { unfold JS.ofZ. cbn [JS.div]. destruct (Qeq_bool y 0); reflexivity. }
    rewrite Hd. destruct (Qeq_bool y 0).
    + right. right. cbn [JS.signed_inf JS.mul JS.sign]. rewrite Hr.
      reflexivity.
    + left. eexists. reflexivity.
  - left. eexists. reflexivity.
  - left. eexists. reflexivity.
  - right. left. reflexivity.
Qed.

Lemma findBestLag_floor (autocorr : TypedArray.t) (q : Q) (maxLag : num) :
  findBestLag autocorr (Fin q) maxLag =
  findBestLag autocorr (JS.ofZ (Qfloor q)) maxLag.
Proof. rewrite findBestLag_ofZ. reflexivity. Qed.

(** The best confidence is zero or a cell of the autocorrelation. *)
Lemma findBestLag_value (autocorr : TypedArray.t) (minLag maxLag : num) :
  Forall finNonneg autocorr ->
  finNonneg (fst (findBestLag autocorr minLag maxLag)).
Proof.
  intros Ha.
  destruct minLag as [q| | |]; try apply finNonneg_zero.
  rewrite findBestLag_floor.
  destruct (findBestLag_from autocorr (Qfloor q) maxLag)
    as (_ & [-> | (k & Hk & ->)] & _); [apply finNonneg_zero|].
  now apply (get_cell finNonneg).
Qed.

(** The divisor of the confidence is a positive finite number. *)
Lemma confidence_divisor (autocorr : TypedArray.t) :
  Forall finNonneg autocorr ->
  exists p, JS.or (TypedArray.get autocorr 0) JS.one = Fin p /\ 0 < p.
Proof.
  intros Ha. unfold JS.or.
  assert (H : finNonneg (TypedArray.get autocorr 0)
              \/ TypedArray.get autocorr 0 = NaN).
  { apply (get_Forall (fun x => finNonneg x \/ x = NaN)); [|auto].
    eapply Forall_impl; [|exact Ha]. auto. }
  destruct H as [H | ->].
  - destruct (TypedArray.get autocorr 0) as [q| | |]; try contradiction.
    cbn [JS.truthy finNonneg] in *.
    destruct (Qeq_bool q 0) eqn:E; cbn [negb].
    + exists 1. split; [reflexivity | lra].
    + exists q. split; [reflexivity|]. qprop.
      destruct (Qlt_le_dec 0 q); [assumption|]. exfalso. apply E. lra.
  - exists 1. split; [reflexivity | lra].
Qed.

Lemma ratio_le_inUnit (q m : Q) :
  0 <= q <= m -> 0 < m -> inUnit (JS.div (Fin q) (Fin m)).
Proof.
  intros [Hq Hqm] Hm. cbn [JS.div].
  assert (E : Qeq_bool m 0 = false) by (apply Qeq_bool_false; lra).
  rewrite E. cbn [inUnit]. rewrite Qred_correct.
  split; [apply Qdiv_nonneg; assumption|].
  apply Qle_shift_div_r; [exact Hm | lra].
Qed.

Lemma ratio_inUnit (b p : Q) :
  0 <= b -> 0 < p -> inUnit (JS.min (JS.div (Fin b) (Fin p)) JS.one).
Proof.
  intros Hb Hp. cbn [JS.div].
  assert (E : Qeq_bool p 0 = false) by (apply Qeq_bool_false; lra).
  rewrite E. unfold JS.one. cbn [JS.min JS.lt].
  pose proof (Qdiv_nonneg b p Hb Hp) as Hq.
  destruct (JS.Qltb 1 (Qred (b / p))) eqn:E1; cbn [inUnit]; qprop; lra.
Qed.

(** The BPM confidence lies in [0, 1]. *)
Lemma bpm_confidence_unit (d : BPMDetector.t) (audioBuffer : AudioBuffer)
    (sr : Q) (r : BPMResult) :
  sampleRate d = Fin sr -> 100 <= sr ->
  Forall (fun x => JS.is_fin x = true) (channelDataOf audioBuffer) ->
  detect d audioBuffer = Ok r -> inUnit (bpmConfidence r).
Proof.
  intros Hsr Hbig Hfin. rewrite detect_unfold_bpm.
  destruct (onsetAutocorr d audioBuffer) as [[diff a]|e] eqn:E;
    [|discriminate].
  cbn [bind fst snd]. lazy zeta. intros H. apply Ok_inj in H. subst r.
  cbn [bpmConfidence].
  destruct (onsetAutocorr_finNonneg d audioBuffer sr diff a Hsr Hbig Hfin E)
    as [-> Hd].
  pose proof (autocorrelate_finNonneg diff Hd) as Ha.
  pose proof (findBestLag_value _ (minLagOf d) (maxLagOf d) Ha) as Hb.
  destruct (confidence_divisor _ Ha) as (p & -> & Hp).
  destruct (fst (findBestLag _ _ _)) as [b| | |]; try contradiction.
  now apply ratio_inUnit.
Qed.

(** The lag behind a reported BPM is the loudest peak of the band, and
    the BPM and the confidence are computed from it. *)
Lemma detect_selects (d : BPMDetector.t) (audioBuffer : AudioBuffer)
    (diff a : TypedArray.t) (r : BPMResult) (b : num) (sr : Q) :
  sampleRate d = Fin sr -> 100 <= sr ->
  Forall (fun x => JS.is_fin x = true) (channelDataOf audioBuffer) ->
  onsetAutocorr d audioBuffer = Ok (diff, a) ->
  detect d audioBuffer = Ok r ->
  bpm r = Some b ->
  exists bestLag : Z,
    (0 < bestLag)%Z /\
    loudestPeak d a bestLag /\
    b = JS.round
          (JS.div (JS.ofZ 60)
             (JS.div (JS.mul (JS.ofZ bestLag) (hopSizeOf d))
                     (sampleRate d))) /\
    bpmConfidence r =
      JS.min (JS.div (TypedArray.get a bestLag) (TypedArray.get a 0)) JS.one.
Proof.
  intros Hsr Hbig Hfin Hoa. rewrite detect_unfold_bpm, Hoa.
  cbn [bind fst snd]. lazy zeta. intros H. apply Ok_inj in H. subst r.
  cbn [bpm bpmConfidence].
  destruct (onsetAutocorr_finNonneg d audioBuffer sr diff a Hsr Hbig Hfin Hoa)
    as [Ha Hd].
  destruct (minLagOf_cases d sr Hsr Hbig) as [[z Hz] | [Hz | Hz]].
  2, 3: rewrite Hz; cbn [findBestLag snd Z.gtb Z.compare]; discriminate.
  unfold loudestPeak, inBand. rewrite Hz.
  destruct (findBestLag_from a z (maxLagOf d)) as (_ & _ & Hsel).
  cbv zeta in Hsel.
  set (st := findBestLag a (JS.ofZ z) (maxLagOf d)) in *.
  destruct (snd st >? 0)%Z eqn:Epos; [|discriminate].
  apply Z.gtb_lt in Epos.
  destruct (Hsel Epos) as (H1 & H2 & H3 & H4 & H5 & H6 & H7).
  intros Hb. injection Hb as <-.
  exists (snd st). split; [exact Epos|]. split; [|split; [reflexivity|]].
  - split.
    { rewrite ofZ_le, H2.
      assert (E1 : (z <=? snd st)%Z = true) by (apply Z.leb_le; lia).
      assert (E2 : (snd st <? TypedArray.length a)%Z = true)
        by (apply Z.ltb_lt; lia).
      now rewrite E1, E2. }
    split; [exact H5|]. split; [rewrite <- H4; exact H6|].
    intros lag Hin Hp.
    apply andb_true_iff in Hin as [Hin Hlen].
    apply andb_true_iff in Hin as [Hlo Hhi].
    rewrite ofZ_le in Hlo. apply Z.leb_le in Hlo. apply Z.ltb_lt in Hlen.
    rewrite <- H4. apply H7; assumption.
  - f_equal. rewrite H4. f_equal.
    unfold JS.or.
    assert (Ht : JS.truthy (TypedArray.get a 0) = true).
    { subst a. rewrite autocorrelate_length in H3.
      rewrite autocorrelate_get by lia.
      apply (energy_not_zero diff (snd st) Hd); [lia|].
      rewrite <- autocorrelate_get by lia. rewrite <- H4. exact H6. }
    now rewrite Ht.
Qed.

End BeatResult.

(** ** The BPM detector against the words of the specification *)


Section BeatSpec.
Import BPMDetector.









End BeatSpec.

Section BeatSpecResult.
Import BPMDetector.
Context {M : JS.Math} {L : JS.MathLaws M}.


End BeatSpecResult.

(** ** The chromagram *)

Section Chroma.

Import ChordRecognizer.
Context {M : JS.Math}.

Lemma accumulate_finNonneg (frequencyData : list Byte.byte) (nyquist : num)
    (chromagram : TypedArray.t) (i : Z) :
  Forall finNonneg chromagram ->
  Forall finNonneg (accumulate frequencyData nyquist chromagram i).
Proof.
  intros Hc. unfold accumulate. lazy zeta.
  destruct (JS.gt _ JS.zero); [|exact Hc].
  destruct (_ && _); [|exact Hc].
  unfold TypedArray.set_num, TypedArray.get_num.
  destruct (JS.toIndex _) as [k|]; [|exact Hc].
  destruct (Z_lt_le_dec k 0) as [Hneg|Hnn].
  { rewrite set_outside by auto. exact Hc. }
  destruct (Z_lt_le_dec k (TypedArray.length chromagram)) as [Hlt|Hge].
  - apply Forall_set; [exact Hc|].
    apply finNonneg_add; [apply (get_cell finNonneg); [exact Hc | lia]|].
    unfold TypedArray.u8, JS.ofZ. cbn [finNonneg].
    change 0 with (inject_Z 0). rewrite <- Zle_Qle. lia.
  - rewrite set_outside by auto. exact Hc.
Qed.

Lemma accumulate_length (frequencyData : list Byte.byte) (nyquist : num)
    (chromagram : TypedArray.t) (i : Z) :
  TypedArray.length (accumulate frequencyData nyquist chromagram i)
  = TypedArray.length chromagram.
Proof.
  unfold accumulate. lazy zeta.
  destruct (JS.gt _ JS.zero); [|reflexivity].
  destruct (_ && _); [|reflexivity].
  unfold TypedArray.set_num. destruct (JS.toIndex _); [|reflexivity].
  apply set_length.
Qed.

(** [Math.max(...xs)] is a cell that no cell exceeds. *)
Lemma max_fold (xs : list num) (acc : Q) :
  Forall finNonneg xs -> 0 <= acc ->
  exists m, fold_left JS.max xs (Fin acc) = Fin m /\ acc <= m /\
            Forall (fun x => exists q, x = Fin q /\ q <= m) xs.
Proof.
  intros Hxs. revert acc.
  induction Hxs as [|x xs Hx Hxs IH]; intros acc Hacc; cbn [fold_left].
  - exists acc. split; [reflexivity|]. split; [lra | constructor].
  - destruct x as [q| | |]; try contradiction. cbn [finNonneg] in Hx.
    cbn [JS.max JS.lt].
    destruct (JS.Qltb acc q) eqn:E; qprop.
    + destruct (IH q Hx) as (m & Hm & Hle & Hall).
      exists m. split; [exact Hm|]. split; [lra|].
      constructor; [exists q; split; [reflexivity | exact Hle] | exact Hall].
    + destruct (IH acc Hacc) as (m & Hm & Hle & Hall).
      exists m. split; [exact Hm|]. split; [exact Hle|].
      constructor; [exists q; split; [reflexivity | lra] | exact Hall].
Qed.

Lemma max_list_spec (xs : list num) :
  Forall finNonneg xs -> xs <> [] ->
  exists m, JS.max_list xs = Fin m /\ 0 <= m /\
            Forall (fun x => exists q, x = Fin q /\ 0 <= q <= m) xs.
Proof.
  intros Hxs Hne. destruct xs as [|x xs]; [contradiction|].
  inversion Hxs as [|? ? Hx Hxs']; subst.
  destruct x as [q| | |]; try contradiction. cbn [finNonneg] in Hx.
  unfold JS.max_list. cbn [fold_left JS.max JS.lt].
  destruct (max_fold xs q Hxs' Hx) as (m & Hm & Hle & Hall).
  exists m. split; [exact Hm|]. split; [lra|].
  constructor; [exists q; split; [reflexivity | lra]|].
  rewrite Forall_forall in *. intros y Hy.
  destruct (Hall y Hy) as (r & -> & Hr). exists r.
  split; [reflexivity|]. specialize (Hxs' _ Hy). cbn [finNonneg] in Hxs'.
  lra.
Qed.

(** A loop that rewrites each cell from its own value. *)
Lemma update_length (g : num -> num) (idxs : list Z) (a0 : TypedArray.t) :
  TypedArray.length
    (fold_left (fun c k => TypedArray.set c k (g (TypedArray.get c k)))
               idxs a0)
  = TypedArray.length a0.
Proof.
  revert a0. induction idxs as [|k idxs IH]; intros a0; simpl; auto.
  now rewrite IH, set_length.
Qed.

Lemma update_untouched (g : num -> num) (n : nat) (a0 : TypedArray.t)
    (i : Z) :
  (Z.of_nat n <= i)%Z ->
  TypedArray.get
    (fold_left (fun c k => TypedArray.set c k (g (TypedArray.get c k)))
               (upto n) a0) i
  = TypedArray.get a0 i.
Proof.
  induction n as [|n IH]; intros Hi; [reflexivity|].
  rewrite upto_S, fold_left_app. cbn [fold_left].
  rewrite get_set_other by lia. apply IH. lia.
Qed.

Lemma update_get (g : num -> num) (n : nat) (a0 : TypedArray.t) (i : Z) :
  (0 <= i < Z.of_nat n)%Z -> (i < TypedArray.length a0)%Z ->
  TypedArray.get
    (fold_left (fun c k => TypedArray.set c k (g (TypedArray.get c k)))
               (upto n) a0) i
  = g (TypedArray.get a0 i).
Proof.
  induction n as [|n IH]; intros Hi Hlen; [lia|].
  rewrite upto_S, fold_left_app. cbn [fold_left].
  destruct (Z.eq_dec i (Z.of_nat n)) as [->|Hne].
  - rewrite get_set_same by (rewrite update_length; lia).
    rewrite update_untouched by lia. reflexivity.
  - rewrite get_set_other by congruence. apply IH; lia.
Qed.

Lemma Forall_get (P : num -> Prop) (a : TypedArray.t) :
  (forall i, (0 <= i < TypedArray.length a)%Z -> P (TypedArray.get a i)) ->
  Forall P a.
Proof.
  intros H. apply Forall_forall. intros x Hx.
  destruct (nth_index a x Hx) as (i & Hi & <-). now apply H.
Qed.

Lemma normalize_inUnit (chromagram : TypedArray.t) :
  TypedArray.length chromagram = 12%Z ->
  Forall finNonneg chromagram ->
  TypedArray.length (normalize chromagram) = 12%Z /\
  Forall inUnit (normalize chromagram).
Proof.
  intros Hlen Hc.
  assert (Hne : chromagram <> []).
  { intros ->. discriminate Hlen. }
  destruct (max_list_spec chromagram Hc Hne) as (m & Hm & Hm0 & Hall).
  unfold normalize. lazy zeta. rewrite Hm.
  destruct (JS.gt (Fin m) JS.zero) eqn:E.
  - split; [now rewrite (update_length (fun x => JS.div x (Fin m)))|].
    apply Forall_get. intros i Hi.
    rewrite (update_length (fun x => JS.div x (Fin m))) in Hi.
    rewrite (update_get (fun x => JS.div x (Fin m))) by lia.
    pose proof (get_cell _ chromagram i Hall Hi) as (q & -> & Hq0 & Hqm).
    unfold JS.gt, JS.zero in E. cbn [JS.lt] in E. qprop.
    now apply (ratio_le_inUnit q m).
  - split; [exact Hlen|].
    unfold JS.gt, JS.zero in E. cbn [JS.lt] in E. qprop.
    eapply Forall_impl; [|exact Hall].
    intros x (q & -> & Hq0 & Hqm). cbn [inUnit]. lra.
Qed.

Lemma calculateChromagram_inUnit (frequencyData : list Byte.byte)
    (sampleRate : num) :
  TypedArray.length (calculateChromagram frequencyData sampleRate) = 12%Z /\
  Forall inUnit (calculateChromagram frequencyData sampleRate).
Proof.
  unfold calculateChromagram. lazy zeta.
  match goal with |- context [normalize ?c] =>
    assert (H : TypedArray.length c = 12%Z /\ Forall finNonneg c)
  end.
  { apply fold_left_inv.
    - split; [reflexivity|]. apply Forall_repeat, finNonneg_zero.
    - intros c i _ [Hl Hc]. split.
      + now rewrite accumulate_length.
      + now apply accumulate_finNonneg. }
  destruct H as [Hl Hc]. now apply normalize_inUnit.
Qed.

End Chroma.
(** C4.  For a detector with positive frequency bounds (so that the
    search starts at a lag that is not -Infinity and the arrays have a
    length that is not negative), whenever the normalised difference
    [cmndf] was computed: if no lag in [minLag, maxLag) has a value below
    the threshold, the detector returns no pitch; and if [t0] is the
    first lag in range below the threshold and [tau] the local minimum
    the walk from [t0] settles on, the detector returns the frequency
    sampleRate / refinedTau with the confidence 1 - cmndf[tau], or no
    pitch when that frequency lies outside
    [minFrequency, maxFrequency]. *)
Theorem yin_threshold_search (d : YINDetector.t) (buffer cmndf : TypedArray.t)
    (sr : Q) :
  YINDetector.sampleRate d = Fin sr -> 0 <= sr ->
  JS.gt (YINDetector.minFrequency d) JS.zero = true ->
  JS.gt (YINDetector.maxFrequency d) JS.zero = true ->
  cmndfOf d buffer = Ok cmndf ->
  ((forall tau, inLagRange d buffer tau = true -> below d cmndf tau = false)
   -> YINDetector.detect d buffer = Ok None) /\
  (forall t0 tau,
      inLagRange d buffer t0 = true -> below d cmndf t0 = true ->
      (forall t, inLagRange d buffer t = true -> (t < t0)%Z ->
                 below d cmndf t = false) ->
      (t0 <= tau)%Z ->
      (forall t, (t0 <= t < tau)%Z ->
                 descends cmndf (pitchMaxLag d buffer) t = true) ->
      descends cmndf (pitchMaxLag d buffer) tau = false ->
      let refinedTau := YINDetector.parabolicInterpolation cmndf tau in
      let frequency := JS.div (YINDetector.sampleRate d) refinedTau in
      let confidence := JS.sub JS.one (TypedArray.get cmndf tau) in
      YINDetector.detect d buffer =
      Ok (if JS.lt frequency (YINDetector.minFrequency d)
             || JS.gt frequency (YINDetector.maxFrequency d)
          then None
          else Some {| frequency := frequency;
                       pitchConfidence := confidence |})).
Proof.
  intros Hsr Hpos _ _ Hc.
  exact (threshold_search_spec d buffer cmndf sr Hsr Hpos Hc).
Qed.

(** C3, as the code has it.  On an all-zero window that is not empty the
    volume is 0.  On an all-zero window of any length, the empty one
    included, the YIN detector returns no pitch (sample rate not negative,
    minimum and maximum frequency positive, threshold not above 1).  On an
    all-zero buffer of at least one analysis window the BPM detector
    returns no BPM, with confidence 0 and no beat (sample rate of 100 Hz
    or more, maximum tempo positive).  The chord recognizer has no "none"
    result for silence: on the all-zero chromagram it returns C major
    with confidence 0. *)
Theorem silence_is_handled (M : JS.Math) (L : JS.MathLaws M) :
  (forall n : nat,
      (0 < n)%nat ->
      AudioAnalyzer.calculateVolume (repeat JS.zero n) = JS.zero) /\
  (forall (d : YINDetector.t) (n : nat) (sr : Q),
      YINDetector.sampleRate d = Fin sr -> 0 <= sr ->
      JS.gt (YINDetector.minFrequency d) JS.zero = true ->
      JS.gt (YINDetector.maxFrequency d) JS.zero = true ->
      JS.gt (YINDetector.threshold d) JS.one = false ->
      YINDetector.detect d (repeat JS.zero n) = Ok None) /\
  (forall (d : BPMDetector.t) (audioBuffer : AudioBuffer) (sr : Q)
          (n : nat) (ws : Z),
      BPMDetector.sampleRate d = Fin sr -> 100 <= sr ->
      JS.gt (BPMDetector.maxBpm d) JS.zero = true ->
      BPMDetector.channelDataOf audioBuffer = repeat JS.zero n ->
      BPMDetector.windowSizeOf d = JS.ofZ ws -> (ws <= Z.of_nat n)%Z ->
      BPMDetector.detect d audioBuffer =
      Ok {| bpm := None; bpmConfidence := JS.zero; beatPositions := [] |}) /\
  ChordRecognizer.recognize Samples.silence = Some (Samples.cMajor JS.zero).
Proof.
  split; [exact volume_silent|].
  split.
  { intros d n sr Hsr Hpos Hmin _ Hthr.
    apply (detect_silent d n sr Hsr Hpos); [|exact Hthr].
    now apply positive_not_below. }
  split.
  { intros d audioBuffer sr n ws Hsr Hbig _.
    exact (detect_silent_buffer d audioBuffer sr n ws Hsr Hbig). }
  vm_compute. reflexivity.
Qed.

Lemma silence_is_handled_witness :
  @AudioAnalyzer.calculateVolume Samples.fixedPoint (repeat JS.zero 4)
    = JS.zero /\
  YINDetector.detect (Samples.yinDefault 44100) (repeat JS.zero 8) = Ok None /\
  @BPMDetector.detect Samples.fixedPoint (Samples.bpmDefault 44100)
    Samples.silentClip =
  Ok {| bpm := None; bpmConfidence := JS.zero; beatPositions := [] |}.
Proof.
  destruct (silence_is_handled Samples.fixedPoint fixedPoint_laws)
    as (Hv & Hy & Hb & _).
  split; [apply Hv; lia|].
  split.
  - apply (Hy (Samples.yinDefault 44100) 8%nat 44100);
      [reflexivity | discriminate | reflexivity | reflexivity
       | reflexivity].
  - apply (Hb (Samples.bpmDefault 44100) Samples.silentClip 44100
              2000%nat 1764%Z);
      [reflexivity | discriminate | reflexivity | reflexivity
       | reflexivity | lia].
Defined.

(** C3 fails as stated: the chord recognizer does not return "none" for
    the all-zero chromagram; it returns the chord C major. *)
Lemma silent_chromagram_yields_a_chord :
  ChordRecognizer.recognize Samples.silence = Some (Samples.cMajor JS.zero)
  /\ ChordRecognizer.recognize Samples.silence <> None.
Proof.
  assert (H : ChordRecognizer.recognize Samples.silence
              = Some (Samples.cMajor JS.zero)) by (vm_compute; reflexivity).
  split; [exact H|]. rewrite H. discriminate.
Qed.

(** C7.  The YIN detector runs to completion on every window, whatever
    its length and content (sample rate not negative, minimum and maximum
    frequency positive).  The BPM detector does not: on a buffer shorter
    than one analysis window (40 ms) the frame count is negative and the
    allocation of the envelope throws a RangeError; so it does on the
    1000-sample clip at 44100 Hz. *)
Theorem detect_completion :
  (forall (d : YINDetector.t) (buffer : TypedArray.t) (sr : Q),
      YINDetector.sampleRate d = Fin sr -> 0 <= sr ->
      JS.gt (YINDetector.minFrequency d) JS.zero = true ->
      JS.gt (YINDetector.maxFrequency d) JS.zero = true ->
      exists r, YINDetector.detect d buffer = Ok r) /\
  (forall (M : JS.Math) (d : BPMDetector.t) (audioBuffer : AudioBuffer)
          (sr : Q) (ws : Z),
      BPMDetector.sampleRate d = Fin sr -> 100 <= sr ->
      BPMDetector.windowSizeOf d = JS.ofZ ws ->
      (TypedArray.length (BPMDetector.channelDataOf audioBuffer) < ws)%Z ->
      BPMDetector.detect d audioBuffer = Throw RangeError) /\
  (forall M : JS.Math,
      @BPMDetector.detect M (Samples.bpmDefault 44100) Samples.shortClip
      = Throw RangeError).
Proof.
  split; [|split].
  - intros d buffer sr Hsr Hpos Hmin _.
    destruct (cmndfOf_ok d buffer sr Hsr Hpos (positive_not_below _ Hmin))
      as [cmndf Hc].
    rewrite detect_unfold, Hc. cbn [bind]. lazy zeta.
    destruct (_ =? -1)%Z; eauto.
  - intros M d audioBuffer sr ws. apply detect_short_buffer.
  - intros M.
    apply (detect_short_buffer (Samples.bpmDefault 44100) Samples.shortClip
             44100 1764); [reflexivity | discriminate | reflexivity|].
    vm_compute. reflexivity.
Qed.

(** [forallb] decides finiteness of the cells of a concrete buffer. *)
Lemma all_fin (a : TypedArray.t) :
  forallb JS.is_fin a = true -> Forall (fun x => JS.is_fin x = true) a.
Proof. intros H. apply Forall_forall. now apply forallb_forall. Qed.

(** Nominal samples are finite, and [forallb] decides that the samples of
    a concrete buffer are nominal. *)
Lemma nominal_fin (a : TypedArray.t) :
  Forall nominal a -> Forall (fun x => JS.is_fin x = true) a.
Proof.
  intros H. eapply Forall_impl; [|exact H].
  intros [q| | |]; cbn; intros Hq; try contradiction. reflexivity.
Qed.

Lemma all_nominal (a : TypedArray.t) :
  forallb nominalb a = true -> Forall nominal a.
Proof.
  intros H. apply Forall_forall. intros x Hx.
  pose proof (proj1 (forallb_forall nominalb a) H x Hx) as Hb.
  destruct x as [q| | |]; cbn in Hb; try discriminate.
  apply andb_true_iff in Hb as [H1 H2].
  apply Qle_bool_iff in H1. apply Qle_bool_iff in H2.
  split; assumption.
Qed.

Lemma yin_threshold_search_witness :
  YINDetector.detect (Samples.yinDefault 12000) Samples.square =
  Ok (Some {| frequency := Fin (33600 # 11); pitchConfidence := Fin 1 |}).
Proof.
  assert (Hc : cmndfOf (Samples.yinDefault 12000) Samples.square
               = Ok Samples.squareCmndf) by (vm_compute; reflexivity).
  assert (Hpos : 0 <= 12000) by discriminate.
  destruct (yin_threshold_search (Samples.yinDefault 12000) Samples.square
              Samples.squareCmndf 12000 eq_refl Hpos eq_refl eq_refl Hc)
    as [_ H].
  specialize (H 4%Z 4%Z).
  refine (H _ _ _ _ _ _); clear H.
  - vm_compute. reflexivity.
  - vm_compute. reflexivity.
  - intros t Hin Hlt. unfold inLagRange in Hin.
    apply andb_true_iff in Hin as [Hlo _].
    change (pitchMinLag (Samples.yinDefault 12000)) with (JS.ofZ 2) in Hlo.
    rewrite ofZ_le in Hlo. apply Z.leb_le in Hlo.
    assert (Ht : t = 2%Z \/ t = 3%Z) by lia.
    destruct Ht as [-> | ->]; vm_compute; reflexivity.
  - lia.
  - intros t Ht. lia.
  - vm_compute. reflexivity.
Defined.




(** X27.  For every result of the advanced analysis of a buffer of
    samples in [-1, 1] at 100 Hz or more: the chromagram has 12 values in
    [0, 1], the BPM confidence lies in [0, 1], a returned chord has the
    root and the quality of one of the six templates, and the pitch
    confidence lies in [0, 1] provided the configured YIN threshold is
    not above 1. *)
Theorem advanced_result_ranges (M : JS.Math) (L : JS.MathLaws M)
    (a : AudioAnalyzer.t) (audioBuffer : AudioBuffer)
    (waveformData : TypedArray.t) (frequencyData : list Byte.byte)
    (adv : AdvancedAnalysisResult) (sr : Q) :
  ab_sampleRate audioBuffer = Fin sr -> 100 <= sr ->
  Forall nominal (BPMDetector.channelDataOf audioBuffer) ->
  JS.gt (YINDetector.threshold (AudioAnalyzer.yinDetector a)) JS.one = false ->
  AudioAnalyzer.analyzeAdvanced a audioBuffer waveformData frequencyData
    = Ok adv ->
  TypedArray.length (adv_chromagram adv) = 12%Z /\
  Forall inUnit (adv_chromagram adv) /\
  inUnit (adv_bpmConfidence adv) /\
  inUnit (adv_pitchConfidence adv) /\
  (forall ch, adv_chord adv = Some ch ->
     exists rootIndex ty iv,
       (0 <= rootIndex < 12)%Z /\ In (ty, iv) CHORD_TEMPLATES /\
       root ch = noteName rootIndex /\
       type ch = ChordRecognizer.formatChordType ty /\
       notes ch =
         map (fun interval => noteName (Z.rem (rootIndex + interval) 12)) iv).
Proof.
  intros Hsr Hbig Hnom Hthr. pose proof (nominal_fin _ Hnom) as Hfin.
  unfold AudioAnalyzer.analyzeAdvanced.
  destruct (YINDetector.detect _ waveformData) as [pitchResult|e] eqn:Ep;
    [|discriminate].
  cbn [bind]. unfold AudioAnalyzer.performAdvancedAnalysis.
  destruct (BPMDetector.detect _ audioBuffer) as [bpmResult|e] eqn:Eb;
    [|discriminate].
  cbn [bind]. intros H. apply Ok_inj in H. subst adv.
  cbn [adv_chromagram adv_bpmConfidence adv_pitchConfidence adv_chord].
  destruct (calculateChromagram_inUnit frequencyData
              (ab_sampleRate audioBuffer)) as [Hlen Hunit].
  split; [exact Hlen|]. split; [exact Hunit|]. split; [|split].
  - match type of Eb with BPMDetector.detect ?d _ = _ =>
      apply (@bpm_confidence_unit M L d audioBuffer sr bpmResult)
    end; [exact Hsr | exact Hbig | exact Hfin | exact Eb].
  - destruct pitchResult as [p|]; cbn [AudioAnalyzer.confidenceOf].
    + eapply detect_confidence_unit; eauto.
    + simpl. lra.
  - intros ch Hch.
    destruct (recognize_some _ ch Hch) as (r & ty & iv & Hr & Hin & _ & ->).
    exists r, ty, iv. repeat split; auto; lia.
Qed.

Lemma advanced_result_ranges_witness :
  Forall inUnit (adv_chromagram Samples.rampAdvanced) /\
  inUnit (adv_bpmConfidence Samples.rampAdvanced) /\
  inUnit (adv_pitchConfidence Samples.rampAdvanced).
Proof.
  assert (Hbig : 100 <= 16000) by discriminate.
  assert (Hfin : Forall nominal
                        (BPMDetector.channelDataOf Samples.rampClip)).
  { apply all_nominal. vm_compute. reflexivity. }
  assert (Hrun : @AudioAnalyzer.analyzeAdvanced Samples.fixedPoint
                   Samples.defaultAnalyzer Samples.rampClip
                   Samples.rampWindow Samples.spectrum16
                 = Ok Samples.rampAdvanced) by (vm_compute; reflexivity).
  destruct (advanced_result_ranges Samples.fixedPoint fixedPoint_laws
              Samples.defaultAnalyzer Samples.rampClip Samples.rampWindow
              Samples.spectrum16 Samples.rampAdvanced 16000
              eq_refl Hbig Hfin eq_refl Hrun) as (_ & H1 & H2 & H3 & _).
  auto.
Defined.

(** C6.  The pitch confidence is documented as a value from 0 to 1, and
    the code does not keep it there: the constructor accepts a YIN
    threshold of 5, and with it the advanced analysis of a slow ramp
    returns the pitch confidence -13/14, below zero. *)
Lemma pitch_confidence_can_be_negative :
  exists (a : AudioAnalyzer.t) (adv : AdvancedAnalysisResult),
    @AudioAnalyzer.constructor Samples.webAudio (JS.ofZ 16000)
      Samples.thresholdFive = Ok a /\
    @AudioAnalyzer.analyzeAdvanced Samples.fixedPoint a Samples.rampClip
      Samples.rampWindow Samples.spectrum16 = Ok adv /\
    adv_pitchConfidence adv = Fin (-13 # 14) /\
    JS.lt (adv_pitchConfidence adv) JS.zero = true.
Proof.
  eexists. eexists.
  split; [vm_compute; reflexivity|].
  split; [vm_compute; reflexivity|].
  split; vm_compute; reflexivity.
Qed.

(* ====================================================================== *)
(** * Part III: further properties                                        *)
(* ====================================================================== *)

(** ** Note names, both ways *)


Section NoteTexts.
Import NoteMapper.
Open Scope Z_scope.

Lemma sliceInit_sliceLast (s : string) :
  s = String.append (sliceInit s) (sliceLast s).
Proof.
  induction s as [|c s IH]; [reflexivity|].
  destruct s as [|c' s']; [reflexivity|].
  change (sliceInit (String c (String c' s')))
    with (String c (sliceInit (String c' s'))).
  change (sliceLast (String c (String c' s'))) with (sliceLast (String c' s')).
  cbn [String.append]. now rewrite <- IH.
Qed.

Lemma parseInt_digit (s : string) (o : Z) :
  parseInt s = Some o -> 0 <= o <= 9 /\ s = showZ o.
Proof.
  destruct s as [|c [|c' s']]; try discriminate.
  destruct c as [[|] [|] [|] [|] [|] [|] [|] [|]]; vm_compute;
    intros H; try discriminate H; injection H as <-; split;
    try reflexivity; split; discriminate.
Qed.

Lemma indexOf_name (x : string) :
  indexOf NOTE_NAMES x <> -1 ->
  0 <= indexOf NOTE_NAMES x < 12 /\ noteName (indexOf NOTE_NAMES x) = x.
Proof.
  unfold indexOf, NOTE_NAMES. cbn [indexOfFrom].
  repeat (match goal with
          | |- context [String.eqb ?a x] =>
              destruct (String.eqb a x) eqn:E;
              [apply String.eqb_eq in E; subst x; intros _;
               split; [lia | reflexivity] | clear E]
          end).
  cbn. congruence.
Qed.


Lemma in_pitchesOfOctaves (i o : Z) :
  0 <= i < 12 -> 0 <= o <= 9 -> In (i, o) pitchesOfOctaves.
Proof.
  intros Hi Ho. unfold pitchesOfOctaves. apply in_flat_map.
  exists i. split; [apply zrange_in; lia|].
  apply in_map, zrange_in. lia.
Qed.

Lemma texts_indexed (i o : Z) :
  0 <= i < 12 -> 0 <= o <= 9 ->
  noteText i o = nameOfIndex (12 * (o + 1) + i).
Proof.
  intros Hi Ho.
  assert (Hall : forallb textIsIndexed pitchesOfOctaves = true)
    by (vm_compute; reflexivity).
  rewrite forallb_forall in Hall.
  specialize (Hall (i, o) (in_pitchesOfOctaves i o Hi Ho)).
  now apply String.eqb_eq in Hall.
Qed.

(** The strings [noteToFrequency] reads, and what it reads from them. *)
Lemma semitones_domain (s : string) (k : Z) :
  semitonesOfNote s = Ok k <->
  exists i o, 0 <= i < 12 /\ 0 <= o <= 9 /\ s = noteText i o /\
              k = i + (o - 4) * 12 - 9.
Proof.
  split.
  - unfold semitonesOfNote.
    destruct (parseInt (sliceLast s)) as [o|] eqn:Eo; [|discriminate].
    destruct (indexOf NOTE_NAMES (sliceInit s) =? -1) eqn:Ei; [discriminate|].
    intros H. apply Ok_inj in H.
    apply Z.eqb_neq in Ei. apply indexOf_name in Ei as [Hi Hname].
    apply parseInt_digit in Eo as [Ho Hlast].
    exists (indexOf NOTE_NAMES (sliceInit s)), o.
    repeat split; try lia.
    unfold noteText. rewrite Hname, <- Hlast. apply sliceInit_sliceLast.
  - intros (i & o & Hi & Ho & -> & ->).
    rewrite (texts_indexed i o Hi Ho), name_reads_back by lia.
    f_equal. lia.
Qed.

(** X2.  [noteToFrequency] returns a frequency for exactly the 120
    strings made of a note name and one octave digit from 0 to 9, and the
    frequency of pitch class [i] in octave [o] is
    440 * 2^((i + 12 (o - 4) - 9) / 12); on every other string it
    throws. *)
Theorem noteToFrequency_domain (s : string) (f : R) :
  noteToFrequency s = Ok f <->
  exists i o, 0 <= i < 12 /\ 0 <= o <= 9 /\ s = noteText i o /\
              f = (440 * Rpower 2 (IZR (i + (o - 4) * 12 - 9) / 12))%R.
Proof.
  unfold noteToFrequency. split.
  - destruct (semitonesOfNote s) as [k|e] eqn:E; [|discriminate].
    cbn [bind]. intros H. apply Ok_inj in H.
    apply semitones_domain in E as (i & o & Hi & Ho & Hs & Hk).
    exists i, o. repeat split; try lia; try assumption. now subst.
  - intros (i & o & Hi & Ho & Hs & ->).
    assert (E : semitonesOfNote s = Ok (i + (o - 4) * 12 - 9)).
    { apply semitones_domain. exists i, o. repeat split; try lia. exact Hs. }
    rewrite E. reflexivity.
Qed.

Lemma noteIndexOf_tone (k : Z) :
  noteIndexOf (440 * Rpower 2 (IZR k / 12)) = k + 69.
Proof.
  unfold noteIndexOf.
  replace (440 * Rpower 2 (IZR k / 12) / 440)%R with (Rpower 2 (IZR k / 12))
    by (field).
  rewrite log2_Rpower.
  replace (12 * (IZR k / 12))%R with (IZR k) by field.
  now rewrite Math_round_IZR.
Qed.

(** X1.  [frequencyToNote] inverts [noteToFrequency]: whenever
    [noteToFrequency] reads a string, [frequencyToNote] of the frequency
    it returns is that very string. *)
Theorem note_name_round_trip (s : string) (f : R) :
  noteToFrequency s = Ok f -> frequencyToNote f = s.
Proof.
  unfold noteToFrequency.
  destruct (semitonesOfNote s) as [k|e] eqn:E; [|discriminate].
  cbn [bind]. intros H. apply Ok_inj in H. subst f.
  apply semitones_domain in E as (i & o & Hi & Ho & -> & ->).
  rewrite frequencyToNote_index.
  change (Math_round _ + 69) with
    (noteIndexOf (440 * Rpower 2 (IZR (i + (o - 4) * 12 - 9) / 12))).
  rewrite noteIndexOf_tone, (texts_indexed i o Hi Ho).
  f_equal. lia.
Qed.

Lemma note_name_round_trip_witness :
  exists f, noteToFrequency "F#3" = Ok f /\ frequencyToNote f = "F#3".
Proof.
  eexists. split; [reflexivity|].
  apply note_name_round_trip. reflexivity.
Defined.


Lemma log2_double (x : R) :
  (0 < x)%R -> Math_log2 (2 * x) = (1 + Math_log2 x)%R.
Proof.
  intros Hx. unfold Math_log2. rewrite ln_mult by lra.
  field. pose proof ln2_pos. lra.
Qed.

Lemma Math_round_shift (x : R) (k : Z) :
  Math_round (x + IZR k) = Math_round x + k.
Proof.
  unfold Math_round. symmetry. apply Int_part_spec.
  pose proof (base_Int_part (x + / 2)) as [H1 H2].
  rewrite plus_IZR. lra.
Qed.

Lemma noteIndexOf_double (f : R) :
  (0 < f)%R -> noteIndexOf (2 * f) = noteIndexOf f + 12.
Proof.
  intros Hf. unfold noteIndexOf.
  replace (2 * f / 440)%R with (2 * (f / 440))%R by field.
  rewrite log2_double by lra.
  replace (12 * (1 + Math_log2 (f / 440)))%R
    with (12 * Math_log2 (f / 440) + IZR 12)%R by (simpl; lra).
  rewrite Math_round_shift. lia.
Qed.

Lemma noteIndexOf_mono (f g : R) :
  (0 < f)%R -> (f <= g)%R -> noteIndexOf f <= noteIndexOf g.
Proof.
  intros Hf Hfg. unfold noteIndexOf.
  assert (H : (12 * Math_log2 (f / 440) <= 12 * Math_log2 (g / 440))%R).
  { apply Rmult_le_compat_l; [lra|]. apply log2_mono; lra. }
  pose proof (Math_round_near (12 * Math_log2 (f / 440))) as [H1 H2].
  pose proof (Math_round_near (12 * Math_log2 (g / 440))) as [H3 H4].
  assert (H5 : (IZR (Math_round (12 * Math_log2 (f / 440))) - 1
                < IZR (Math_round (12 * Math_log2 (g / 440))))%R) by lra.
  rewrite <- minus_IZR in H5. apply lt_IZR in H5. lia.
Qed.

Lemma noteIndexOf_octave_of_A (n : nat) :
  noteIndexOf (440 / 2 ^ n) = 69 - 12 * Z.of_nat n.
Proof.
  replace (440 / 2 ^ n)%R
    with (440 * Rpower 2 (IZR (- (12 * Z.of_nat n)) / 12))%R.
  - rewrite noteIndexOf_tone. lia.
  - rewrite opp_IZR, mult_IZR, <- INR_IZR_INZ.
    replace (- (12 * INR n) / 12)%R with (- INR n)%R by (simpl; field).
    rewrite Rpower_Ropp, Rpower_2_nat. reflexivity.
Qed.

(** X3.  For a frequency from 27.5 Hz to 20 kHz that lies within 0.49
    semitones of a note, doubling the frequency keeps the note name
    [frequencyToNote] gives and raises its octave by one. *)
Theorem doubling_raises_octave (f : R) :
  (27.5 <= f <= 20000)%R ->
  (Rabs (offPitch f) <= 49 / 100)%R ->
  exists i o,
    0 <= i < 12 /\
    frequencyToNote f = noteText i o /\
    frequencyToNote (2 * f) = noteText i (o + 1).
Proof.
  intros [Hf _] _.
  assert (Hn : 21 <= noteIndexOf f).
  { replace 21 with (69 - 12 * Z.of_nat 4) by reflexivity.
    rewrite <- noteIndexOf_octave_of_A.
    apply noteIndexOf_mono; simpl; lra. }
  exists (Z.rem (noteIndexOf f) 12), (noteIndexOf f / 12 - 1).
  split; [|split].
  - rewrite Z.rem_mod_nonneg by lia. apply Z.mod_pos_bound. lia.
  - reflexivity.
  - rewrite frequencyToNote_index.
    change (Math_round _ + 69) with (noteIndexOf (2 * f)).
    rewrite noteIndexOf_double by lra.
    unfold nameOfIndex, noteText. f_equal.
    + f_equal. rewrite !Z.rem_mod_nonneg by lia.
      replace (noteIndexOf f + 12) with (noteIndexOf f + 1 * 12) by lia.
      apply Z.mod_add. lia.
    + f_equal.
      replace (noteIndexOf f + 12) with (noteIndexOf f + 1 * 12) by lia.
      rewrite Z.div_add by lia. lia.
Qed.

Lemma doubling_raises_octave_witness :
  exists i o,
    0 <= i < 12 /\
    frequencyToNote 440 = noteText i o /\
    frequencyToNote (2 * 440) = noteText i (o + 1).
Proof.
  apply (doubling_raises_octave 440); [lra|].
  unfold offPitch.
  replace (12 * Math_log2 (440 / 440))%R with (IZR 0).
  - rewrite Math_round_IZR. rewrite Rminus_diag, Rabs_R0. lra.
  - unfold Math_log2. replace (440 / 440)%R with 1%R by field.
    rewrite ln_1. simpl. field. pose proof ln2_pos. lra.
Defined.

(** X4.  For a frequency of at most 6.875 Hz the note index is negative,
    and [frequencyToNote] gives no note name: the text starts with
    "undefined" (or with "C" when the index is a multiple of 12), followed
    by the negative octave. *)
Theorem low_frequency_has_no_name (f : R) :
  (0 < f <= 6.875)%R ->
  let n := noteIndexOf f in
  n < 0 /\
  frequencyToNote f =
    String.append (if Z.rem n 12 =? 0 then "C" else "undefined")
                  (showZ (n / 12 - 1)).
Proof.
  intros [Hpos Hf] n.
  assert (Hn : n <= -3).
  { replace (-3) with (69 - 12 * Z.of_nat 6) by reflexivity.
    rewrite <- noteIndexOf_octave_of_A.
    apply noteIndexOf_mono; simpl; lra. }
  split; [lia|].
  rewrite frequencyToNote_index. fold (noteIndexOf f). fold n.
  unfold nameOfIndex. f_equal.
  pose proof (Z.rem_nonpos n 12 ltac:(lia) ltac:(lia)) as Hr.
  unfold noteName.
  destruct (Z.rem n 12 =? 0) eqn:E.
  - apply Z.eqb_eq in E. rewrite E. reflexivity.
  - apply Z.eqb_neq in E.
    destruct (Z.rem n 12 <? 0) eqn:E'; [reflexivity|].
    apply Z.ltb_ge in E'. lia.
Qed.

Lemma low_frequency_has_no_name_witness :
  noteIndexOf 5 < 0 /\
  frequencyToNote 5 =
    String.append (if Z.rem (noteIndexOf 5) 12 =? 0 then "C" else "undefined")
                  (showZ (noteIndexOf 5 / 12 - 1)).
Proof. apply (low_frequency_has_no_name 5). lra. Defined.

End NoteTexts.

(** ** Options and the methods that use them *)


Section OptionUpdates.
Import AudioAnalyzer.
Context {P : Platform}.

Lemma setDetectionOptions_inStep (a : t) (o : AnalysisOptions) :
  detectorInStep a -> detectorInStep (setDetectionOptions a o).
Proof.
  unfold detectorInStep.
  destruct a as [sr an [f s mn mx th ad bmn bmx] y].
  destruct o as [v1 v2 [v3|] [v4|] [v5|] [v6|] [v7|] [v8|]];
    lazy; intros ->; reflexivity.
Qed.

Lemma setDetectionOptions_rate (a : t) (o : AnalysisOptions) :
  ctxSampleRate (setDetectionOptions a o) = ctxSampleRate a.
Proof.
  destruct o as [v1 v2 [v3|] [v4|] [v5|] [v6|] [v7|] [v8|]]; reflexivity.
Qed.

Lemma setOptions_rate (a : t) (o : AnalysisOptions) :
  ctxSampleRate (fst (setOptions a o)) = ctxSampleRate a.
Proof.
  unfold setOptions, setFftSize, setSmoothing.
  destruct (o_fftSize o) as [v1|];
    [destruct (acceptsFftSize v1)|];
    (destruct (o_smoothingTimeConstant o) as [v2|];
     [destruct (acceptsSmoothing v2)|]);
    cbn [fst snd]; try rewrite setDetectionOptions_rate; reflexivity.
Qed.

Lemma setOptions_inStep (a : t) (o : AnalysisOptions) :
  detectorInStep a -> detectorInStep (fst (setOptions a o)).
Proof.
  intros Ha. unfold setOptions, setFftSize, setSmoothing.
  destruct (o_fftSize o) as [v1|];
    [destruct (acceptsFftSize v1)|];
    (destruct (o_smoothingTimeConstant o) as [v2|];
     [destruct (acceptsSmoothing v2)|]);
    cbn [fst snd];
    try apply setDetectionOptions_inStep;
    revert Ha; unfold detectorInStep; destruct a as [sr an [] y];
    cbn; intros ->; reflexivity.
Qed.

(** A refused call leaves the detection options and the detector as they
    were. *)
Lemma setOptions_refused_state (a : t) (o : AnalysisOptions) :
  platformAccepts o = false ->
  let a' := fst (setOptions a o) in
  minFrequency (options a') = minFrequency (options a) /\
  maxFrequency (options a') = maxFrequency (options a) /\
  yinThreshold (options a') = yinThreshold (options a) /\
  minBpm (options a') = minBpm (options a) /\
  maxBpm (options a') = maxBpm (options a) /\
  yinDetector a' = yinDetector a.
Proof.
  unfold platformAccepts, setOptions, setFftSize, setSmoothing.
  destruct a as [sr an [f s mn mx th ad bmn bmx] y].
  destruct (o_fftSize o) as [v1|];
    [destruct (acceptsFftSize v1)|];
    (destruct (o_smoothingTimeConstant o) as [v2|];
     [destruct (acceptsSmoothing v2)|]);
    cbn [andb]; intros H; try discriminate H; cbn; auto 10.
Qed.

(** X22.  The YIN detector is always the one the current options
    describe: the constructor builds it so, and every call of
    [setOptions], accepted or refused by the analyser node, keeps it so
    and keeps the sample rate. *)
Theorem detector_follows_options :
  (forall (sampleRate : num) (o : AnalysisOptions) (a : t),
      constructor sampleRate o = Ok a -> detectorInStep a) /\
  (forall (a : t) (o : AnalysisOptions),
      detectorInStep a ->
      detectorInStep (fst (setOptions a o)) /\
      ctxSampleRate (fst (setOptions a o)) = ctxSampleRate a).
Proof.
  split.
  - intros sampleRate o a. rewrite constructor_outcome.
    destruct (_ && _); [|discriminate].
    intros H. apply Ok_inj in H. subst a. reflexivity.
  - intros a o Ha. split; [now apply setOptions_inStep|].
    apply setOptions_rate.
Qed.

(** X23.  When the analyser node refuses the FFT size, [setOptions]
    throws after it has stored that size in its options: the options hold
    the refused size, the analyser node and the YIN detector stay as they
    were, and no other option of the call is applied. *)
Theorem refused_fftSize_is_stored (a : t) (o : AnalysisOptions) (v : num) :
  o_fftSize o = Some v -> acceptsFftSize v = false ->
  let a' := fst (setOptions a o) in
  snd (setOptions a o) = Some IndexSizeError /\
  options a' = merged (options a) (fftSizeOnly v) /\
  analyser a' = analyser a /\
  yinDetector a' = yinDetector a.
Proof.
  intros Ho Hv. unfold setOptions, setFftSize. rewrite Ho.
  cbn [options analyser withOptions]. rewrite Hv. cbn.
  destruct a as [sr an [] y]. cbn. auto.
Qed.

End OptionUpdates.

Section Methods.
Import AudioAnalyzer.
Context {P : Platform} {M : JS.Math}.

(** X24.  After [setOptions], [detectBPM], the YIN pitch detection and
    [detectPitchAutocorrelation] work with the options of the call merged
    into the old ones if the analyser node accepted the call, and with
    the old detection options if it refused it. *)
Theorem options_take_effect (a : t) (o : AnalysisOptions)
    (audioBuffer : AudioBuffer) (data : TypedArray.t) :
  detectorInStep a ->
  let a' := fst (setOptions a o) in
  let now := if platformAccepts o then merged (options a) o else options a in
  detectBPM a' audioBuffer
  = BPMDetector.detect
      {| BPMDetector.sampleRate := ab_sampleRate audioBuffer;
         BPMDetector.minBpm := minBpm now;
         BPMDetector.maxBpm := maxBpm now |} audioBuffer /\
  detectPitchWithConfidence a' data
  = YINDetector.detect (newYIN (ctxSampleRate a) now) data /\
  detectPitchAutocorrelation a' data
  = Autocorrelation.detectPitchAutocorrelation data (ctxSampleRate a)
      (minFrequency now) (maxFrequency now).
Proof.
  intros Ha a' now.
  unfold detectBPM, detectPitchWithConfidence, detectPitchAutocorrelation.
  pose proof (setOptions_rate a o) as Hrate. fold a' in Hrate.
  pose proof (setOptions_inStep a o Ha) as Hstep. fold a' in Hstep.
  unfold detectorInStep in Hstep. rewrite Hstep, Hrate.
  assert (Hnow : minBpm (options a') = minBpm now /\
                 maxBpm (options a') = maxBpm now /\
                 minFrequency (options a') = minFrequency now /\
                 maxFrequency (options a') = maxFrequency now /\
                 yinThreshold (options a') = yinThreshold now).
  { unfold now. destruct (platformAccepts o) eqn:E.
    - destruct (setOptions_accepted a o E) as (_ & Ho & _).
      fold a' in Ho. rewrite Ho. auto.
    - destruct (setOptions_refused_state a o E)
        as (H1 & H2 & H3 & H4 & H5 & _).
      fold a' in H1, H2, H3, H4, H5. auto. }
  destruct Hnow as (H1 & H2 & H3 & H4 & H5).
  rewrite H1, H2, H3, H4. repeat split.
  unfold newYIN. now rewrite H3, H4, H5.
Qed.

End Methods.

Lemma refused_fftSize_is_stored_witness :
  let o := {| AudioAnalyzer.o_fftSize := Some (JS.ofZ 1000);
              AudioAnalyzer.o_smoothingTimeConstant := Some (Fin (1 # 2));
              AudioAnalyzer.o_minFrequency := Some (JS.ofZ 80);
              AudioAnalyzer.o_maxFrequency := None;
              AudioAnalyzer.o_yinThreshold := None;
              AudioAnalyzer.o_enableAdvanced := None;
              AudioAnalyzer.o_minBpm := None;
              AudioAnalyzer.o_maxBpm := None |} in
  let a' := fst (@AudioAnalyzer.setOptions Samples.webAudio
                   Samples.defaultAnalyzer o) in
  AudioAnalyzer.fftSize (AudioAnalyzer.options a') = JS.ofZ 1000 /\
  an_fftSize (AudioAnalyzer.analyser a') = JS.ofZ 2048 /\
  AudioAnalyzer.minFrequency (AudioAnalyzer.options a') = JS.ofZ 50.
Proof.
  intros o a'.
  destruct (@refused_fftSize_is_stored Samples.webAudio
              Samples.defaultAnalyzer o (JS.ofZ 1000) eq_refl eq_refl)
    as (_ & Hopt & Han & _).
  fold a' in Hopt, Han. rewrite Hopt, Han. repeat split.
Defined.

Lemma options_take_effect_witness :
  let a' := fst (@AudioAnalyzer.setOptions Samples.webAudio
                   Samples.defaultAnalyzer Samples.upsideDown) in
  @AudioAnalyzer.detectBPM Samples.fixedPoint a' Samples.clickTrack
  = @BPMDetector.detect Samples.fixedPoint
      {| BPMDetector.sampleRate := JS.ofZ 100;
         BPMDetector.minBpm := JS.ofZ 180;
         BPMDetector.maxBpm := JS.ofZ 60 |} Samples.clickTrack /\
  AudioAnalyzer.detectPitchWithConfidence a' Samples.square
  = YINDetector.detect
      {| YINDetector.sampleRate := JS.ofZ 16000;
         YINDetector.threshold := JS.ofZ 5;
         YINDetector.minFrequency := JS.ofZ 5000;
         YINDetector.maxFrequency := JS.ofZ 50 |} Samples.square.
Proof.
  intros a'.
  destruct (@options_take_effect Samples.webAudio Samples.fixedPoint
              Samples.defaultAnalyzer Samples.upsideDown Samples.clickTrack
              Samples.square eq_refl) as (H1 & H2 & _).
  split; [exact H1 | exact H2].
Defined.

(** ** The volume; more on the YIN detector *)

Section VolumeRange.
Context {M : JS.Math} {L : JS.MathLaws M}.

Lemma volume_in_unit (data : TypedArray.t) :
  data <> [] -> Forall (fun x => JS.is_fin x = true) data ->
  inUnit (AudioAnalyzer.calculateVolume data).
Proof.
  intros Hne Hfin. unfold AudioAnalyzer.calculateVolume.
  set (sum := fold_left _ _ _).
  assert (Hsum : finNonneg sum).
  { apply fold_left_inv; [exact finNonneg_zero|].
    intros s i Hi Hs. apply in_upto in Hi.
    apply finNonneg_add; [exact Hs|].
    apply finNonneg_square, get_fin; [exact Hfin | exact Hi]. }
  lazy zeta.
  destruct sum as [q| | |]; try contradiction. cbn [finNonneg] in Hsum.
  assert (Hlen : (0 < TypedArray.length data)%Z).
  { unfold TypedArray.length. destruct data; [congruence | simpl; lia]. }
  unfold JS.ofZ at 1. cbn [JS.div].
  rewrite (inject_Z_nonzero _ Hlen).
  destruct (JS.sqrt_fin (Qred (q / inject_Z (TypedArray.length data))))
    as (y & Hy & ->).
  { rewrite Qred_correct. apply Qdiv_nonneg; [exact Hsum|].
    now apply inject_Z_pos. }
  destruct (JS.sqrt_fin (inject_Z 2)) as (z & Hz & E); [discriminate|].
  unfold JS.ofZ. rewrite E. cbn [JS.mul].
  unfold JS.one. cbn [JS.min JS.lt].
  assert (Hyz : 0 <= y * z) by (apply Qmult_le_0_compat; assumption).
  destruct (JS.Qltb 1 (Qred (y * z))) eqn:E1; cbn [inUnit]; qprop; lra.
Qed.

(** X21.  The volume of a window of finite samples that is not empty
    lies in [0, 1]; the volume of the empty window is NaN (0/0). *)
Theorem volume_is_a_level :
  (forall data : TypedArray.t,
      data <> [] -> Forall (fun x => JS.is_fin x = true) data ->
      inUnit (AudioAnalyzer.calculateVolume data)) /\
  AudioAnalyzer.calculateVolume [] = NaN.
Proof.
  split; [exact volume_in_unit|].
  unfold AudioAnalyzer.calculateVolume. cbn.
  rewrite JS.sqrt_nan. reflexivity.
Qed.

End VolumeRange.

Lemma volume_is_a_level_witness :
  inUnit (@AudioAnalyzer.calculateVolume Samples.fixedPoint Samples.square).
Proof.
  apply (proj1 (@volume_is_a_level Samples.fixedPoint fixedPoint_laws)).
  - discriminate.
  - apply all_fin. reflexivity.
Defined.

Section PitchBounds.
Import YINDetector.

Lemma lt_min_right (t x y : num) :
  JS.lt t (JS.min x y) = true -> JS.lt t y = true.
Proof.
  destruct x as [a| | |], y as [b| | |], t as [c| | |]; jsimpl;
    try discriminate; try reflexivity;
    try (destruct (JS.Qltb b a) eqn:E; intros H; qprop; lra);
    auto.
Qed.

(** X7.  For a sample rate that is not negative and a positive minimum
    frequency, a window of at most 2 * minLag samples, where
    minLag = floor(sampleRate / maxFrequency) is an integer, has no
    pitch: the search range [minLag, maxLag) is empty, whatever the
    window holds. *)
Theorem short_window_has_no_pitch (d : YINDetector.t) (buffer : TypedArray.t)
    (sr : Q) (minLag : Z) :
  sampleRate d = Fin sr -> 0 <= sr ->
  JS.gt (minFrequency d) JS.zero = true ->
  pitchMinLag d = JS.ofZ minLag ->
  (TypedArray.length buffer <= 2 * minLag)%Z ->
  detect d buffer = Ok None.
Proof.
  intros Hsr Hpos Hmin Hlag Hlen. apply positive_not_below in Hmin.
  destruct (cmndfOf_ok d buffer sr Hsr Hpos Hmin) as [cmndf Hc].
  apply (threshold_search_spec d buffer cmndf sr Hsr Hpos Hc).
  intros tau Hin. exfalso. unfold inLagRange in Hin.
  apply andb_true_iff in Hin as [Hlo Hhi].
  rewrite Hlag, ofZ_le in Hlo. apply Z.leb_le in Hlo.
  unfold pitchMaxLag in Hhi. apply lt_min_right in Hhi.
  unfold JS.ofZ in Hhi. cbn [JS.div] in Hhi.
  change (Qeq_bool (inject_Z 2) 0) with false in Hhi.
  cbn [JS.lt] in Hhi. qprop.
  assert (H2 : inject_Z (TypedArray.length buffer) <= inject_Z (2 * minLag))
    by (rewrite <- Zle_Qle; exact Hlen).
  assert (H3 : inject_Z minLag <= inject_Z tau)
    by (rewrite <- Zle_Qle; exact Hlo).
  rewrite inject_Z_mult in H2. change (inject_Z 2) with 2 in *.
  assert (H4 : inject_Z (TypedArray.length buffer) / 2
               == inject_Z (TypedArray.length buffer) * (1 # 2))
    by (unfold Qdiv; reflexivity).
  rewrite H4 in Hhi. lra.
Qed.

Lemma short_window_has_no_pitch_witness :
  detect (Samples.yinDefault 44100) Samples.square = Ok None.
Proof.
  apply (short_window_has_no_pitch (Samples.yinDefault 44100) Samples.square
           44100 8); [reflexivity | discriminate | reflexivity
                      | reflexivity | vm_compute; discriminate].
Defined.


(** X8.  At a lag whose normalised difference is not above that of its
    two neighbours (all three finite), the parabolic interpolation moves
    the lag by at most half a sample. *)
Theorem interpolation_stays_within_half (cmndf : TypedArray.t) (tau : Z)
    (alpha beta gamma : Q) :
  TypedArray.get cmndf (tau - 1) = Fin alpha ->
  TypedArray.get cmndf tau = Fin beta ->
  TypedArray.get cmndf (tau + 1) = Fin gamma ->
  beta <= alpha -> beta <= gamma ->
  exists x, parabolicInterpolation cmndf tau = Fin x /\
            inject_Z tau - (1 # 2) <= x <= inject_Z tau + (1 # 2).
Proof.
  intros Ha Hb Hc Hba Hbc. unfold parabolicInterpolation.
  destruct (_ || _)%bool.
  { exists (inject_Z tau). split; [reflexivity | lra]. }
  rewrite Ha, Hb, Hc. unfold JS.ofZ. change (inject_Z 2) with 2.
  cbn [JS.mul JS.sub JS.neg JS.add].
  set (denom := Qred (2 * Qred (Qred (Qred (2 * beta) + Qred (- alpha))
                                + Qred (- gamma)))).
  assert (Hd : denom == 2 * (2 * beta - alpha - gamma)).
  { unfold denom. rewrite !Qred_correct. ring. }
  destruct (JS.lt (JS.abs (Fin denom)) (Fin (1 # 10000000000))) eqn:Et.
  { exists (inject_Z tau). split; [reflexivity | lra]. }
  cbn [JS.div].
  destruct (Qeq_bool denom 0) eqn:E0.
  - (* a zero denominator does not get past the test *)
    exfalso. apply Qeq_bool_iff in E0. cbn [JS.abs] in Et.
    destruct (JS.Qltb denom 0) eqn:E1; [qprop; lra|].
    cbn [JS.lt] in Et. qprop. lra.
  - eexists. split; [reflexivity|].
    rewrite !Qred_correct.
    set (t := (gamma + - alpha) / denom).
    assert (Ht : t * denom == gamma - alpha).
    { unfold t. field. apply Qeq_bool_false in E0. exact E0. }
    apply Qeq_bool_false in E0.
    split; nra.
Qed.


Lemma interpolation_stays_within_half_witness :
  exists x, parabolicInterpolation Samples.squareCmndf 4 = Fin x /\
            inject_Z 4 - (1 # 2) <= x <= inject_Z 4 + (1 # 2).
Proof.
  apply (interpolation_stays_within_half Samples.squareCmndf 4
           (3 # 4) 0 1); [reflexivity | reflexivity | reflexivity | |];
    discriminate.
Defined.

Lemma one_minus_above (c thr : num) :
  notNegative c -> JS.lt c thr = true ->
  exists x, JS.sub JS.one c = Fin x /\ x <= 1 /\
            JS.lt (JS.sub JS.one thr) (Fin x) = true.
Proof.
  unfold JS.one.
  destruct c as [q| | |], thr as [t| | |]; jsimpl; intros Hc Hlt;
    try discriminate; try tauto;
    (eexists; split; [reflexivity|]); split; qprop; try lra; reflexivity.
Qed.

(** X6.  Whatever the window and the threshold, the confidence of a
    detected pitch is a finite number above 1 - threshold and not above
    1. *)
Theorem pitch_confidence_bounds (d : YINDetector.t) (buffer : TypedArray.t)
    (p : Pitch) :
  detect d buffer = Ok (Some p) ->
  exists x, pitchConfidence p = Fin x /\ x <= 1 /\
            JS.lt (JS.sub JS.one (threshold d)) (Fin x) = true.
Proof.
  rewrite detect_unfold.
  destruct (cmndfOf d buffer) as [cmndf|e] eqn:Hc; [|discriminate].
  cbn [bind]. cbn zeta.
  set (tau := absoluteThreshold d cmndf _ _).
  destruct (tau =? -1)%Z eqn:E; [discriminate|].
  apply Z.eqb_neq in E.
  pose proof (absoluteThreshold_below d cmndf _ _ E) as Hb. fold tau in Hb.
  unfold pitchAt. destruct (_ || _); [discriminate|].
  intros H. apply Ok_inj in H. injection H as <-. cbn [pitchConfidence].
  apply one_minus_above; [|exact Hb].
  apply get_Forall; [|exact I].
  unfold cmndfOf in Hc.
  destruct (differenceFunction _ _ _) as [difference|e] eqn:Ed;
    [|discriminate].
  cbn [bind] in Hc.
  eapply cmndf_notNegative; [|exact Hc].
  eapply difference_notNegative; exact Ed.
Qed.

Lemma pitch_confidence_bounds_witness :
  exists x,
    pitchConfidence
      {| frequency := Fin (33600 # 11); pitchConfidence := Fin 1 |} = Fin x
    /\ x <= 1
    /\ JS.lt (JS.sub JS.one (threshold (Samples.yinDefault 12000))) (Fin x)
       = true.
Proof.
  apply (pitch_confidence_bounds (Samples.yinDefault 12000) Samples.square
           {| frequency := Fin (33600 # 11); pitchConfidence := Fin 1 |}).
  vm_compute. reflexivity.
Defined.

End PitchBounds.

(** ** Sums of rationals; the fallback pitch detector *)


Section Sums.

Lemma fold_Qsum (f : Z -> num) (g : Z -> Q) (n : nat) :
  (forall i, (0 <= i < Z.of_nat n)%Z -> exists q, f i = Fin q /\ q == g i) ->
  exists r, fold_left (fun s i => JS.add s (f i)) (upto n) JS.zero = Fin r
            /\ r == Qsum g n.
Proof.
  induction n as [|n IH]; intros Hf.
  - exists 0. split; reflexivity.
  - destruct IH as (r & Hr & Er); [intros i Hi; apply Hf; lia|].
    destruct (Hf (Z.of_nat n)) as (q & Hq & Eq); [lia|].
    rewrite upto_S, fold_left_app, Hr. cbn [fold_left]. rewrite Hq.
    eexists. split; [reflexivity|].
    cbn [Qsum]. rewrite Qred_correct, Er, Eq. reflexivity.
Qed.

Lemma Qsum_ext (g h : Z -> Q) (n : nat) :
  (forall i, (0 <= i < Z.of_nat n)%Z -> g i == h i) -> Qsum g n == Qsum h n.
Proof.
  induction n as [|n IH]; intros H; [reflexivity|].
  cbn [Qsum]. rewrite IH, (H (Z.of_nat n)) by (try intros; try apply H; lia).
  reflexivity.
Qed.

Lemma Qsum_nonneg (h : Z -> Q) (n : nat) :
  (forall i, 0 <= h i) -> 0 <= Qsum h n.
Proof.
  intros H. induction n as [|n IH]; cbn [Qsum]; [lra|].
  pose proof (H (Z.of_nat n)). lra.
Qed.

Lemma Qsum_grows (h : Z -> Q) (m l : nat) :
  (forall i, 0 <= h i) -> Qsum h m <= Qsum h (m + l).
Proof.
  intros H. induction l as [|l IH]; [rewrite Nat.add_0_r; lra|].
  rewrite Nat.add_succ_r. cbn [Qsum].
  pose proof (H (Z.of_nat (m + l))). lra.
Qed.

Lemma Qsum_shift (h : Z -> Q) (m l : nat) :
  (forall i, 0 <= h i) ->
  Qsum (fun i => h (i + Z.of_nat l)%Z) m <= Qsum h (m + l).
Proof.
  intros H. induction m as [|m IH].
  - cbn [Qsum]. apply Qsum_nonneg, H.
  - cbn [Qsum Nat.add]. rewrite <- Nat2Z.inj_add. lra.
Qed.

(** A lagged product sum does not exceed the sum of the squares. *)
Lemma Qsum_lagged (x : Z -> Q) (m l : nat) :
  Qsum (fun i => x i * x (i + Z.of_nat l)%Z) m
  <= Qsum (fun i => x i * x i) (m + l).
Proof.
  assert (Hsq : forall i, 0 <= x i * x i) by (intros; apply Qsquare_nonneg).
  pose proof (Qsum_grows (fun i => x i * x i) m l Hsq) as H1.
  pose proof (Qsum_shift (fun i => x i * x i) m l Hsq) as H2.
  cbv beta in H2.
  assert (H3 : 2 * Qsum (fun i => x i * x (i + Z.of_nat l)%Z) m
               <= Qsum (fun i => x i * x i) m
                  + Qsum (fun i => x (i + Z.of_nat l)%Z
                                   * x (i + Z.of_nat l)%Z) m).
  { clear. induction m as [|m IH]; cbn [Qsum]; [lra|].
    set (a := x (Z.of_nat m)). set (b := x (Z.of_nat m + Z.of_nat l)%Z).
    assert (0 <= (a - b) * (a - b)) by apply Qsquare_nonneg.
    lra. }
  lra.
Qed.

End Sums.

Section FallbackPitch.

Import Autocorrelation.

Lemma detectPitchAutocorrelation_unfold (data : TypedArray.t)
    (sampleRate minFreq maxFreq : num) :
  let d := lagsOf sampleRate minFreq maxFreq in
  detectPitchAutocorrelation data sampleRate minFreq maxFreq =
  (autocorr <-
     autocorrelation data (TypedArray.length data) (pitchMaxLag d data) ;;
   let st := search autocorr (pitchMinLag d) (pitchMaxLag d data) in
   if JS.le (snd st) JS.zero then Ok None
   else Ok (Some {| frequency := JS.div sampleRate (snd st);
                    pitchConfidence :=
                      JS.div (fst st) (TypedArray.get autocorr 0) |})).
Proof.
  intros d. unfold detectPitchAutocorrelation.
  change (JS.min _ _) with (pitchMaxLag d data).
  change (JS.floor (JS.div sampleRate maxFreq)) with (pitchMinLag d).
  destruct (autocorrelation _ _ _) as [autocorr|e]; [|reflexivity].
  cbn [bind]. destruct (search _ _ _). reflexivity.
Qed.

(** The cells of the autocorrelation array. *)
Lemma autocorrelation_cells (data : TypedArray.t) (maxLag : num)
    (a : TypedArray.t) :
  autocorrelation data (TypedArray.length data) maxLag = Ok a ->
  forall lag, (0 <= lag < TypedArray.length a)%Z ->
              TypedArray.get a lag
              = correlationAt data (TypedArray.length data) lag.
Proof.
  unfold autocorrelation.
  destruct (TypedArray.create maxLag) as [a0|e] eqn:Ec; [|discriminate].
  cbn [bind]. intros H lag Hlag. apply Ok_inj in H. subst a.
  rewrite fill_length in Hlag.
  apply (fill_get (correlationAt data (TypedArray.length data))); [|lia].
  destruct maxLag as [q| | |]; try discriminate.
  - apply create_length in Ec as [Hl _]. unfold turns.
    pose proof (trunc_le_ceiling q). lia.
  - apply Ok_inj in Ec. subst a0. unfold TypedArray.length in Hlag.
    simpl in Hlag. lia.
Qed.

Lemma correlationAt_value (data : TypedArray.t) (lag : Z) :
  Forall (fun x => JS.is_fin x = true) data -> (0 <= lag)%Z ->
  exists r,
    correlationAt data (TypedArray.length data) lag = Fin r /\
    r == Qsum (fun i => valueAt data i * valueAt data (i + lag)%Z)
              (Z.to_nat (TypedArray.length data - lag)).
Proof.
  intros Hfin Hlag. unfold correlationAt.
  apply (fold_Qsum
           (fun i => JS.mul (TypedArray.get data i)
                            (TypedArray.get data (i + lag)))).
  intros i Hi.
  rewrite !get_valueAt by (auto; lia).
  eexists. split; [reflexivity|]. apply Qred_correct.
Qed.

(** No cell exceeds the cell of lag 0. *)
Lemma correlationAt_bound (data : TypedArray.t) (lag : Z) :
  Forall (fun x => JS.is_fin x = true) data ->
  (0 <= lag < TypedArray.length data)%Z ->
  exists r r0,
    correlationAt data (TypedArray.length data) lag = Fin r /\
    correlationAt data (TypedArray.length data) 0 = Fin r0 /\
    0 <= r0 /\ r <= r0.
Proof.
  intros Hfin Hlag.
  destruct (correlationAt_value data lag Hfin) as (r & Hr & Er); [lia|].
  destruct (correlationAt_value data 0 Hfin) as (r0 & Hr0 & Er0); [lia|].
  exists r, r0. split; [exact Hr|]. split; [exact Hr0|].
  rewrite Z.sub_0_r in Er0.
  assert (E0 : r0 == Qsum (fun i => valueAt data i * valueAt data i)
                          (Z.to_nat (TypedArray.length data))).
  { rewrite Er0. apply Qsum_ext. intros i _. now rewrite Z.add_0_r. }
  split.
  - rewrite E0. apply Qsum_nonneg. intros. apply Qsquare_nonneg.
  - rewrite Er, E0.
    replace (Z.to_nat (TypedArray.length data))
      with (Z.to_nat (TypedArray.length data - lag) + Z.to_nat lag)%nat
      by lia.
    assert (E : Qsum (fun i => valueAt data i * valueAt data (i + lag)%Z)
                     (Z.to_nat (TypedArray.length data - lag))
                == Qsum (fun i => valueAt data i
                                  * valueAt data (i + Z.of_nat (Z.to_nat lag))%Z)
                        (Z.to_nat (TypedArray.length data - lag))).
    { apply Qsum_ext. intros i _. rewrite Z2Nat.id by lia. reflexivity. }
    rewrite E. apply Qsum_lagged.
Qed.


Lemma autocorrelation_ok (data : TypedArray.t) (s : Q)
    (minFreq maxFreq : num) :
  0 <= s -> JS.lt minFreq JS.zero = false ->
  exists a,
    autocorrelation data (TypedArray.length data)
      (pitchMaxLag (lagsOf (Fin s) minFreq maxFreq) data) = Ok a.
Proof.
  intros Hs Hmin.
  pose proof (pitchMaxLag_ok (lagsOf (Fin s) minFreq maxFreq) data s
                eq_refl Hs Hmin) as Hmax.
  destruct (create_notNegative _ Hmax) as [a0 Ha].
  unfold autocorrelation. rewrite Ha. cbn [bind]. eauto.
Qed.

Lemma findPeak_none (a : TypedArray.t) (thr maxLag : num) (fuel : nat) :
  forall z,
  (forall l, (z <= l)%Z -> JS.lt (JS.ofZ l) (JS.sub maxLag JS.one) = true ->
             significantPeak a thr NInf l = false) ->
  findPeak a thr maxLag z fuel = None.
Proof.
  induction fuel as [|fuel IH]; intros z H; [reflexivity|].
  cbn [findPeak].
  destruct (JS.lt (JS.ofZ z) (JS.sub maxLag JS.one)) eqn:E; [|reflexivity].
  rewrite (H z) by (auto; lia).
  apply IH. intros l Hl. apply H. lia.
Qed.

Lemma findPeak_finds (a : TypedArray.t) (thr maxLag : num) (fuel : nat) :
  forall z lag,
  (z <= lag)%Z ->
  JS.lt (JS.ofZ lag) (JS.sub maxLag JS.one) = true ->
  significantPeak a thr NInf lag = true ->
  (forall l, (z <= l < lag)%Z -> significantPeak a thr NInf l = false) ->
  (Z.to_nat (lag - z) < fuel)%nat ->
  findPeak a thr maxLag z fuel = Some lag.
Proof.
  induction fuel as [|fuel IH]; intros z lag Hz Hlt Hp Hfirst Hfuel; [lia|].
  cbn [findPeak].
  rewrite (lt_bound_down z lag _ Hz Hlt).
  destruct (Z.eq_dec z lag) as [->|Hne]; [now rewrite Hp|].
  rewrite (Hfirst z) by lia.
  apply IH; auto; try lia. intros l Hl. apply Hfirst. lia.
Qed.

Lemma search_from (a : TypedArray.t) (z : Z) (maxLag : num) :
  search a (JS.ofZ z) maxLag =
  match findPeak a (JS.mul (Fin (1 # 2)) (TypedArray.get a 0)) maxLag z
                 (S (turns z (JS.sub maxLag JS.one))) with
  | Some lag =>
      (TypedArray.get a lag,
       JS.add (JS.ofZ lag)
         (JS.div (JS.sub (TypedArray.get a (lag - 1))
                         (TypedArray.get a (lag + 1)))
                 (JS.mul (JS.ofZ 2)
                    (JS.add (JS.sub (TypedArray.get a (lag - 1))
                                    (JS.mul (JS.ofZ 2) (TypedArray.get a lag)))
                            (TypedArray.get a (lag + 1))))))
  | None => (NInf, JS.ofZ (-1))
  end.
Proof. unfold search, JS.ofZ at 1. rewrite Qfloor_inject. reflexivity. Qed.

Lemma allZero_fill (g : Z -> num) (idxs : list Z) (a0 : TypedArray.t) :
  allZero a0 -> (forall k, In k idxs -> g k = JS.zero) ->
  allZero (fold_left (fun a k => TypedArray.set a k (g k)) idxs a0).
Proof.
  intros H0 Hg. apply fold_left_inv; [exact H0|].
  intros a k Hk Ha. apply Forall_set; [exact Ha | now apply Hg].
Qed.

Lemma correlationAt_silent (n : nat) (lag : Z) :
  (0 <= lag)%Z ->
  correlationAt (repeat JS.zero n) (TypedArray.length (repeat JS.zero n)) lag
  = JS.zero.
Proof.
  intros Hlag. unfold correlationAt. rewrite repeat_length_Z.
  apply fold_left_inv; [reflexivity|].
  intros s i Hi ->. apply in_upto in Hi.
  rewrite !get_repeat by lia. reflexivity.
Qed.

Lemma autocorrelation_silent (n : nat) (maxLag : num) (a : TypedArray.t) :
  autocorrelation (repeat JS.zero n) (TypedArray.length (repeat JS.zero n))
                  maxLag = Ok a ->
  allZero a.
Proof.
  unfold autocorrelation.
  destruct (TypedArray.create maxLag) as [a0|e] eqn:Ec; [|discriminate].
  cbn [bind]. intros H. apply Ok_inj in H. subst a.
  apply allZero_fill.
  - apply create_ok in Ec as [_ ->]. apply Forall_repeat. reflexivity.
  - intros k Hk. apply in_upto in Hk. apply correlationAt_silent. lia.
Qed.

Lemma silent_cell (a : TypedArray.t) (i : Z) :
  allZero a -> TypedArray.get a i = JS.zero \/ TypedArray.get a i = NaN.
Proof.
  intros Ha.
  destruct (Z_lt_dec i 0) as [Hneg|Hpos];
    [right; apply get_outside; lia|].
  destruct (Z_lt_dec i (TypedArray.length a)) as [Hin|Hout].
  - left. apply get_allZero; [exact Ha | lia].
  - right. apply get_outside. lia.
Qed.

Lemma firstPeakTest_silent (a : TypedArray.t) (lag : Z) :
  allZero a -> firstPeakTest a lag = false.
Proof.
  intros Ha. unfold firstPeakTest, significantPeak.
  destruct (silent_cell a lag Ha) as [-> | ->],
           (silent_cell a 0 Ha) as [-> | ->]; reflexivity.
Qed.

(** X10.  With a sample rate that is not negative and positive frequency
    bounds, [detectPitchAutocorrelation] returns on every window, and on
    a silent window of any length it returns no pitch. *)
Theorem fallback_detector_on_silence (s : Q) (minFreq maxFreq : num) :
  0 <= s -> JS.gt minFreq JS.zero = true -> JS.gt maxFreq JS.zero = true ->
  (forall data : TypedArray.t,
      exists r,
        detectPitchAutocorrelation data (Fin s) minFreq maxFreq = Ok r) /\
  (forall n : nat,
      detectPitchAutocorrelation (repeat JS.zero n) (Fin s) minFreq maxFreq
      = Ok None).
Proof.
  intros Hs Hmin _. apply positive_not_below in Hmin. split.
  - intros data. rewrite detectPitchAutocorrelation_unfold.
    destruct (autocorrelation_ok data s minFreq maxFreq Hs Hmin) as [a ->].
    cbn [bind]. lazy zeta. destruct (JS.le _ _); eauto.
  - intros n. rewrite detectPitchAutocorrelation_unfold.
    destruct (autocorrelation_ok (repeat JS.zero n) s minFreq maxFreq Hs Hmin)
      as [a Ha].
    rewrite Ha. cbn [bind]. lazy zeta.
    apply autocorrelation_silent in Ha.
    assert (E : search a (pitchMinLag (lagsOf (Fin s) minFreq maxFreq))
                  (pitchMaxLag (lagsOf (Fin s) minFreq maxFreq)
                               (repeat JS.zero n))
                = (NInf, JS.ofZ (-1))).
    { unfold search.
      destruct (pitchMinLag _) as [q| | |]; try reflexivity.
      rewrite findPeak_none; [reflexivity|].
      intros l _ _. now apply firstPeakTest_silent. }
    rewrite E. reflexivity.
Qed.

Lemma fallback_detector_on_silence_witness :
  (forall data : TypedArray.t,
      exists r,
        Autocorrelation.detectPitchAutocorrelation data (Fin 44100)
          (JS.ofZ 50) (JS.ofZ 5000) = Ok r) /\
  (forall n : nat,
      Autocorrelation.detectPitchAutocorrelation (repeat JS.zero n)
        (Fin 44100) (JS.ofZ 50) (JS.ofZ 5000) = Ok None).
Proof.
  apply (fallback_detector_on_silence 44100 (JS.ofZ 50) (JS.ofZ 5000));
    [discriminate | reflexivity | reflexivity].
Defined.


Lemma lt_below_half (lag len : Z) (x : num) :
  JS.lt (JS.ofZ lag)
        (JS.sub (JS.min x (JS.div (JS.ofZ len) (JS.ofZ 2))) JS.one) = true ->
  (2 * (lag + 1) < len)%Z.
Proof.
  unfold JS.ofZ. cbn [JS.div]. change (Qeq_bool (inject_Z 2) 0) with false.
  cbv iota. intros H.
  assert (Hq : inject_Z lag < inject_Z len / 2 - 1).
  { destruct x as [a| | |]; jsimpl; try discriminate;
      try (destruct (JS.Qltb _ a) eqn:E; jsimpl; qprop);
      qprop; change (inject_Z 2) with 2 in *; lra. }
  assert (Hz : inject_Z (2 * (lag + 1)) < inject_Z len).
  { rewrite inject_Z_mult, inject_Z_plus.
    change (inject_Z 2) with 2. change (inject_Z 1) with 1.
    assert (E : inject_Z len / 2 == inject_Z len * (1 # 2))
      by (unfold Qdiv; reflexivity).
    rewrite E in Hq. lra. }
  now rewrite <- Zlt_Qlt in Hz.
Qed.

Lemma gt_cells (a : TypedArray.t) (i j : Z) :
  JS.gt (TypedArray.get a i) (TypedArray.get a j) = true ->
  (0 <= i < TypedArray.length a)%Z /\ (0 <= j < TypedArray.length a)%Z.
Proof.
  intros H. split.
  - destruct (Z_lt_dec i 0); [rewrite (get_outside a i) in H by lia|];
      [destruct (TypedArray.get a j); discriminate|].
    destruct (Z_lt_dec i (TypedArray.length a)); [lia|].
    rewrite (get_outside a i) in H by lia.
    destruct (TypedArray.get a j); discriminate.
  - destruct (Z_lt_dec j 0); [rewrite (get_outside a j) in H by lia|];
      [destruct (TypedArray.get a i); discriminate|].
    destruct (Z_lt_dec j (TypedArray.length a)); [lia|].
    rewrite (get_outside a j) in H by lia.
    destruct (TypedArray.get a i); discriminate.
Qed.


(** X9.  On finite samples [detectPitchAutocorrelation] returns no
    pitch when no lag of [minLag, maxLag - 1) passes its peak test (above
    half of autocorr[0] and above both neighbours); otherwise it takes the
    first such lag, refines it by less than half a sample, and returns
    sampleRate / refinedLag with the confidence autocorr[lag] /
    autocorr[0], which lies above 1/2 and is not above 1. *)
Theorem fallback_pitch_is_first_peak (data a : TypedArray.t) (s : Q)
    (minFreq maxFreq : num) (z : Z) :
  let d := lagsOf (Fin s) minFreq maxFreq in
  Forall (fun x => JS.is_fin x = true) data -> 0 < s ->
  pitchMinLag d = JS.ofZ z ->
  autocorrelation data (TypedArray.length data) (pitchMaxLag d data) = Ok a ->
  ((forall lag,
       (z <= lag)%Z ->
       JS.lt (JS.ofZ lag) (JS.sub (pitchMaxLag d data) JS.one) = true ->
       firstPeakTest a lag = false) ->
   detectPitchAutocorrelation data (Fin s) minFreq maxFreq = Ok None) /\
  (forall lag,
      (z <= lag)%Z ->
      JS.lt (JS.ofZ lag) (JS.sub (pitchMaxLag d data) JS.one) = true ->
      firstPeakTest a lag = true ->
      (forall l, (z <= l < lag)%Z -> firstPeakTest a l = false) ->
      let alpha := valueAt a (lag - 1) in
      let beta := valueAt a lag in
      let gamma := valueAt a (lag + 1) in
      exists x f c : Q,
        detectPitchAutocorrelation data (Fin s) minFreq maxFreq
        = Ok (Some {| frequency := Fin f; pitchConfidence := Fin c |}) /\
        x == inject_Z lag
             + (alpha - gamma) / (2 * (alpha - 2 * beta + gamma)) /\
        inject_Z lag - (1 # 2) < x < inject_Z lag + (1 # 2) /\
        f == s / x /\
        c == beta / valueAt a 0 /\
        (1 # 2) < c <= 1).
Proof.
  intros d Hfin Hs Hz Ha. split.
  - intros Hnone. rewrite detectPitchAutocorrelation_unfold. fold d.
    rewrite Ha. cbn [bind]. lazy zeta.
    rewrite Hz, search_from, findPeak_none; [reflexivity | exact Hnone].
  - intros lag Hzl Hlt Hp Hfirst alpha beta gamma.
    (* the three cells are cells of the array, and finite *)
    pose proof Hp as Hp'. unfold firstPeakTest, significantPeak in Hp'.
    apply andb_true_iff in Hp' as [Hp' _].
    apply andb_true_iff in Hp' as [Hp' H3].
    apply andb_true_iff in Hp' as [H1 H2].
    destruct (gt_cells a lag (lag - 1) H2) as [Hin Hin1].
    destruct (gt_cells a lag (lag + 1) H3) as [_ Hin2].
    pose proof (lt_below_half lag (TypedArray.length data) _ Hlt) as Hlen.
    pose proof (autocorrelation_cells data _ a Ha) as Hcell.
    destruct (correlationAt_bound data (lag - 1) Hfin)
      as (ra & r0 & Hra & Hr0 & Hr0pos & _); [lia|].
    destruct (correlationAt_bound data lag Hfin)
      as (rb & r0' & Hrb & Hr0' & _ & Hble); [lia|].
    rewrite Hr0 in Hr0'. apply (f_equal (fun n => match n with
                                                  | Fin q => q
                                                  | _ => 0
                                                  end)) in Hr0'.
    subst r0'.
    destruct (correlationAt_bound data (lag + 1) Hfin)
      as (rc & _ & Hrc & _); [lia|].
    assert (Ea : TypedArray.get a (lag - 1) = Fin ra)
      by (rewrite Hcell by lia; exact Hra).
    assert (Eb : TypedArray.get a lag = Fin rb)
      by (rewrite Hcell by lia; exact Hrb).
    assert (Ec : TypedArray.get a (lag + 1) = Fin rc)
      by (rewrite Hcell by lia; exact Hrc).
    assert (E0 : TypedArray.get a 0 = Fin r0)
      by (rewrite Hcell by lia; exact Hr0).
    unfold alpha, beta, gamma, valueAt. rewrite Ea, Eb, Ec, E0.
    rewrite Eb, E0 in H1. rewrite Ea, Eb in H2. rewrite Eb, Ec in H3.
    unfold JS.gt in H1, H2, H3. cbn [JS.mul JS.lt] in H1, H2, H3. qprop.
    (* the run *)
    rewrite detectPitchAutocorrelation_unfold. fold d.
    rewrite Ha. cbn [bind]. lazy zeta.
    rewrite Hz, search_from.
    rewrite (findPeak_finds a _ _ _ z lag Hzl Hlt Hp Hfirst).
    2:{ apply Nat.lt_lt_succ_r. apply turns_enough; [exact Hzl | exact Hlt|].
        destruct (pitchMaxLag d data) as [q| | |]; discriminate. }
    cbn [fst snd]. rewrite Ea, Eb, Ec, E0.
    unfold JS.ofZ. change (inject_Z 2) with 2.
    cbn [JS.sub JS.neg JS.add JS.mul].
    set (denom := Qred (2 * Qred (Qred (ra + Qred (- Qred (2 * rb))) + rc))).
    assert (Hd : denom == 2 * (ra - 2 * rb + rc))
      by (unfold denom; rewrite !Qred_correct; ring).
    cbn [JS.div].
    destruct (Qeq_bool denom 0) eqn:Ed; [qprop; lra|].
    apply Qeq_bool_false in Ed.
    cbn [JS.add].
    set (x := Qred (inject_Z lag + Qred (Qred (ra + Qred (- rc)) / denom))).
    set (t := (ra - rc) / denom).
    assert (Ht : t * denom == ra - rc) by (unfold t; field; exact Ed).
    assert (Hx : x == inject_Z lag + t).
    { unfold x, t. rewrite !Qred_correct. reflexivity. }
    assert (Hlag : 1 <= inject_Z lag).
    { change 1 with (inject_Z 1). rewrite <- Zle_Qle. lia. }
    assert (Hbounds : inject_Z lag - (1 # 2) < x < inject_Z lag + (1 # 2)).
    { rewrite Hx. split; nra. }
    unfold JS.zero. cbn [JS.le].
    destruct (Qle_bool x 0) eqn:Ex; [qprop; lra|].
    cbn [JS.div].
    destruct (Qeq_bool x 0) eqn:Ex0; [qprop; lra|].
    destruct (Qeq_bool r0 0) eqn:Er0; [qprop; lra|].
    apply Qeq_bool_false in Er0.
    exists x, (Qred (s / x)), (Qred (rb / r0)).
    split; [reflexivity|]. split.
    { rewrite Hx. unfold t. rewrite Hd. reflexivity. }
    split; [exact Hbounds|]. split; [apply Qred_correct|].
    split; [apply Qred_correct|]. rewrite Qred_correct.
    assert (Hpos : 0 < r0) by lra.
    split.
    + apply Qlt_shift_div_l; [exact Hpos | lra].
    + apply Qle_shift_div_r; [exact Hpos | lra].
Qed.

End FallbackPitch.

Lemma fallback_pitch_is_first_peak_witness :
  exists x f c : Q,
    Autocorrelation.detectPitchAutocorrelation Samples.square (Fin 12000)
      (JS.ofZ 50) (JS.ofZ 5000)
    = Ok (Some {| frequency := Fin f; pitchConfidence := Fin c |}) /\
    inject_Z 4 - (1 # 2) < x < inject_Z 4 + (1 # 2) /\
    f == 12000 / x /\ (1 # 2) < c <= 1.
Proof.
  assert (Hpos : 0 < 12000) by reflexivity.
  assert (Hfin : Forall (fun x => JS.is_fin x = true) Samples.square)
    by (apply all_fin; reflexivity).
  assert (Ha : Autocorrelation.autocorrelation Samples.square
                 (TypedArray.length Samples.square)
                 (pitchMaxLag (lagsOf (Fin 12000) (JS.ofZ 50) (JS.ofZ 5000))
                              Samples.square)
               = Ok Samples.squareAutocorr) by (vm_compute; reflexivity).
  destruct (fallback_pitch_is_first_peak
              Samples.square Samples.squareAutocorr 12000
              (JS.ofZ 50) (JS.ofZ 5000) 2 Hfin Hpos eq_refl Ha) as [_ H].
  destruct (H 4%Z) as (x & f & c & H1 & _ & H3 & H4 & _ & H6).
  - lia.
  - vm_compute. reflexivity.
  - vm_compute. reflexivity.
  - intros l Hl. assert (Hc : l = 2%Z \/ l = 3%Z) by lia.
    destruct Hc as [-> | ->]; vm_compute; reflexivity.
  - exists x, f, c. auto.
Defined.

(** ** More on the BPM detector *)

(** The click track, run once. *)
Lemma clickTrack_nominal :
  Forall nominal (BPMDetector.channelDataOf Samples.clickTrack).
Proof. apply all_nominal. vm_compute. reflexivity. Qed.

Lemma clickTrack_onset :
  @BPMDetector.onsetAutocorr Samples.fixedPoint (Samples.bpmDefault 100)
    Samples.clickTrack = Ok Samples.clickOnset.
Proof. vm_compute. reflexivity. Qed.

Lemma clickTrack_detected :
  @BPMDetector.detect Samples.fixedPoint (Samples.bpmDefault 100)
    Samples.clickTrack = Ok Samples.clickResult.
Proof. vm_compute. reflexivity. Qed.

Section BeatRatio.
Import BPMDetector.
Context {M : JS.Math} {L : JS.MathLaws M}.

(** X12.  On samples in [-1, 1] at 100 Hz or more, the confidence of a
    reported BPM is the ratio autocorr[bestLag] / autocorr[0] itself: it
    is positive and never above 1, so the cap at 1 does not change it. *)
Theorem bpm_confidence_is_a_ratio (d : BPMDetector.t)
    (audioBuffer : AudioBuffer) (diff a : TypedArray.t) (r : BPMResult)
    (b : num) (sr : Q) :
  sampleRate d = Fin sr -> 100 <= sr ->
  Forall nominal (channelDataOf audioBuffer) ->
  onsetAutocorr d audioBuffer = Ok (diff, a) ->
  detect d audioBuffer = Ok r ->
  bpm r = Some b ->
  exists (bestLag : Z) (c : Q),
    (0 < bestLag < TypedArray.length a)%Z /\
    bpmConfidence r
      = JS.div (TypedArray.get a bestLag) (TypedArray.get a 0) /\
    bpmConfidence r = Fin c /\ 0 < c <= 1.
Proof.
  intros Hsr Hbig Hnom Hoa Hdet Hb.
  pose proof (nominal_fin _ Hnom) as Hfin.
  destruct (detect_selects d audioBuffer diff a r b sr Hsr Hbig Hfin Hoa
              Hdet Hb) as (bestLag & Hpos & Hpeak & _ & Hconf).
  destruct Hpeak as (Hband & _ & Hgt & _).
  unfold inBand in Hband. apply andb_true_iff in Hband as [_ Hlen].
  apply Z.ltb_lt in Hlen.
  destruct (onsetAutocorr_finNonneg d audioBuffer sr diff a Hsr Hbig Hfin Hoa)
    as [Ha Hd].
  assert (Hdfin : Forall (fun x => JS.is_fin x = true) diff).
  { eapply Forall_impl; [|exact Hd]. apply finNonneg_fin. }
  subst a. rewrite autocorrelate_length in Hlen.
  destruct (correlationAt_bound diff bestLag Hdfin)
    as (q & q0 & Hq & Hq0 & Hq0pos & Hle); [lia|].
  assert (Eb : TypedArray.get (autocorrelate diff) bestLag = Fin q)
    by (rewrite autocorrelate_get by lia; exact Hq).
  assert (E0 : TypedArray.get (autocorrelate diff) 0 = Fin q0)
    by (rewrite autocorrelate_get by lia; exact Hq0).
  rewrite Eb, E0 in Hconf. rewrite Eb in Hgt.
  unfold JS.gt, JS.zero in Hgt. cbn [JS.lt] in Hgt. qprop.
  assert (Ez : Qeq_bool q0 0 = false) by (apply Qeq_bool_false; lra).
  cbn [JS.div] in Hconf. rewrite Ez in Hconf.
  assert (Hratio : 0 < q / q0 <= 1).
  { split; [apply Qlt_shift_div_l; lra | apply Qle_shift_div_r; lra]. }
  assert (Hmin : JS.min (Fin (Qred (q / q0))) JS.one = Fin (Qred (q / q0))).
  { unfold JS.one. cbn [JS.min JS.lt].
    destruct (JS.Qltb 1 (Qred (q / q0))) eqn:E; [qprop; lra | reflexivity]. }
  rewrite Hmin in Hconf.
  exists bestLag, (Qred (q / q0)).
  split; [rewrite autocorrelate_length; lia|].
  split; [rewrite Eb, E0; cbn [JS.div]; rewrite Ez; exact Hconf|].
  split; [exact Hconf|].
  rewrite Qred_correct. exact Hratio.
Qed.

End BeatRatio.

Lemma bpm_confidence_is_a_ratio_witness :
  exists (bestLag : Z) (c : Q),
    (0 < bestLag < TypedArray.length (snd Samples.clickOnset))%Z /\
    bpmConfidence Samples.clickResult
      = JS.div (TypedArray.get (snd Samples.clickOnset) bestLag)
               (TypedArray.get (snd Samples.clickOnset) 0) /\
    bpmConfidence Samples.clickResult = Fin c /\ 0 < c <= 1.
Proof.
  assert (Hbig : 100 <= 100) by discriminate.
  apply (@bpm_confidence_is_a_ratio Samples.fixedPoint fixedPoint_laws
           (Samples.bpmDefault 100) Samples.clickTrack
           (fst Samples.clickOnset) (snd Samples.clickOnset)
           Samples.clickResult (Fin 120) 100 eq_refl Hbig).
  - exact clickTrack_nominal.
  - exact clickTrack_onset.
  - exact clickTrack_detected.
  - reflexivity.
Defined.



Section BeatTimes.
Import BPMDetector.
Context {M : JS.Math} {L : JS.MathLaws M}.

(** X11.  At a sample rate of 100 Hz or more and with a positive maximum
    tempo, for a buffer of fewer than 65536 hops past its first window
    (so that the frames fit the argument list of [Math.max]), the BPM
    detector returns a result exactly when the buffer holds at least one
    analysis window, and throws a RangeError exactly when it is
    shorter. *)
Theorem bpm_detection_needs_one_window (d : BPMDetector.t)
    (audioBuffer : AudioBuffer) (sr : Q) (ws hop : Z) :
  sampleRate d = Fin sr -> 100 <= sr ->
  JS.gt (maxBpm d) JS.zero = true ->
  windowSizeOf d = JS.ofZ ws -> hopSizeOf d = JS.ofZ hop ->
  (TypedArray.length (channelDataOf audioBuffer) < ws + 65536 * hop)%Z ->
  ((exists r, detect d audioBuffer = Ok r) <->
   (ws <= TypedArray.length (channelDataOf audioBuffer))%Z) /\
  (detect d audioBuffer = Throw RangeError <->
   (TypedArray.length (channelDataOf audioBuffer) < ws)%Z).
Proof.
  intros Hsr Hbig _ Hws _ _.
  assert (Hlong : (ws <= TypedArray.length (channelDataOf audioBuffer))%Z ->
                  exists r, detect d audioBuffer = Ok r).
  { intros Hlen.
    destruct (frame_sizes d sr Hsr Hbig) as (h & ws' & Hhop & _ & H1 & _).
    rewrite detect_unfold_bpm. unfold onsetAutocorr, calculateEnergyEnvelope.
    rewrite Hhop, Hws.
    destruct (numFrames_ofZ (TypedArray.length (channelDataOf audioBuffer))
                ws h H1) as (nf & -> & _ & Hnf).
    rewrite create_ofZ. specialize (Hnf Hlen).
    destruct (nf <? 0)%Z eqn:E; [lia|].
    cbn [bind]. eauto. }
  pose proof (detect_short_buffer d audioBuffer sr ws Hsr Hbig Hws) as Hshort.
  split; split.
  - intros [r Hr].
    destruct (Z_lt_dec (TypedArray.length (channelDataOf audioBuffer)) ws)
      as [Hlt|Hge]; [|lia].
    rewrite (Hshort Hlt) in Hr. discriminate.
  - exact Hlong.
  - intros Hthrow.
    destruct (Z_lt_dec (TypedArray.length (channelDataOf audioBuffer)) ws)
      as [Hlt|Hge]; [exact Hlt|].
    destruct Hlong as [r Hr]; [lia|]. rewrite Hr in Hthrow. discriminate.
  - exact Hshort.
Qed.

Lemma sorted_snoc (times : list num) (t : num) :
  ascending times ->
  Forall (fun p => JS.lt p t = true) times ->
  ascending (times ++ [t]).
Proof.
  unfold ascending. induction 1 as [|p times Hs IH Hp]; intros Hall.
  - repeat constructor.
  - inversion Hall as [|? ? Hpt Hrest]; subst.
    cbn [app]. constructor; [now apply IH|].
    apply Forall_app. split; [exact Hp | repeat constructor; exact Hpt].
Qed.

(** The time of frame [i]. *)
Lemma frame_time (i h : Z) (s : Q) :
  0 < s ->
  JS.div (JS.mul (JS.ofZ i) (JS.ofZ h)) (Fin s)
  = Fin (Qred (Qred (inject_Z i * inject_Z h) / s)).
Proof.
  intros Hs. unfold JS.ofZ. cbn [JS.mul JS.div].
  assert (E : Qeq_bool s 0 = false) by (apply Qeq_bool_false; lra).
  now rewrite E.
Qed.

Lemma beat_positions_ascend (d : BPMDetector.t) (diff : TypedArray.t)
    (h : Z) (s : Q) :
  sampleRate d = Fin s -> 0 < s -> (1 <= h)%Z ->
  ascending (detectBeatPositions d diff (JS.ofZ h)) /\
  Forall (fun p => JS.gt p JS.zero = true)
         (detectBeatPositions d diff (JS.ofZ h)).
Proof.
  intros Hsr Hs Hh. unfold detectBeatPositions. rewrite Hsr.
  set (thr := JS.mul _ _).
  set (n := (List.length diff - 2)%nat). clearbody n thr.
  (* after the frames 1..k every time is that of a frame from 1 to k *)
  assert (Hinv : forall k,
    let r := fold_left
      (fun positions i =>
         if JS.gt (TypedArray.get diff i) thr
            && JS.gt (TypedArray.get diff i) (TypedArray.get diff (i - 1))
            && JS.gt (TypedArray.get diff i) (TypedArray.get diff (i + 1))
         then positions ++ [JS.div (JS.mul (JS.ofZ i) (JS.ofZ h)) (Fin s)]
         else positions)
      (map (fun k => (k + 1)%Z) (upto k)) [] in
    ascending r /\
    Forall (fun p => exists i, (1 <= i <= Z.of_nat k)%Z /\
                     p = JS.div (JS.mul (JS.ofZ i) (JS.ofZ h)) (Fin s)) r).
  { induction k as [|k IH].
    - cbn. split; constructor.
    - rewrite upto_S, map_app, fold_left_app. cbn [map fold_left].
      cbv zeta in IH. destruct IH as [Hsorted Hall].
      set (acc := fold_left _ _ _) in *.
      assert (Hall' : Forall
        (fun p => exists i, (1 <= i <= Z.of_nat (S k))%Z /\
                  p = JS.div (JS.mul (JS.ofZ i) (JS.ofZ h)) (Fin s)) acc).
      { eapply Forall_impl; [|exact Hall].
        intros p (i & Hi & ->). exists i. split; [lia | reflexivity]. }
      destruct (_ && _); [|split; assumption].
      split.
      + apply sorted_snoc; [exact Hsorted|].
        eapply Forall_impl; [|exact Hall].
        intros p (i & Hi & ->). rewrite !frame_time by exact Hs.
        cbn [JS.lt]. qprop.
        assert (H1 : inject_Z i < inject_Z (Z.of_nat k + 1))
          by (rewrite <- Zlt_Qlt; lia).
        assert (H2 : 1 <= inject_Z h)
          by (change 1 with (inject_Z 1); rewrite <- Zle_Qle; lia).
        apply Qmult_lt_compat_r; [apply Qinv_lt_0_compat; exact Hs|].
        nra.
      + apply Forall_app. split; [exact Hall'|].
        repeat constructor. exists (Z.of_nat k + 1)%Z. split; [lia|].
        reflexivity. }
  destruct (Hinv n) as [Hsorted Hall]. split; [exact Hsorted|].
  eapply Forall_impl; [|exact Hall].
  intros p (i & Hi & ->). rewrite frame_time by exact Hs.
  unfold JS.gt, JS.zero. cbn [JS.lt]. qprop.
  assert (H1 : 1 <= inject_Z i)
    by (change 1 with (inject_Z 1); rewrite <- Zle_Qle; lia).
  assert (H2 : 1 <= inject_Z h)
    by (change 1 with (inject_Z 1); rewrite <- Zle_Qle; lia).
  apply Qlt_shift_div_l; [exact Hs|]. nra.
Qed.

(** X13.  The beat positions the BPM detector returns are positive
    times in strictly ascending order, and there are none when no BPM is
    reported. *)
Theorem beat_times_ascend (d : BPMDetector.t) (audioBuffer : AudioBuffer)
    (sr : Q) (r : BPMResult) :
  sampleRate d = Fin sr -> 100 <= sr ->
  detect d audioBuffer = Ok r ->
  ascending (beatPositions r) /\
  Forall (fun p => JS.gt p JS.zero = true) (beatPositions r) /\
  (bpm r = None -> beatPositions r = []).
Proof.
  intros Hsr Hbig. rewrite detect_unfold_bpm.
  destruct (onsetAutocorr d audioBuffer) as [[diff a]|e]; [|discriminate].
  cbn [bind fst snd]. lazy zeta. intros H. apply Ok_inj in H. subst r.
  cbn [bpm beatPositions].
  destruct (frame_sizes d sr Hsr Hbig) as (hop & ws & Hhop & _ & H1 & _).
  rewrite Hhop.
  destruct (_ >? 0)%Z.
  - destruct (beat_positions_ascend d diff hop sr Hsr ltac:(lra) H1)
      as [Hs Hp].
    repeat split; [exact Hs | exact Hp | discriminate].
  - repeat split; constructor.
Qed.

End BeatTimes.

Lemma beat_times_ascend_witness :
  ascending (beatPositions Samples.clickResult) /\
  Forall (fun p => JS.gt p JS.zero = true)
         (beatPositions Samples.clickResult).
Proof.
  assert (Hbig : 100 <= 100) by discriminate.
  destruct (@beat_times_ascend Samples.fixedPoint
              (Samples.bpmDefault 100) Samples.clickTrack 100
              Samples.clickResult eq_refl Hbig) as (H1 & H2 & _).
  - exact clickTrack_detected.
  - split; assumption.
Defined.

Lemma bpm_detection_needs_one_window_witness :
  (exists r, @BPMDetector.detect Samples.fixedPoint (Samples.bpmDefault 100)
               Samples.clickTrack = Ok r) /\
  @BPMDetector.detect Samples.fixedPoint (Samples.bpmDefault 44100)
    Samples.shortClip = Throw RangeError.
Proof.
  assert (Hbig : 100 <= 100) by discriminate.
  assert (Hbig' : 100 <= 44100) by discriminate.
  split.
  - apply (proj1 (@bpm_detection_needs_one_window Samples.fixedPoint
                    (Samples.bpmDefault 100) Samples.clickTrack 100 4 1
                    eq_refl Hbig eq_refl eq_refl eq_refl eq_refl)).
    vm_compute. discriminate.
  - apply (proj2 (@bpm_detection_needs_one_window Samples.fixedPoint
                    (Samples.bpmDefault 44100) Samples.shortClip 44100 1764
                    441 eq_refl Hbig' eq_refl eq_refl eq_refl eq_refl)).
    vm_compute. reflexivity.
Defined.


Section BeatValue.
Import BPMDetector.
Context {M : JS.Math} {L : JS.MathLaws M}.

(** X14.  A reported BPM is a whole number that is not negative. *)
Theorem bpm_is_a_whole_number (d : BPMDetector.t)
    (audioBuffer : AudioBuffer) (sr : Q) (r : BPMResult) (b : num) :
  sampleRate d = Fin sr -> 100 <= sr ->
  detect d audioBuffer = Ok r -> bpm r = Some b ->
  exists n : Z, b = JS.ofZ n /\ (0 <= n)%Z.
Proof.
  intros Hsr Hbig. rewrite detect_unfold_bpm.
  destruct (onsetAutocorr d audioBuffer) as [[diff a]|e]; [|discriminate].
  cbn [bind fst snd]. lazy zeta. intros H. apply Ok_inj in H. subst r.
  cbn [bpm].
  destruct (frame_sizes d sr Hsr Hbig) as (hop & ws & Hhop & _ & H1 & _).
  rewrite Hhop, Hsr.
  set (lag := snd (findBestLag a (minLagOf d) (maxLagOf d))).
  destruct (lag >? 0)%Z eqn:Epos; [|discriminate].
  apply Z.gtb_lt in Epos. intros H. apply (f_equal (fun o => match o with
                                                             | Some v => v
                                                             | None => NaN
                                                             end)) in H.
  subst b.
  rewrite frame_time by lra.
  set (spb := Qred (Qred (inject_Z lag * inject_Z hop) / sr)).
  assert (Hspb : 0 < spb).
  { unfold spb. rewrite !Qred_correct.
    assert (H2 : 1 <= inject_Z lag)
      by (change 1 with (inject_Z 1); rewrite <- Zle_Qle; lia).
    assert (H3 : 1 <= inject_Z hop)
      by (change 1 with (inject_Z 1); rewrite <- Zle_Qle; lia).
    apply Qlt_shift_div_l; [lra | nra]. }
  unfold JS.ofZ at 1. cbn [JS.div].
  assert (E : Qeq_bool spb 0 = false) by (apply Qeq_bool_false; lra).
  rewrite E. cbn [JS.round].
  eexists. split; [reflexivity|].
  apply (Qfloor_lower 0). rewrite Qred_correct.
  assert (H60 : 0 < inject_Z 60 / spb)
    by (apply Qlt_shift_div_l; [exact Hspb | reflexivity]).
  change (inject_Z 0) with 0. lra.
Qed.

End BeatValue.

Lemma bpm_is_a_whole_number_witness :
  exists n : Z, Fin 120 = JS.ofZ n /\ (0 <= n)%Z.
Proof.
  assert (Hbig : 100 <= 100) by discriminate.
  apply (@bpm_is_a_whole_number Samples.fixedPoint
           (Samples.bpmDefault 100) Samples.clickTrack 100
           Samples.clickResult (Fin 120) eq_refl Hbig).
  - exact clickTrack_detected.
  - reflexivity.
Defined.

(** ** Mixing channels *)

Section Mixing.

Lemma get_map_upto (f : Z -> num) (n : nat) (i : Z) :
  (0 <= i < Z.of_nat n)%Z -> TypedArray.get (map f (upto n)) i = f i.
Proof.
  intros Hi. unfold TypedArray.get.
  destruct (i <? 0)%Z eqn:E; [lia|].
  rewrite (nth_indep _ NaN (f 0%Z)) by (rewrite length_map, upto_length; lia).
  rewrite map_nth. f_equal. unfold upto.
  rewrite (nth_indep _ 0%Z (Z.of_nat 0)) by (rewrite length_map, length_seq; lia).
  rewrite map_nth, seq_nth by lia. lia.
Qed.

Lemma Qsum_bounds (g : Z -> Q) (n : nat) (A : Q) :
  (forall k, (0 <= k < Z.of_nat n)%Z -> - A <= g k <= A) ->
  - (inject_Z (Z.of_nat n) * A) <= Qsum g n <= inject_Z (Z.of_nat n) * A.
Proof.
  induction n as [|n IH]; intros H.
  - cbn [Qsum]. change (inject_Z (Z.of_nat 0)) with 0. lra.
  - cbn [Qsum]. rewrite Nat2Z.inj_succ. unfold Z.succ.
    rewrite inject_Z_plus. change (inject_Z 1) with 1.
    destruct IH as [I1 I2]; [intros k Hk; apply H; lia|].
    destruct (H (Z.of_nat n)) as [H1 H2]; [lia|]. lra.
Qed.

(** X15.  [mixChannels] returns as many samples as the buffer is long;
    where the channels hold finite samples, the mixed sample is their
    mean, and it stays within any bound the channels' samples stay
    within. *)
Theorem mixChannels_is_the_mean (b : AudioBuffer) (i : Z) :
  (1 <= numberOfChannels b)%Z -> (0 <= i < ab_length b)%Z ->
  (forall ch, (0 <= ch < numberOfChannels b)%Z ->
              JS.is_fin (TypedArray.get (getChannelData b ch) i) = true) ->
  TypedArray.length (mixChannels b) = ab_length b /\
  exists m,
    TypedArray.get (mixChannels b) i = Fin m /\
    m * inject_Z (numberOfChannels b)
    == Qsum (fun ch => valueAt (getChannelData b ch) i)
            (Z.to_nat (numberOfChannels b)) /\
    forall A,
      (forall ch, (0 <= ch < numberOfChannels b)%Z ->
                  - A <= valueAt (getChannelData b ch) i <= A) ->
      - A <= m <= A.
Proof.
  intros Hn Hi Hfin. split.
  - unfold mixChannels, TypedArray.length.
    rewrite length_map, upto_length. lia.
  - unfold mixChannels. rewrite get_map_upto by lia.
    destruct (fold_Qsum (fun ch => TypedArray.get (getChannelData b ch) i)
                (fun ch => valueAt (getChannelData b ch) i)
                (Z.to_nat (numberOfChannels b))) as (r & Hr & Er).
    { intros ch Hch. specialize (Hfin ch ltac:(lia)).
      unfold valueAt. destruct (TypedArray.get _ i); try discriminate.
      eexists. split; reflexivity. }
    rewrite Hr. unfold JS.ofZ. cbn [JS.div].
    rewrite inject_Z_nonzero by lia.
    assert (Hpos : 0 < inject_Z (numberOfChannels b))
      by (apply inject_Z_pos; lia).
    eexists. split; [reflexivity|]. split.
    + rewrite Qred_correct, <- Er. field. lra.
    + intros A HA. rewrite Qred_correct.
      pose proof (Qsum_bounds (fun ch => valueAt (getChannelData b ch) i)
                    (Z.to_nat (numberOfChannels b)) A) as Hb.
      destruct Hb as [B1 B2]; [intros k Hk; apply HA; lia|].
      rewrite Z2Nat.id in B1, B2 by lia. rewrite <- Er in B1, B2.
      split.
      * apply Qle_shift_div_l; [exact Hpos|]. lra.
      * apply Qle_shift_div_r; [exact Hpos|]. lra.
Qed.

End Mixing.

Lemma mixChannels_is_the_mean_witness :
  TypedArray.length (mixChannels Samples.stereo) = 2%Z /\
  exists m, TypedArray.get (mixChannels Samples.stereo) 0 = Fin m /\
            - (1) <= m <= 1.
Proof.
  destruct (mixChannels_is_the_mean Samples.stereo 0) as (Hl & m & Hm & _ & Hb).
  - vm_compute. discriminate.
  - vm_compute. split; [discriminate | reflexivity].
  - intros ch Hch. change (numberOfChannels Samples.stereo) with 2%Z in Hch.
    assert (Hc : ch = 0%Z \/ ch = 1%Z) by lia.
    destruct Hc as [-> | ->]; reflexivity.
  - split; [exact Hl|]. exists m. split; [exact Hm|].
    apply Hb. intros ch Hch.
    change (numberOfChannels Samples.stereo) with 2%Z in Hch.
    assert (Hc : ch = 0%Z \/ ch = 1%Z) by lia.
    destruct Hc as [-> | ->]; vm_compute; split; discriminate.
Defined.

(** ** More on chords and chromagrams *)

Section ChordScores.
Import ChordRecognizer.

(** A chromagram of finite values yields a chord. *)
Lemma recognize_total (c : TypedArray.t) :
  List.length c = 12%nat -> Forall (fun x => JS.is_fin x = true) c ->
  exists ch, recognize c = Some ch.
Proof.
  intros Hlen Hfin. unfold recognize. rewrite search_flat.
  destruct (snd (fold_left (stepPair c) candidates (NInf, None))) eqn:E;
    [eauto|].
  exfalso. revert E.
  destruct first_candidate as [rest ->].
  cbn [fold_left]. apply fold_keeps_chord.
  unfold stepPair, step. cbn [fst snd].
  assert (F : JS.is_fin (matchTemplate c 0 [0; 4; 7]%Z) = true).
  { apply matchTemplate_fin; auto; [lia|]. repeat constructor; lia. }
  destruct (matchTemplate c 0 [0; 4; 7]%Z); try discriminate F.
  discriminate.
Qed.

Ltac score T :=
  eexists; split; [reflexivity | unfold T; rewrite !Qred_correct; ring].

(** Some major chord has a score that is not negative: the twelve major
    scores add up to 0.3 times the total energy. *)
Lemma some_major_fits (c : TypedArray.t) :
  List.length c = 12%nat -> Forall finNonneg c ->
  exists (root : Z) (x : Q),
    (0 <= root < 12)%Z /\ matchTemplate c root [0; 4; 7]%Z = Fin x /\ 0 <= x.
Proof.
  intros Hlen Hc.
  destruct c as [|x0 [|x1 [|x2 [|x3 [|x4 [|x5 [|x6 [|x7 [|x8 [|x9 [|x10
               [|x11 [|]]]]]]]]]]]]]; try discriminate Hlen.
  clear Hlen.
  repeat match goal with
  | H : Forall _ (_ :: _) |- _ => inversion H; clear H; subst
  | H : Forall _ [] |- _ => clear H
  end.
  destruct x0 as [q0| | |]; try contradiction.
  destruct x1 as [q1| | |]; try contradiction.
  destruct x2 as [q2| | |]; try contradiction.
  destruct x3 as [q3| | |]; try contradiction.
  destruct x4 as [q4| | |]; try contradiction.
  destruct x5 as [q5| | |]; try contradiction.
  destruct x6 as [q6| | |]; try contradiction.
  destruct x7 as [q7| | |]; try contradiction.
  destruct x8 as [q8| | |]; try contradiction.
  destruct x9 as [q9| | |]; try contradiction.
  destruct x10 as [q10| | |]; try contradiction.
  destruct x11 as [q11| | |]; try contradiction.
  cbn [finNonneg] in *.
  set (c := [Fin q0; Fin q1; Fin q2; Fin q3; Fin q4; Fin q5; Fin q6; Fin q7;
             Fin q8; Fin q9; Fin q10; Fin q11]).
  set (T := q0 + q1 + q2 + q3 + q4 + q5 + q6 + q7 + q8 + q9 + q10 + q11).
  assert (S : forall (r : Z) (a b e : Q),
             (exists x, matchTemplate c r [0; 4; 7]%Z = Fin x /\
                        x == (13 # 10) * (a + b + e) - (3 # 10) * T) ->
             (13 # 10) * (a + b + e) - (3 # 10) * T < 0 \/
             exists (root : Z) (x : Q),
               root = r /\ matchTemplate c root [0; 4; 7]%Z = Fin x /\ 0 <= x).
  { intros r a b e (x & Hx & Ex).
    destruct (Qlt_le_dec x 0) as [Hneg|Hpos]; [left; lra|].
    right. exists r, x. auto. }
  destruct (S 0%Z q0 q4 q7) as [N0|(r & x & -> & Hx)];
    [score T | | exists 0%Z, x; split; [lia | exact Hx]].
  destruct (S 1%Z q1 q5 q8) as [N1|(r & x & -> & Hx)];
    [score T | | exists 1%Z, x; split; [lia | exact Hx]].
  destruct (S 2%Z q2 q6 q9) as [N2|(r & x & -> & Hx)];
    [score T | | exists 2%Z, x; split; [lia | exact Hx]].
  destruct (S 3%Z q3 q7 q10) as [N3|(r & x & -> & Hx)];
    [score T | | exists 3%Z, x; split; [lia | exact Hx]].
  destruct (S 4%Z q4 q8 q11) as [N4|(r & x & -> & Hx)];
    [score T | | exists 4%Z, x; split; [lia | exact Hx]].
  destruct (S 5%Z q5 q9 q0) as [N5|(r & x & -> & Hx)];
    [score T | | exists 5%Z, x; split; [lia | exact Hx]].
  destruct (S 6%Z q6 q10 q1) as [N6|(r & x & -> & Hx)];
    [score T | | exists 6%Z, x; split; [lia | exact Hx]].
  destruct (S 7%Z q7 q11 q2) as [N7|(r & x & -> & Hx)];
    [score T | | exists 7%Z, x; split; [lia | exact Hx]].
  destruct (S 8%Z q8 q0 q3) as [N8|(r & x & -> & Hx)];
    [score T | | exists 8%Z, x; split; [lia | exact Hx]].
  destruct (S 9%Z q9 q1 q4) as [N9|(r & x & -> & Hx)];
    [score T | | exists 9%Z, x; split; [lia | exact Hx]].
  destruct (S 10%Z q10 q2 q5) as [N10|(r & x & -> & Hx)];
    [score T | | exists 10%Z, x; split; [lia | exact Hx]].
  destruct (S 11%Z q11 q3 q6) as [N11|(r & x & -> & Hx)];
    [score T | | exists 11%Z, x; split; [lia | exact Hx]].
  exfalso. unfold T in *. lra.
Qed.


Lemma inUnit_finNonneg (x : num) : inUnit x -> finNonneg x.
Proof. destruct x; cbn; tauto. Qed.

Lemma recognize_scores (c : TypedArray.t) :
  List.length c = 12%nat -> Forall finNonneg c ->
  exists (ch : ChordInfo) (s : Q),
    recognize c = Some ch /\
    bestScore c = Fin s /\ 0 <= s /\
    inUnit (confidence ch).
Proof.
  intros Hlen Hc.
  assert (Hfin : Forall (fun x => JS.is_fin x = true) c).
  { eapply Forall_impl; [|exact Hc]. apply finNonneg_fin. }
  destruct (recognize_total c Hlen Hfin) as [ch Hch].
  destruct (recognize_some c ch Hch) as (r & ty & iv & Hr & Hin & Hs & ->).
  pose proof (matchTemplate_fin c r iv Hlen Hfin ltac:(lia)
                (templates_nonneg ty iv Hin)) as Hbest.
  rewrite <- Hs in Hbest.
  destruct (some_major_fits c Hlen Hc) as (r0 & x & Hr0 & Hx & Hx0).
  pose proof (bestScore_is_max c r0 "major" [0; 4; 7]%Z Hr0
                ltac:(left; reflexivity)) as Hmax.
  rewrite Hx in Hmax.
  destruct (bestScore c) as [s| | |] eqn:Eb; try discriminate Hbest.
  unfold JS.gt in Hmax. cbn [JS.lt] in Hmax. qprop.
  exists (makeChord r ty iv (Fin s)), s.
  split; [exact Hch|]. split; [reflexivity|]. split; [lra|].
  unfold makeChord. cbn [confidence]. unfold JS.ofZ.
  apply ratio_inUnit; [lra | reflexivity].
Qed.

(** X16.  For a chromagram of twelve finite values that are not
    negative, [recognize] returns a chord, the best score is not negative
    and the confidence lies in [0, 1]. *)
Theorem chord_confidence_in_unit (c : TypedArray.t) :
  List.length c = 12%nat -> Forall finNonneg c ->
  exists (ch : ChordInfo) (s : Q),
    recognize c = Some ch /\
    bestScore c = Fin s /\ 0 <= s /\
    inUnit (confidence ch).
Proof. exact (recognize_scores c). Qed.

End ChordScores.

Lemma chord_confidence_in_unit_witness :
  exists (ch : ChordInfo) (s : Q),
    ChordRecognizer.recognize Samples.cTriad = Some ch /\
    ChordRecognizer.bestScore Samples.cTriad = Fin s /\ 0 <= s /\
    inUnit (confidence ch).
Proof.
  apply (chord_confidence_in_unit Samples.cTriad); [reflexivity|].
  repeat constructor; discriminate.
Defined.

Section ChordMethod.
Import ChordRecognizer.
Context {M : JS.Math}.

(** X17.  [recognizeChord] returns a chord for every spectrum, the empty
    one included, at every sample rate, and its confidence lies in
    [0, 1]. *)
Theorem recognizeChord_always_answers (a : AudioAnalyzer.t)
    (frequencyData : list Byte.byte) :
  exists ch : ChordInfo,
    AudioAnalyzer.recognizeChord a frequencyData = Some ch /\
    inUnit (confidence ch).
Proof.
  unfold AudioAnalyzer.recognizeChord. lazy zeta.
  destruct (calculateChromagram_inUnit frequencyData
              (AudioAnalyzer.ctxSampleRate a)) as [Hlen Hunit].
  destruct (recognize_scores
              (calculateChromagram frequencyData
                 (AudioAnalyzer.ctxSampleRate a)))
    as (ch & s & Hch & _ & _ & Hconf).
  - unfold TypedArray.length in Hlen. lia.
  - eapply Forall_impl; [|exact Hunit]. apply inUnit_finNonneg.
  - exists ch. split; assumption.
Qed.

End ChordMethod.


Section ChordShape.
Import ChordRecognizer.

(** X18.  Every chord [recognize] returns has three distinct notes of
    the twelve note names, the first of them its root, a quality other
    than "unknown", and the name of its root followed by the quality
    (nothing for major). *)
Theorem recognized_chord_is_well_formed (c : TypedArray.t) (ch : ChordInfo) :
  recognize c = Some ch -> wellFormed ch = true.
Proof.
  intros Hch.
  destruct (recognize_some c ch Hch) as (r & ty & iv & Hr & Hin & _ & ->).
  assert (Hall : forallb
            (fun p => wellFormed (makeChord (fst p) (fst (snd p))
                                            (snd (snd p)) JS.zero))
            candidates = true) by (vm_compute; reflexivity).
  rewrite forallb_forall in Hall.
  assert (Hc : In (r, (ty, iv)) candidates)
    by (apply in_candidates; split; assumption).
  exact (Hall _ Hc).
Qed.

Lemma recognized_chord_is_well_formed_witness :
  wellFormed (Samples.cMajor JS.one) = true.
Proof.
  apply (recognized_chord_is_well_formed Samples.cTriad).
  vm_compute. reflexivity.
Defined.

End ChordShape.

Section SilentSpectrum.
Import ChordRecognizer.
Context {M : JS.Math}.

Lemma accumulate_silent (frequencyData : list Byte.byte) (nyquist : num)
    (chromagram : TypedArray.t) (i : Z) :
  Forall (fun b => b = Byte.x00) frequencyData ->
  allZero chromagram ->
  allZero (accumulate frequencyData nyquist chromagram i).
Proof.
  intros Hfd Hc. unfold accumulate. lazy zeta.
  destruct (JS.gt _ JS.zero); [|exact Hc].
  destruct (_ && _); [|exact Hc].
  unfold TypedArray.set_num, TypedArray.get_num.
  destruct (JS.toIndex _) as [k|]; [|exact Hc].
  destruct (Z_lt_le_dec k 0) as [Hneg|Hnn].
  { rewrite set_outside by auto. exact Hc. }
  destruct (Z_lt_le_dec k (TypedArray.length chromagram)) as [Hlt|Hge].
  - apply Forall_set; [exact Hc|].
    rewrite (get_allZero chromagram k Hc) by lia.
    assert (Hb : nth (Z.to_nat i) frequencyData Byte.x00 = Byte.x00).
    { destruct (nth_in_or_default (Z.to_nat i) frequencyData Byte.x00)
        as [Hin|Hdef]; [|exact Hdef].
      rewrite Forall_forall in Hfd. now apply Hfd. }
    rewrite Hb. reflexivity.
  - rewrite set_outside by auto. exact Hc.
Qed.

(** X19.  A spectrum of zero bytes, of any length and at any sample rate,
    gives the all-zero chromagram, and [recognizeChord] answers C major
    with confidence 0. *)
Theorem silent_spectrum_is_C_major (a : AudioAnalyzer.t)
    (frequencyData : list Byte.byte) (sampleRate : num) :
  Forall (fun b => b = Byte.x00) frequencyData ->
  calculateChromagram frequencyData sampleRate = Samples.silence /\
  AudioAnalyzer.recognizeChord a frequencyData
  = Some (Samples.cMajor JS.zero).
Proof.
  intros Hfd.
  assert (H : forall sr,
             calculateChromagram frequencyData sr = Samples.silence).
  { intros sr. unfold calculateChromagram. lazy zeta.
    match goal with |- normalize ?c = _ =>
      assert (Hc : TypedArray.length c = 12%Z /\ allZero c)
    end.
    { apply fold_left_inv.
      - split; [reflexivity|]. apply Forall_repeat. reflexivity.
      - intros c i _ [Hl Hc]. split.
        + now rewrite accumulate_length.
        + now apply accumulate_silent. }
    destruct Hc as [Hl Hc].
    assert (E : forall c : TypedArray.t,
               TypedArray.length c = 12%Z -> allZero c ->
               c = Samples.silence).
    { clear. intros c Hl Hc. unfold Samples.silence.
      replace 12%nat with (List.length c)
        by (unfold TypedArray.length in Hl; lia).
      apply Forall_eq_repeat. eapply Forall_impl; [|exact Hc].
      intros x ->. reflexivity. }
    rewrite (E _ Hl Hc). reflexivity. }
  split; [apply H|].
  unfold AudioAnalyzer.recognizeChord. lazy zeta. rewrite H.
  vm_compute. reflexivity.
Qed.

End SilentSpectrum.

Lemma silent_spectrum_is_C_major_witness :
  @ChordRecognizer.calculateChromagram Samples.fixedPoint
    (repeat Byte.x00 16) (JS.ofZ 16000) = Samples.silence /\
  @AudioAnalyzer.recognizeChord Samples.fixedPoint Samples.defaultAnalyzer
    (repeat Byte.x00 16) = Some (Samples.cMajor JS.zero).
Proof.
  apply (@silent_spectrum_is_C_major Samples.fixedPoint).
  repeat constructor.
Defined.

Section ChromaPeak.
Import ChordRecognizer.
Context {M : JS.Math}.

Lemma max_picks (xs : list num) (acc : num) :
  Forall finNonneg xs -> acc = NInf \/ finNonneg acc ->
  fold_left JS.max xs acc = acc \/ In (fold_left JS.max xs acc) xs.
Proof.
  intros Hxs. revert acc.
  induction Hxs as [|x xs Hx Hxs IH]; intros acc Hacc; cbn [fold_left];
    [left; reflexivity|].
  assert (Hm : (JS.max acc x = acc \/ JS.max acc x = x)
               /\ (JS.max acc x = NInf \/ finNonneg (JS.max acc x))).
  { destruct x as [q| | |]; try contradiction.
    destruct Hacc as [-> | Hacc]; [cbn; auto|].
    destruct acc as [p| | |]; try contradiction.
    cbn [JS.max JS.lt]. destruct (JS.Qltb p q); auto. }
  destruct Hm as [Hpick Hkeep].
  destruct (IH _ Hkeep) as [E|Hin].
  - rewrite E. destruct Hpick as [-> | ->]; [left; reflexivity|].
    right. left. reflexivity.
  - right. right. exact Hin.
Qed.

(** X20.  A chromagram is either zero in all twelve classes or holds
    exactly 1 in some class. *)
Theorem chromagram_peaks_at_one (frequencyData : list Byte.byte)
    (sampleRate : num) :
  let c := calculateChromagram frequencyData sampleRate in
  Forall (fun x => isZeroCell x = true) c \/
  exists i, (0 <= i < 12)%Z /\ TypedArray.get c i = JS.one.
Proof.
  unfold calculateChromagram. lazy zeta.
  match goal with |- context [normalize ?c] =>
    assert (H : TypedArray.length c = 12%Z /\ Forall finNonneg c);
    [|set (c0 := c) in *]
  end.
  { apply fold_left_inv.
    - split; [reflexivity|]. apply Forall_repeat, finNonneg_zero.
    - intros c i _ [Hl Hc]. split.
      + now rewrite accumulate_length.
      + now apply accumulate_finNonneg. }
  destruct H as [Hlen Hc].
  assert (Hne : c0 <> []) by (intros E; rewrite E in Hlen; discriminate).
  destruct (max_list_spec c0 Hc Hne) as (m & Hm & Hm0 & Hall).
  unfold normalize. lazy zeta. rewrite Hm.
  destruct (JS.gt (Fin m) JS.zero) eqn:E;
    unfold JS.gt, JS.zero in E; cbn [JS.lt] in E; qprop.
  - right.
    destruct (max_picks c0 NInf Hc (or_introl eq_refl)) as [E0|Hin];
      fold (JS.max_list c0) in *; rewrite Hm in *; [discriminate|].
    destruct (nth_index c0 (Fin m) Hin) as (i & Hi & Hget).
    exists i. split; [lia|].
    rewrite (update_get (fun x => JS.div x (Fin m))) by lia.
    rewrite Hget. cbn [JS.div].
    assert (Ez : Qeq_bool m 0 = false) by (apply Qeq_bool_false; lra).
    rewrite Ez. unfold JS.one. f_equal.
    change 1 with (Qred 1). apply Qred_complete. field. lra.
  - left. eapply Forall_impl; [|exact Hall].
    intros x (q & -> & Hq0 & Hqm). cbn [isZeroCell].
    apply Qeq_bool_iff. lra.
Qed.

End ChromaPeak.

(** ** The normalised difference, cell by cell *)


Section PitchCells.
Import YINDetector.

Lemma runningSumAt_S (difference : TypedArray.t) (n : nat) :
  runningSumAt difference (S n)
  = JS.add (runningSumAt difference n)
           (TypedArray.get difference (Z.of_nat n + 1)).
Proof.
  unfold runningSumAt. rewrite upto_S, map_app, fold_left_app. reflexivity.
Qed.

(** The loop of [cumulativeMeanNormalizedDifference], cell by cell. *)
Lemma cmndf_loop (difference c0 : TypedArray.t) (n : nat) :
  let r :=
    fold_left
      (fun (st : TypedArray.t * num) tau =>
         let runningSum := JS.add (snd st) (TypedArray.get difference tau) in
         (TypedArray.set (fst st) tau
            (JS.div (TypedArray.get difference tau)
                    (JS.div runningSum (JS.ofZ tau))),
          runningSum))
      (map (fun k => (k + 1)%Z) (upto n)) (c0, JS.zero) in
  snd r = runningSumAt difference n /\
  TypedArray.length (fst r) = TypedArray.length c0 /\
  forall j,
    ((1 <= j <= Z.of_nat n)%Z -> (j < TypedArray.length c0)%Z ->
     TypedArray.get (fst r) j = cmndfCell difference j) /\
    ((j < 1 \/ Z.of_nat n < j)%Z ->
     TypedArray.get (fst r) j = TypedArray.get c0 j).
Proof.
  induction n as [|n IH]; cbv zeta.
  - cbn. split; [reflexivity|]. split; [reflexivity|].
    intros j. split; [lia | reflexivity].
  - rewrite upto_S, map_app, fold_left_app. cbn [map fold_left].
    cbv zeta in IH. destruct IH as (Hs & Hl & Hcells).
    set (st := fold_left _ _ _) in *. cbn [fst snd].
    rewrite Hs. split; [now rewrite runningSumAt_S|].
    split; [now rewrite set_length|].
    intros j. destruct (Hcells j) as [Hin Hout]. split.
    + intros Hj Hlen.
      destruct (Z.eq_dec j (Z.of_nat n + 1)) as [->|Hne].
      * rewrite get_set_same by lia. unfold cmndfCell.
        replace (Z.to_nat (Z.of_nat n + 1)) with (S n) by lia.
        now rewrite runningSumAt_S.
      * rewrite get_set_other by congruence. apply Hin; lia.
    + intros Hj. rewrite get_set_other by lia. apply Hout. lia.
Qed.

Lemma cmndf_cells (difference cmndf : TypedArray.t) (maxLag : num) :
  cumulativeMeanNormalizedDifference difference maxLag = Ok cmndf ->
  forall j, (1 <= j < TypedArray.length cmndf)%Z ->
            TypedArray.get cmndf j = cmndfCell difference j.
Proof.
  unfold cumulativeMeanNormalizedDifference.
  destruct (TypedArray.create maxLag) as [c0|e] eqn:Ec; [|discriminate].
  cbn [bind]. intros H j Hj. apply Ok_inj in H. subst cmndf.
  destruct (cmndf_loop difference (TypedArray.set c0 0 JS.one)
              (turns 1 maxLag)) as (_ & Hl & Hcells).
  cbv zeta in Hl, Hcells. rewrite Hl, set_length in Hj.
  apply (proj1 (Hcells j)); [|rewrite set_length; lia].
  destruct maxLag as [q| | |]; try discriminate.
  - apply create_length in Ec as [Hlen _]. unfold turns.
    pose proof (trunc_le_ceiling q). lia.
  - apply Ok_inj in Ec. subst c0. unfold TypedArray.length in Hj.
    simpl in Hj. lia.
Qed.


Lemma below_ceiling (i : Z) (x : Q) : (i < Qceiling x)%Z -> inject_Z i < x.
Proof.
  intros H. pose proof (Qceiling_lt x) as Hc.
  assert (Hi : inject_Z i <= inject_Z (Qceiling x - 1))
    by (rewrite <- Zle_Qle; lia).
  lra.
Qed.

Lemma below_trunc (j : Z) (q : Q) :
  (0 <= j < JS.trunc q)%Z -> inject_Z j + 1 <= q.
Proof.
  unfold JS.trunc. intros Hj.
  destruct (JS.Qltb q 0) eqn:E.
  - exfalso. qprop.
    assert (H : (Qceiling q <= 0)%Z).
    { change 0%Z with (Qceiling (inject_Z 0)). apply Qceiling_resp_le.
      change (inject_Z 0) with 0. lra. }
    lia.
  - pose proof (Qfloor_le q) as Hf.
    assert (H : inject_Z (j + 1) <= inject_Z (Qfloor q))
      by (rewrite <- Zle_Qle; lia).
    rewrite inject_Z_plus in H. change (inject_Z 1) with 1 in H. lra.
Qed.

Lemma differenceAt_finNonneg (buffer : TypedArray.t) (q : Q) (j : Z) :
  Forall (fun x => JS.is_fin x = true) buffer ->
  (0 <= j)%Z -> inject_Z j + 1 <= q ->
  finNonneg (differenceAt buffer (TypedArray.length buffer) (Fin q) j).
Proof.
  intros Hfin Hj Hq. unfold differenceAt.
  apply fold_left_inv; [exact finNonneg_zero|].
  intros s i Hi Hs. apply in_upto in Hi.
  unfold JS.ofZ in Hi. cbn [JS.sub JS.neg JS.add turns] in Hi.
  assert (Hlt : inject_Z i
                < Qred (inject_Z (TypedArray.length buffer) + Qred (- q)))
    by (apply below_ceiling; lia).
  rewrite !Qred_correct in Hlt.
  assert (Hij : (i + j < TypedArray.length buffer)%Z).
  { rewrite Zlt_Qlt, inject_Z_plus. lra. }
  apply finNonneg_add; [exact Hs|].
  apply finNonneg_square, sub_fin; apply get_fin; auto; lia.
Qed.

Lemma difference_cells (buffer difference : TypedArray.t) (maxLag : num) :
  Forall (fun x => JS.is_fin x = true) buffer ->
  differenceFunction buffer (TypedArray.length buffer) maxLag
    = Ok difference ->
  forall j, (0 <= j < TypedArray.length difference)%Z ->
            finNonneg (TypedArray.get difference j).
Proof.
  intros Hfin. unfold differenceFunction.
  destruct (TypedArray.create maxLag) as [a0|e] eqn:Ec; [|discriminate].
  cbn [bind]. intros H j Hj. apply Ok_inj in H. subst difference.
  rewrite fill_length in Hj.
  destruct maxLag as [q| | |]; try discriminate.
  - apply create_length in Ec as [Hlen _].
    rewrite (fill_get
               (differenceAt buffer (TypedArray.length buffer) (Fin q))).
    + apply differenceAt_finNonneg; [exact Hfin | lia|].
      apply below_trunc. lia.
    + unfold turns. pose proof (trunc_le_ceiling q). lia.
    + lia.
  - apply Ok_inj in Ec. subst a0. unfold TypedArray.length in Hj.
    simpl in Hj. lia.
Qed.


Lemma finNonneg_valueAt (a : TypedArray.t) (j : Z) :
  finNonneg (TypedArray.get a j) ->
  TypedArray.get a j = Fin (valueAt a j) /\ 0 <= valueAt a j.
Proof.
  unfold valueAt. destruct (TypedArray.get a j); cbn [finNonneg];
    intros H; try contradiction.
  split; [reflexivity | exact H].
Qed.

Lemma Qsum_nonneg_in (h : Z -> Q) (n : nat) :
  (forall i, (0 <= i < Z.of_nat n)%Z -> 0 <= h i) -> 0 <= Qsum h n.
Proof.
  induction n as [|n IH]; intros H; cbn [Qsum]; [lra|].
  assert (H1 : 0 <= Qsum h n) by (apply IH; intros; apply H; lia).
  assert (H2 : 0 <= h (Z.of_nat n)) by (apply H; lia).
  lra.
Qed.

Lemma runningSum_value (difference : TypedArray.t) (n : nat) :
  (forall j, (1 <= j <= Z.of_nat n)%Z ->
             finNonneg (TypedArray.get difference j)) ->
  exists s, runningSumAt difference n = Fin s /\
            s == Qsum (fun k => valueAt difference (k + 1)) n.
Proof.
  induction n as [|n IH]; intros Hd.
  - exists 0. split; reflexivity.
  - destruct IH as (s & Hs & Es); [intros j Hj; apply Hd; lia|].
    destruct (finNonneg_valueAt difference (Z.of_nat n + 1)) as [Ha _];
      [apply Hd; lia|].
    rewrite runningSumAt_S, Hs, Ha. cbn [JS.add].
    eexists. split; [reflexivity|].
    cbn [Qsum]. rewrite Qred_correct, Es. reflexivity.
Qed.

(** A cell of the normalised difference is NaN as long as the running sum
    is zero, and a finite ratio from then on. *)
Lemma cmndfCell_value (difference : TypedArray.t) (j : Z) :
  (1 <= j)%Z ->
  (forall k, (1 <= k <= j)%Z -> finNonneg (TypedArray.get difference k)) ->
  let s := Qsum (fun k => valueAt difference (k + 1)) (Z.to_nat j) in
  0 <= s /\
  (s == 0 -> cmndfCell difference j = NaN) /\
  (0 < s -> exists x, cmndfCell difference j = Fin x /\
                      x * s == valueAt difference j * inject_Z j).
Proof.
  intros Hj Hd s.
  destruct (runningSum_value difference (Z.to_nat j)) as (r & Hr & Er);
    [intros k Hk; apply Hd; lia|].
  fold s in Er.
  destruct (finNonneg_valueAt difference j) as [Ha Ha0]; [apply Hd; lia|].
  assert (Hprev : 0 <= Qsum (fun k => valueAt difference (k + 1))
                            (Z.to_nat (j - 1))).
  { apply Qsum_nonneg_in. intros i Hi.
    destruct (finNonneg_valueAt difference (i + 1)) as [_ H];
      [apply Hd; lia | exact H]. }
  assert (Hs : s == Qsum (fun k => valueAt difference (k + 1))
                         (Z.to_nat (j - 1)) + valueAt difference j).
  { unfold s. replace (Z.to_nat j) with (S (Z.to_nat (j - 1))) by lia.
    cbn [Qsum]. rewrite Z2Nat.id by lia.
    replace (j - 1 + 1)%Z with j by lia. reflexivity. }
  assert (Hjpos : 0 < inject_Z j) by (apply inject_Z_pos; lia).
  split; [lra|].
  unfold cmndfCell. rewrite Hr, Ha. unfold JS.ofZ. cbn [JS.div].
  rewrite inject_Z_nonzero by lia.
  split.
  - intros Hz.
    assert (E : Qeq_bool (Qred (r / inject_Z j)) 0 = true).
    { apply Qeq_bool_iff. rewrite Qred_correct, Er, Hz.
      unfold Qdiv. ring. }
    rewrite E. cbn [JS.sign].
    destruct (JS.Qltb 0 (valueAt difference j)) eqn:E1; [qprop; lra|].
    destruct (JS.Qltb (valueAt difference j) 0) eqn:E2; [qprop; lra|].
    reflexivity.
  - intros Hpos.
    assert (Hq : 0 < r / inject_Z j).
    { apply Qlt_shift_div_l; [exact Hjpos | lra]. }
    assert (E : Qeq_bool (Qred (r / inject_Z j)) 0 = false).
    { apply Qeq_bool_false. rewrite Qred_correct. lra. }
    rewrite E. eexists. split; [reflexivity|].
    rewrite !Qred_correct, <- Er. field. split; lra.
Qed.


Lemma Qsum_step (g : Z -> Q) (j : Z) :
  (1 <= j)%Z ->
  Qsum g (Z.to_nat j) == Qsum g (Z.to_nat (j - 1)) + g (j - 1)%Z.
Proof.
  intros Hj. replace (Z.to_nat j) with (S (Z.to_nat (j - 1))) by lia.
  cbn [Qsum]. rewrite Z2Nat.id by lia. reflexivity.
Qed.

(** Next to a cell below 1 the normalised difference is finite. *)
Lemma neighbours_finite (difference cmndf : TypedArray.t) (maxLag : num)
    (tau : Z) (b : Q) :
  cumulativeMeanNormalizedDifference difference maxLag = Ok cmndf ->
  (forall k, (1 <= k < TypedArray.length cmndf)%Z ->
             finNonneg (TypedArray.get difference k)) ->
  (0 < tau)%Z -> (tau + 1 < TypedArray.length cmndf)%Z ->
  TypedArray.get cmndf tau = Fin b -> b < 1 ->
  (exists a, TypedArray.get cmndf (tau - 1) = Fin a) /\
  (exists c, TypedArray.get cmndf (tau + 1) = Fin c).
Proof.
  intros Hc Hd Htau Hlen Hb Hb1.
  pose proof (cmndf_cells difference cmndf maxLag Hc) as Hcell.
  set (g := fun k => valueAt difference (k + 1)).
  destruct (cmndfCell_value difference tau) as (Hs0 & Hnan & Hfin);
    [lia | intros; apply Hd; lia|].
  fold g in Hs0, Hnan, Hfin.
  rewrite Hcell in Hb by lia.
  assert (Hpos : 0 < Qsum g (Z.to_nat tau)).
  { destruct (Qlt_le_dec 0 (Qsum g (Z.to_nat tau))) as [H|H]; [exact H|].
    rewrite Hnan in Hb by lra. discriminate. }
  destruct (Hfin Hpos) as (x & Hx & Ex).
  rewrite Hx in Hb. apply (f_equal (fun n => match n with
                                             | Fin q => q
                                             | _ => 0
                                             end)) in Hb.
  subst x.
  pose proof (Qsum_step g tau ltac:(lia)) as Hstep.
  replace (g (tau - 1)%Z) with (valueAt difference tau) in Hstep
    by (unfold g; f_equal; lia).
  assert (Ha0 : 0 <= valueAt difference tau).
  { destruct (finNonneg_valueAt difference tau) as [_ H];
      [apply Hd; lia | exact H]. }
  assert (Hprev0 : 0 <= Qsum g (Z.to_nat (tau - 1))).
  { apply Qsum_nonneg_in. intros i Hi. unfold g.
    destruct (finNonneg_valueAt difference (i + 1)) as [_ H];
      [apply Hd; lia | exact H]. }
  assert (Htau1 : 1 <= inject_Z tau).
  { change 1 with (inject_Z 1). rewrite <- Zle_Qle. lia. }
  assert (Hprev : 0 < Qsum g (Z.to_nat (tau - 1))).
  { destruct (Qlt_le_dec 0 (Qsum g (Z.to_nat (tau - 1)))) as [H|H];
      [exact H|].
    exfalso.
    assert (E : Qsum g (Z.to_nat tau) == valueAt difference tau) by lra.
    rewrite E in Ex, Hpos. nra. }
  assert (Htau2 : (2 <= tau)%Z).
  { destruct (Z_le_dec 2 tau) as [H|H]; [exact H|].
    exfalso. replace (tau - 1)%Z with 0%Z in Hprev by lia.
    cbn in Hprev. lra. }
  split.
  - destruct (cmndfCell_value difference (tau - 1)) as (_ & _ & Hf);
      [lia | intros; apply Hd; lia|].
    fold g in Hf. destruct (Hf Hprev) as (a & Ha & _).
    exists a. rewrite Hcell by lia. exact Ha.
  - destruct (cmndfCell_value difference (tau + 1)) as (_ & _ & Hf);
      [lia | intros; apply Hd; lia|].
    fold g in Hf.
    pose proof (Qsum_step g (tau + 1) ltac:(lia)) as Hnext.
    replace (tau + 1 - 1)%Z with tau in Hnext by lia.
    assert (Hn0 : 0 <= g tau).
    { unfold g. destruct (finNonneg_valueAt difference (tau + 1)) as [_ H];
        [apply Hd; lia | exact H]. }
    destruct Hf as (c & Hc' & _); [lra|].
    exists c. rewrite Hcell by lia. exact Hc'.
Qed.

Lemma cmndfOf_parts (d : YINDetector.t) (buffer cmndf : TypedArray.t) :
  cmndfOf d buffer = Ok cmndf ->
  exists difference,
    differenceFunction buffer (TypedArray.length buffer)
                       (pitchMaxLag d buffer) = Ok difference /\
    cumulativeMeanNormalizedDifference difference (pitchMaxLag d buffer)
      = Ok cmndf /\
    TypedArray.length difference = TypedArray.length cmndf.
Proof.
  unfold cmndfOf.
  destruct (differenceFunction _ _ _) as [difference|e] eqn:Ed;
    [|discriminate].
  cbn [bind]. intros Hc. exists difference.
  split; [reflexivity|]. split; [exact Hc|].
  unfold differenceFunction in Ed.
  unfold cumulativeMeanNormalizedDifference in Hc.
  destruct (TypedArray.create (pitchMaxLag d buffer)) as [a0|e]; [|discriminate].
  cbn [bind] in Ed, Hc. apply Ok_inj in Ed. apply Ok_inj in Hc.
  subst difference cmndf. rewrite fill_length.
  destruct (cmndf_loop
              (fold_left
                 (fun difference tau =>
                    TypedArray.set difference tau
                      (differenceAt buffer (TypedArray.length buffer)
                                    (pitchMaxLag d buffer) tau))
                 (upto (turns 0 (pitchMaxLag d buffer))) a0)
              (TypedArray.set a0 0 JS.one)
              (turns 1 (pitchMaxLag d buffer))) as (_ & Hl & _).
  cbv zeta in Hl. rewrite Hl, set_length. reflexivity.
Qed.


Lemma interpolation_finite (cmndf : TypedArray.t) (tau : Z) (a b c : Q) :
  TypedArray.get cmndf (tau - 1) = Fin a ->
  TypedArray.get cmndf tau = Fin b ->
  TypedArray.get cmndf (tau + 1) = Fin c ->
  exists x, parabolicInterpolation cmndf tau = Fin x.
Proof.
  intros Ha Hb Hc. unfold parabolicInterpolation.
  destruct (_ || _)%bool; [eexists; reflexivity|].
  rewrite Ha, Hb, Hc. unfold JS.ofZ.
  cbn [JS.mul JS.sub JS.neg JS.add].
  set (denom := Qred (inject_Z 2 * _)).
  destruct (JS.lt (JS.abs (Fin denom)) (Fin (1 # 10000000000))) eqn:Et;
    [eexists; reflexivity|].
  cbn [JS.div].
  destruct (Qeq_bool denom 0) eqn:E0; [|eexists; reflexivity].
  exfalso. apply Qeq_bool_iff in E0. cbn [JS.abs] in Et.
  destruct (JS.Qltb denom 0) eqn:E1; [qprop; lra|].
  cbn [JS.lt] in Et. qprop. lra.
Qed.

(** X5.  With a threshold not above 1 and finite frequency bounds, the
    pitch the YIN detector reports for a window of samples in [-1, 1] is
    a finite frequency inside [minFrequency, maxFrequency]: never NaN and
    never an infinity. *)
Theorem reported_pitch_is_in_range (d : YINDetector.t)
    (buffer : TypedArray.t) (p : Pitch) (sr lo hi : Q) :
  sampleRate d = Fin sr -> 0 < sr ->
  minFrequency d = Fin lo -> maxFrequency d = Fin hi ->
  JS.gt (threshold d) JS.one = false ->
  Forall nominal buffer ->
  detect d buffer = Ok (Some p) ->
  exists f, frequency p = Fin f /\ lo <= f <= hi.
Proof.
  intros Hsr Hpos Hlo Hhi Hthr Hnom.
  pose proof (nominal_fin buffer Hnom) as Hfin. rewrite detect_unfold.
  destruct (cmndfOf d buffer) as [cmndf|e] eqn:Hc; [|discriminate].
  cbn [bind]. cbn zeta.
  set (tau := absoluteThreshold d cmndf _ _).
  destruct (tau =? -1)%Z eqn:E; [discriminate|].
  apply Z.eqb_neq in E.
  pose proof (absoluteThreshold_below d cmndf _ _ E) as Hb. fold tau in Hb.
  clearbody tau. unfold below in Hb.
  destruct (cmndfOf_parts d buffer cmndf Hc) as (difference & Hd & Hn & Hl).
  (* the cell at tau is finite and below 1 *)
  assert (Hcell : exists b, TypedArray.get cmndf tau = Fin b /\ b < 1).
  { assert (Hnn : notNegative (TypedArray.get cmndf tau)).
    { apply get_Forall; [|exact I].
      eapply cmndf_notNegative; [|exact Hn].
      eapply difference_notNegative; exact Hd. }
    unfold JS.gt, JS.one in Hthr.
    destruct (TypedArray.get cmndf tau) as [b| | |],
             (threshold d) as [t| | |];
      try contradiction; try discriminate Hb; try discriminate Hthr.
    exists b. split; [reflexivity|].
    cbn [JS.lt] in Hb, Hthr. qprop. lra. }
  destruct Hcell as (b & Eb & Hb1).
  assert (Hrange : (0 <= tau < TypedArray.length cmndf)%Z).
  { destruct (Z_lt_dec tau 0) as [H|H];
      [rewrite get_outside in Eb by lia; discriminate|].
    destruct (Z_lt_dec tau (TypedArray.length cmndf)) as [H'|H']; [lia|].
    rewrite get_outside in Eb by lia. discriminate. }
  (* the refined lag is finite *)
  assert (Hx : exists x, parabolicInterpolation cmndf tau = Fin x).
  { destruct ((tau <=? 0) || (tau >=? TypedArray.length cmndf - 1))%Z
      eqn:G.
    - unfold parabolicInterpolation. rewrite G. eexists. reflexivity.
    - apply orb_false_iff in G as [G1 G2].
      apply Z.leb_gt in G1. rewrite Z.geb_leb in G2. apply Z.leb_gt in G2.
      destruct (neighbours_finite difference cmndf _ tau b Hn) as
        [[a Ha] [c Hc']]; try assumption; try lia.
      + intros k Hk.
        apply (difference_cells buffer difference _ Hfin Hd). lia.
      + exact (interpolation_finite cmndf tau a b c Ha Eb Hc'). }
  destruct Hx as (x & Hx).
  unfold pitchAt. rewrite Hx, Hsr, Hlo, Hhi. cbn [JS.div].
  destruct (Qeq_bool x 0) eqn:Ex.
  - (* a zero lag gives Infinity, which is out of range *)
    cbn [JS.sign].
    assert (E1 : JS.Qltb 0 sr = true) by (apply Qltb_true; exact Hpos).
    rewrite E1. cbn [JS.signed_inf JS.lt JS.gt orb].
    destruct (JS.lt PInf (Fin lo)); discriminate.
  - destruct (_ || _)%bool eqn:Et; [discriminate|].
    intros H. apply Ok_inj in H.
    assert (Hp : p = {| frequency := Fin (Qred (sr / x));
                        pitchConfidence :=
                          JS.sub JS.one (TypedArray.get cmndf tau) |})
      by congruence.
    rewrite Hp. cbn [frequency]. eexists. split; [reflexivity|].
    rewrite Qred_correct.
    apply orb_false_iff in Et as [E1 E2].
    unfold JS.gt in E2. cbn [JS.lt] in E1, E2. qprop. lra.
Qed.

Lemma reported_pitch_is_in_range_witness :
  exists f,
    frequency {| frequency := Fin (33600 # 11); pitchConfidence := Fin 1 |}
    = Fin f /\ 50 <= f <= 5000.
Proof.
  assert (Hpos : 0 < 12000) by reflexivity.
  apply (reported_pitch_is_in_range (Samples.yinDefault 12000) Samples.square
           {| frequency := Fin (33600 # 11); pitchConfidence := Fin 1 |}
           12000 50 5000 eq_refl Hpos eq_refl eq_refl eq_refl).
  - apply all_nominal. reflexivity.
  - vm_compute. reflexivity.
Defined.

End PitchCells.

(** ** The sound garden *)


Section GardenNotes.
Import NoteMapper.
Open Scope Z_scope.

Lemma garden_note_index (frequency : R) :
  GardenGenerator.frequencyToNote frequency =
  let n := Math_round (12 * Math_log2 (frequency / 440)) + 69 in
  if (n / 12 - 1 <? 0) || (n / 12 - 1 >? 8) then None
  else Some (nameOfIndex n).
Proof. reflexivity. Qed.

(** X25.  For a positive frequency, whenever the garden's
    [frequencyToNote] returns a name, it is the name the analyzer's
    [frequencyToNote] gives, and the analyzer's [noteToFrequency] reads
    it; from 27.5 Hz to 7040 Hz it always returns a name. *)
Theorem garden_names_agree (f : R) :
  (0 < f)%R ->
  (forall s, GardenGenerator.frequencyToNote f = Some s ->
             frequencyToNote f = s /\
             exists f', noteToFrequency s = Ok f') /\
  ((27.5 <= f <= 7040)%R ->
   GardenGenerator.frequencyToNote f = Some (frequencyToNote f)).
Proof.
  intros _.
  rewrite garden_note_index, frequencyToNote_index. cbv zeta.
  set (n := Math_round (12 * Math_log2 (f / 440)) + 69).
  split.
  - intros s. destruct ((n / 12 - 1 <? 0) || (n / 12 - 1 >? 8)) eqn:E;
      [discriminate|].
    intros H. injection H as <-. split; [reflexivity|].
    apply orb_false_iff in E as [E1 E2].
    apply Z.ltb_ge in E1. rewrite Z.gtb_ltb in E2. apply Z.ltb_ge in E2.
    assert (Hn : 12 <= n <= 131).
    { pose proof (Z.div_mod n 12 ltac:(lia)).
      pose proof (Z.mod_pos_bound n 12 ltac:(lia)). lia. }
    unfold noteToFrequency. rewrite (name_reads_back n Hn). cbn [bind].
    eauto.
  - intros [Hlo Hhi].
    assert (Hs : (IZR (-48) <= 12 * Math_log2 (f / 440) <= IZR 48)%R).
    { split.
      - replace (IZR (-48)) with (12 * Math_log2 (Rpower 2 (-4)))%R
          by (rewrite log2_Rpower; lra).
        apply Rmult_le_compat_l; [lra|]. apply log2_mono.
        + unfold Rpower. apply exp_pos.
        + replace (-4)%R with (- INR 4)%R by (simpl; lra).
          rewrite Rpower_Ropp, Rpower_2_nat. simpl. lra.
      - replace (IZR 48) with (12 * Math_log2 (Rpower 2 (INR 4)))%R
          by (rewrite log2_Rpower; simpl; lra).
        apply Rmult_le_compat_l; [lra|]. apply log2_mono; [lra|].
        rewrite Rpower_2_nat. simpl. lra. }
    apply Math_round_bounds in Hs.
    assert (Hn : 21 <= n <= 117) by (unfold n; lia).
    assert (E1 : (n / 12 - 1 <? 0) = false).
    { apply Z.ltb_ge.
      assert (1 <= n / 12) by (apply Z.div_le_lower_bound; lia). lia. }
    assert (E2 : (n / 12 - 1 >? 8) = false).
    { rewrite Z.gtb_ltb. apply Z.ltb_ge.
      assert (n / 12 < 10) by (apply Z.div_lt_upper_bound; lia). lia. }
    rewrite E1, E2. reflexivity.
Qed.

Lemma garden_names_agree_witness :
  (forall s, GardenGenerator.frequencyToNote 440 = Some s ->
             frequencyToNote 440 = s /\
             exists f', noteToFrequency s = Ok f') /\
  ((27.5 <= 440 <= 7040)%R ->
   GardenGenerator.frequencyToNote 440 = Some (frequencyToNote 440)).
Proof. apply (garden_names_agree 440). lra. Defined.

End GardenNotes.

Section GardenSegments.
Context {M : JS.Math} {L : JS.MathLaws M}.

(** X26.  For a stretch of the waveform that is not empty, the frequency
    [analyzeSegment] estimates is a finite number clamped into
    [50, 5000], whatever the samples are, and the volume lies in [0, 1]
    when the samples are finite; for the empty stretch the frequency is
    NaN. *)
Theorem segment_features_are_clamped :
  (forall segment : TypedArray.t,
      segment <> [] ->
      exists f,
        GardenGenerator.sf_frequency (GardenGenerator.analyzeSegment segment)
        = Fin f /\ 50 <= f <= 5000) /\
  (forall segment : TypedArray.t,
      segment <> [] -> Forall (fun x => JS.is_fin x = true) segment ->
      inUnit
        (GardenGenerator.sf_volume (GardenGenerator.analyzeSegment segment)))
  /\
  GardenGenerator.sf_frequency (GardenGenerator.analyzeSegment []) = NaN.
Proof.
  split; [|split].
  - intros segment Hne. unfold GardenGenerator.analyzeSegment.
    cbn [GardenGenerator.sf_frequency].
    set (zc := fold_left _ (map _ _) 0%Z).
    assert (Hlen : (0 < TypedArray.length segment)%Z).
    { unfold TypedArray.length. destruct segment; [congruence | simpl; lia]. }
    unfold JS.ofZ. cbn [JS.mul JS.div].
    assert (E : Qeq_bool
                  (Qred (inject_Z 2 * inject_Z (TypedArray.length segment)))
                  0 = false).
    { apply Qeq_bool_false. rewrite Qred_correct.
      pose proof (inject_Z_pos _ Hlen). change (inject_Z 2) with 2. lra. }
    rewrite E. cbn [JS.min JS.lt].
    destruct (JS.Qltb _ (inject_Z 5000)) eqn:E1; cbn [JS.max JS.lt].
    + destruct (JS.Qltb (inject_Z 50) _) eqn:E2;
        eexists; (split; [reflexivity|]); qprop;
        change (inject_Z 50) with 50 in *;
        change (inject_Z 5000) with 5000 in *; lra.
    + eexists. split; [reflexivity|]. split; discriminate.
  - intros segment Hne Hfin.
    exact (volume_in_unit segment Hne Hfin).
  - cbn. reflexivity.
Qed.

End GardenSegments.

Lemma segment_features_are_clamped_witness :
  (exists f,
      GardenGenerator.sf_frequency
        (@GardenGenerator.analyzeSegment Samples.fixedPoint Samples.square)
      = Fin f /\ 50 <= f <= 5000) /\
  inUnit
    (GardenGenerator.sf_volume
       (@GardenGenerator.analyzeSegment Samples.fixedPoint Samples.square)).
Proof.
  destruct (@segment_features_are_clamped Samples.fixedPoint fixedPoint_laws)
    as (Hf & Hv & _).
  split.
  - apply Hf. discriminate.
  - apply Hv; [discriminate|]. apply all_fin. reflexivity.
Defined.
